(** * Sinusoidal ("snake") coordinates of Minkowski spacetime

    A shallow embedding of [src/coordinates/sinusoidal.cpp]: the geometry
    precomputation done by the [Coordinates] constructor, the volume and metric
    providers, the coordinate source terms and the transformations between
    the global chart and the locally flat frame at the three kinds of
    interfaces.

    Conventions of the embedding:
    - [Real] is the type [R] of real numbers; [std::sqrt], [std::sin] and
      [std::cos] are [sqrt], [sin] and [cos].  Rounding is not modelled.
    - an [AthenaArray<Real>] is a total function from its indices; an index
      is an [int] taken as an element of [Z], the first index of an array of
      variables is the enumeration of athena.hpp;
    - a [for] loop over an inclusive range of indices is [for_loop];
    - a function that writes into arrays it receives by reference returns
      the new arrays. *)

From Stdlib Require Import Reals Lra Lia ZArith List Bool RNsatz.
Import ListNotations.

Open Scope R_scope.

(** ** Scalars *)

(** [Real] of athena.hpp. *)
Abbreviation Real := R.

(** The macro [SQR] of athena.hpp. *)
Definition SQR (x : Real) : Real := x * x.

(** ** Indices of variables and of metric components (athena.hpp)

    The velocities share the slots of the momenta, as in the enumerations
    [IDN, IM1, IM2, IM3, IEN] and [IVX, IVY, IVZ, IBY, IBZ]. *)

Inductive VarIndex : Type := IDN | IM1 | IM2 | IM3 | IEN | IBY | IBZ.

Definition IVX : VarIndex := IM1.
Definition IVY : VarIndex := IM2.
Definition IVZ : VarIndex := IM3.

Definition VarIndex_eqb (a b : VarIndex) : bool :=
  match a, b with
  | IDN, IDN | IM1, IM1 | IM2, IM2 | IM3, IM3
  | IEN, IEN | IBY, IBY | IBZ, IBZ => true
  | _, _ => false
  end.

Inductive MetricIndex : Type :=
  I00 | I01 | I02 | I03 | I11 | I12 | I13 | I22 | I23 | I33.

Definition MetricIndex_eqb (a b : MetricIndex) : bool :=
  match a, b with
  | I00, I00 | I01, I01 | I02, I02 | I03, I03 | I11, I11
  | I12, I12 | I13, I13 | I22, I22 | I23, I23 | I33, I33 => true
  | _, _ => false
  end.

(** ** Arrays *)

Module AthenaArray.

(** One index: [a(i)]. *)
Definition Array1 : Type := Z -> Real.

(** A variable and one index: [a(n,i)]. *)
Definition Array2 (N : Type) : Type := N -> Z -> Real.

(** Three indices: [a(k,j,i)]. *)
Definition Array3 : Type := Z -> Z -> Z -> Real.

(** A variable and three indices: [a(n,k,j,i)]. *)
Definition Array4 (N : Type) : Type := N -> Z -> Z -> Z -> Real.

Definition set1 (a : Array1) (i : Z) (v : Real) : Array1 :=
  fun i' => if Z.eqb i' i then v else a i'.

Definition set2 {N : Type} (eqb : N -> N -> bool)
    (a : Array2 N) (n : N) (i : Z) (v : Real) : Array2 N :=
  fun n' i' => if eqb n' n && Z.eqb i' i then v else a n' i'.

Definition set4 {N : Type} (eqb : N -> N -> bool)
    (a : Array4 N) (n : N) (k j i : Z) (v : Real) : Array4 N :=
  fun n' k' j' i' =>
    if eqb n' n && Z.eqb k' k && Z.eqb j' j && Z.eqb i' i
    then v else a n' k' j' i'.

(** A new array of reals; its entries are taken to be zero until they are
    written. *)
Definition NewAthenaArray : Array1 := fun _ => 0.

End AthenaArray.

Import AthenaArray.

Abbreviation setv := (set2 VarIndex_eqb).
Abbreviation setm := (set2 MetricIndex_eqb).
Abbreviation setc := (set4 VarIndex_eqb).

(** ** Loops: [for (int i = lo; i <= hi; ++i) body] *)

Fixpoint for_steps {S : Type} (n : nat) (i : Z) (body : Z -> S -> S) (s : S)
  : S :=
  match n with
  | O => s
  | Datatypes.S n' => for_steps n' (i + 1)%Z body (body i s)
  end.

Definition for_loop {S : Type} (lo hi : Z) (body : Z -> S -> S) (s : S) : S :=
  for_steps (Z.to_nat (hi - lo + 1)) lo body s.

(** ** The mesh block (mesh.hpp), as far as the coordinates read it *)

Record RegionSize : Type := mkRegionSize { nx1 : Z; nx2 : Z; nx3 : Z }.

Record FluidEqnOfState : Type := mkFluidEqnOfState { gamma_ : Real }.

Definition GetGamma (eos : FluidEqnOfState) : Real := gamma_ eos.

Record Fluid : Type := mkFluid { pf_eos : FluidEqnOfState }.

Record MeshBlock : Type := mkMeshBlock {
  is_ : Z; ie : Z; js : Z; je : Z; ks : Z; ke : Z;
  block_size : RegionSize;
  x1f : Array1; x2f : Array1; x3f : Array1;
  dx1f : Array1; dx2f : Array1; dx3f : Array1;
  x1v : Array1; x2v : Array1; x3v : Array1;
  dx1v : Array1; dx2v : Array1; dx3v : Array1;
  pfluid : Fluid
}.

Definition with_x1v (pb : MeshBlock) (a : Array1) : MeshBlock :=
  mkMeshBlock (is_ pb) (ie pb) (js pb) (je pb) (ks pb) (ke pb) (block_size pb)
    (x1f pb) (x2f pb) (x3f pb) (dx1f pb) (dx2f pb) (dx3f pb)
    a (x2v pb) (x3v pb) (dx1v pb) (dx2v pb) (dx3v pb) (pfluid pb).

Definition with_x2v (pb : MeshBlock) (a : Array1) : MeshBlock :=
  mkMeshBlock (is_ pb) (ie pb) (js pb) (je pb) (ks pb) (ke pb) (block_size pb)
    (x1f pb) (x2f pb) (x3f pb) (dx1f pb) (dx2f pb) (dx3f pb)
    (x1v pb) a (x3v pb) (dx1v pb) (dx2v pb) (dx3v pb) (pfluid pb).

Definition with_x3v (pb : MeshBlock) (a : Array1) : MeshBlock :=
  mkMeshBlock (is_ pb) (ie pb) (js pb) (je pb) (ks pb) (ke pb) (block_size pb)
    (x1f pb) (x2f pb) (x3f pb) (dx1f pb) (dx2f pb) (dx3f pb)
    (x1v pb) (x2v pb) a (dx1v pb) (dx2v pb) (dx3v pb) (pfluid pb).

Definition with_dx1v (pb : MeshBlock) (a : Array1) : MeshBlock :=
  mkMeshBlock (is_ pb) (ie pb) (js pb) (je pb) (ks pb) (ke pb) (block_size pb)
    (x1f pb) (x2f pb) (x3f pb) (dx1f pb) (dx2f pb) (dx3f pb)
    (x1v pb) (x2v pb) (x3v pb) a (dx2v pb) (dx3v pb) (pfluid pb).

Definition with_dx2v (pb : MeshBlock) (a : Array1) : MeshBlock :=
  mkMeshBlock (is_ pb) (ie pb) (js pb) (je pb) (ks pb) (ke pb) (block_size pb)
    (x1f pb) (x2f pb) (x3f pb) (dx1f pb) (dx2f pb) (dx3f pb)
    (x1v pb) (x2v pb) (x3v pb) (dx1v pb) a (dx3v pb) (pfluid pb).

Definition with_dx3v (pb : MeshBlock) (a : Array1) : MeshBlock :=
  mkMeshBlock (is_ pb) (ie pb) (js pb) (je pb) (ks pb) (ke pb) (block_size pb)
    (x1f pb) (x2f pb) (x3f pb) (dx1f pb) (dx2f pb) (dx3f pb)
    (x1v pb) (x2v pb) (x3v pb) (dx1v pb) (dx2v pb) a (pfluid pb).

(** ** The coordinates object (coordinates.hpp) *)

Record Coordinates : Type := mkCoordinates {
  pmy_block : MeshBlock;
  cell_width1_i_ : Array1;
  src_terms_i1_ : Array1;
  metric_cell_i1_ : Array1;
  metric_cell_i2_ : Array1;
  metric_face1_i1_ : Array1;
  metric_face1_i2_ : Array1;
  metric_face2_i1_ : Array1;
  metric_face2_i2_ : Array1;
  metric_face3_i1_ : Array1;
  metric_face3_i2_ : Array1;
  trans_face1_i2_ : Array1;
  trans_face2_i1_ : Array1;
  trans_face2_i2_ : Array1;
  trans_face3_i2_ : Array1
}.

Arguments x1f _ _%_Z.
Arguments x2f _ _%_Z.
Arguments x3f _ _%_Z.
Arguments dx1f _ _%_Z.
Arguments dx2f _ _%_Z.
Arguments dx3f _ _%_Z.
Arguments x1v _ _%_Z.
Arguments x2v _ _%_Z.
Arguments x3v _ _%_Z.
Arguments dx1v _ _%_Z.
Arguments dx2v _ _%_Z.
Arguments dx3v _ _%_Z.
Arguments cell_width1_i_ _ _%_Z.
Arguments src_terms_i1_ _ _%_Z.
Arguments metric_cell_i1_ _ _%_Z.
Arguments metric_cell_i2_ _ _%_Z.
Arguments metric_face1_i1_ _ _%_Z.
Arguments metric_face1_i2_ _ _%_Z.
Arguments metric_face2_i1_ _ _%_Z.
Arguments metric_face2_i2_ _ _%_Z.
Arguments metric_face3_i1_ _ _%_Z.
Arguments metric_face3_i2_ _ _%_Z.
Arguments trans_face1_i2_ _ _%_Z.
Arguments trans_face2_i1_ _ _%_Z.
Arguments trans_face2_i2_ _ _%_Z.
Arguments trans_face3_i2_ _ _%_Z.

(** The parameters of the chart, [namespace globals]. *)
Module globals.
Definition A : Real := 10.0.
Definition K : Real := 0.1.
End globals.

(** ** The constructor *)

Section Constructor.

(** The constructor is written over the two parameters of the chart and
    over the number of ghost cells; [Coordinates_new] below takes the
    former from [globals]. *)
Variables A K : Real.
Variable NGHOST : Z.

(** Volume-averaged positions and spacings: x-direction. *)
Definition init_x1v (pb : MeshBlock) : MeshBlock :=
  let pb :=
    for_loop (is_ pb - NGHOST) (ie pb + NGHOST)
      (fun i pb =>
         with_x1v pb (set1 (x1v pb) i (0.5 * (x1f pb i + x1f pb (i + 1)%Z))))
      pb in
  for_loop (is_ pb - NGHOST) (ie pb + NGHOST - 1)
    (fun i pb =>
       with_dx1v pb (set1 (dx1v pb) i (x1v pb (i + 1)%Z - x1v pb i)))
    pb.

(** Volume-averaged positions and spacings: y-direction. *)
Definition init_x2v (pb : MeshBlock) : MeshBlock :=
  if Z.eqb (nx2 (block_size pb)) 1 then
    let pb :=
      with_x2v pb
        (set1 (x2v pb) (js pb)
           (0.5 * (x2f pb (js pb) + x2f pb (js pb + 1)%Z))) in
    with_dx2v pb (set1 (dx2v pb) (js pb) (dx2f pb (js pb)))
  else
    let pb :=
      for_loop (js pb - NGHOST) (je pb + NGHOST)
        (fun j pb =>
           with_x2v pb (set1 (x2v pb) j (0.5 * (x2f pb j + x2f pb (j + 1)%Z))))
        pb in
    for_loop (js pb - NGHOST) (je pb + NGHOST - 1)
      (fun j pb =>
         with_dx2v pb (set1 (dx2v pb) j (x2v pb (j + 1)%Z - x2v pb j)))
      pb.

(** Volume-averaged positions and spacings: z-direction. *)
Definition init_x3v (pb : MeshBlock) : MeshBlock :=
  if Z.eqb (nx3 (block_size pb)) 1 then
    let pb :=
      with_x3v pb
        (set1 (x3v pb) (ks pb)
           (0.5 * (x3f pb (ks pb) + x3f pb (ks pb + 1)%Z))) in
    with_dx3v pb (set1 (dx3v pb) (ks pb) (dx3f pb (ks pb)))
  else
    let pb :=
      for_loop (ks pb - NGHOST) (ke pb + NGHOST)
        (fun k pb =>
           with_x3v pb (set1 (x3v pb) k (0.5 * (x3f pb k + x3f pb (k + 1)%Z))))
        pb in
    for_loop (ks pb - NGHOST) (ke pb + NGHOST - 1)
      (fun k pb =>
         with_dx3v pb (set1 (dx3v pb) k (x3v pb (k + 1)%Z - x3v pb k)))
      pb.

(** The three initializations in the order of the constructor: the block as
    the constructor leaves it. *)
Definition init_block (pb : MeshBlock) : MeshBlock :=
  init_x3v (init_x2v (init_x1v pb)).

(** One pass of the loop over the x-direction that fills the intermediate
    geometric quantities. *)
Definition geometry_body (pb : MeshBlock) (i : Z) (c : Coordinates)
  : Coordinates :=
  (* Useful quantities *)
  let r_c := x1v pb i in
  let r_m := x1f pb i in
  let r_p := x1f pb (i + 1)%Z in
  let sin_2m := sin (2.0 * K * r_m) in
  let sin_2p := sin (2.0 * K * r_p) in
  let cos_c := cos (K * r_c) in
  let cos_m := cos (K * r_m) in
  let cos_p := cos (K * r_p) in
  let alpha_sq_c := 1.0 + SQR A * SQR K * SQR cos_c in
  let alpha_sq_m := 1.0 + SQR A * SQR K * SQR cos_m in
  let alpha_c := sqrt alpha_sq_c in
  let beta_c := A * K * cos_c in
  let beta_m := A * K * cos_m in
  let beta_p := A * K * cos_p in
  mkCoordinates (pmy_block c)
    (* Volumes, areas, lengths, and widths *)
    (set1 (cell_width1_i_ c) i
       (1.0 / (4.0 * (1.0 + SQR A * SQR K))
        * (2.0 * K * (2.0 + SQR A * SQR K) * dx1f pb i
           - SQR A * SQR K * (sin_2m - sin_2p))))
    (* Source terms *)
    (set1 (src_terms_i1_ c) i ((beta_m - beta_p) / dx1f pb i))
    (* Cell-centered metric *)
    (set1 (metric_cell_i1_ c) i alpha_sq_c)
    (set1 (metric_cell_i2_ c) i beta_c)
    (* Face-centered metric *)
    (set1 (metric_face1_i1_ c) i alpha_sq_m)
    (set1 (metric_face1_i2_ c) i beta_m)
    (set1 (metric_face2_i1_ c) i alpha_sq_c)
    (set1 (metric_face2_i2_ c) i beta_c)
    (set1 (metric_face3_i1_ c) i alpha_sq_c)
    (set1 (metric_face3_i2_ c) i beta_c)
    (* Coordinate transformations *)
    (set1 (trans_face1_i2_ c) i beta_m)
    (set1 (trans_face2_i1_ c) i alpha_c)
    (set1 (trans_face2_i2_ c) i beta_c)
    (set1 (trans_face3_i2_ c) i beta_m).

(** [Coordinates::Coordinates(MeshBlock *pb, ParameterInput *pin)]: the
    block gets its cell-centred positions, then the arrays are allocated
    and filled. *)
Definition Coordinates_ctor (pb : MeshBlock) : Coordinates :=
  let pb := init_block pb in
  for_loop (is_ pb - NGHOST) (ie pb + NGHOST) (geometry_body pb)
    (mkCoordinates pb
       NewAthenaArray NewAthenaArray NewAthenaArray NewAthenaArray
       NewAthenaArray NewAthenaArray NewAthenaArray NewAthenaArray
       NewAthenaArray NewAthenaArray NewAthenaArray NewAthenaArray
       NewAthenaArray NewAthenaArray).

End Constructor.

(** The constructor of the source, with the chart of [globals]. *)
Definition Coordinates_new (NGHOST : Z) (pb : MeshBlock) : Coordinates :=
  Coordinates_ctor globals.A globals.K NGHOST pb.


(** ** Member functions *)

Section Members.

(** Compile-time configuration (defs.hpp): the number of ghost cells and
    whether magnetic fields are present. *)
Variable NGHOST : Z.
Variable MAGNETIC_FIELDS_ENABLED : bool.

(** The object the member functions are called on. *)
Variable this : Coordinates.

(** *** Volumes, areas, lengths and widths *)

(** [CellVolume]: Delta V = Delta x * Delta y * Delta z. *)
Definition CellVolume (k j il iu : Z) (volumes : Array1) : Array1 :=
  let delta_y := dx2f (pmy_block this) j in
  let delta_z := dx3f (pmy_block this) k in
  for_loop il iu
    (fun i volumes =>
       let delta_x := dx1f (pmy_block this) i in
       set1 volumes i (delta_x * delta_y * delta_z))
    volumes.

(** [Face1Area]: Delta A = Delta y * Delta z. *)
Definition Face1Area (k j il iu : Z) (areas : Array1) : Array1 :=
  let delta_y := dx2f (pmy_block this) j in
  let delta_z := dx3f (pmy_block this) k in
  for_loop il iu (fun i areas => set1 areas i (delta_y * delta_z)) areas.

(** [Face2Area]: Delta A = Delta x * Delta z. *)
Definition Face2Area (k j il iu : Z) (areas : Array1) : Array1 :=
  let delta_z := dx3f (pmy_block this) k in
  for_loop il iu
    (fun i areas =>
       let delta_x := dx1f (pmy_block this) i in
       set1 areas i (delta_x * delta_z))
    areas.

(** [Face3Area]: Delta A = Delta x * Delta y. *)
Definition Face3Area (k j il iu : Z) (areas : Array1) : Array1 :=
  let delta_y := dx2f (pmy_block this) j in
  for_loop il iu
    (fun i areas =>
       let delta_x := dx1f (pmy_block this) i in
       set1 areas i (delta_x * delta_y))
    areas.

Definition Edge1Length (k j il iu : Z) (len : Array1) : Array1 :=
  for_loop il iu (fun i len => set1 len i (dx1f (pmy_block this) i)) len.

Definition Edge2Length (k j il iu : Z) (len : Array1) : Array1 :=
  let length := dx2f (pmy_block this) j in
  for_loop il iu (fun i len => set1 len i length) len.

Definition Edge3Length (k j il iu : Z) (len : Array1) : Array1 :=
  let length := dx3f (pmy_block this) k in
  for_loop il iu (fun i len => set1 len i length) len.

Definition CenterWidth1 (k j i : Z) : Real := cell_width1_i_ this i.

Definition CenterWidth2 (k j i : Z) : Real := dx2f (pmy_block this) j.

Definition CenterWidth3 (k j i : Z) : Real := dx3f (pmy_block this) k.

(** *** Source terms *)

(** What [CoordinateSourceTerms] does at the cell [(k,j,i)]. *)
Definition source_terms_body (dt gamma_adi_red : Real)
    (prim : Array4 VarIndex) (k j i : Z) (cons : Array4 VarIndex)
  : Array4 VarIndex :=
  (* Extract geometric quantities *)
  let g00 := -1.0 in
  let g11 := metric_cell_i1_ this i in
  let g12 := metric_cell_i2_ this i in
  let g22 := 1.0 in
  let g33 := 1.0 in
  let gamma_211 := src_terms_i1_ this i in
  (* Extract primitives *)
  let rho := prim IDN k j i in
  let pgas := prim IEN k j i in
  let v1 := prim IVX k j i in
  let v2 := prim IVY k j i in
  let v3 := prim IVZ k j i in
  (* Calculate 4-velocity *)
  let u0 := sqrt (-1.0 /
      (g00 + g11*v1*v1 + 2.0*g12*v1*v2 + g22*v2*v2 + g33*v3*v3)) in
  let u1 := u0 * v1 in
  let u2 := u0 * v2 in
  let u_2 := g12*u1 + g22*u2 in
  (* Calculate stress-energy tensor *)
  let rho_h := rho + gamma_adi_red * pgas in
  let t1_2 := rho_h * u1 * u_2 in
  (* Calculate source terms *)
  let s1 := gamma_211 * t1_2 in
  (* Extract conserved quantities *)
  let m1 := cons IM1 k j i in
  (* Add source terms to conserved quantities *)
  setc cons IM1 k j i (m1 + dt * s1).

(** [CoordinateSourceTerms]: [prim] is received by constant reference and is
    handed back as it came, [cons] is updated. *)
Definition CoordinateSourceTerms (dt : Real)
    (prim cons : Array4 VarIndex) : Array4 VarIndex * Array4 VarIndex :=
  (* Extract ratio of specific heats *)
  let gamma_adi := GetGamma (pf_eos (pfluid (pmy_block this))) in
  let gamma_adi_red := gamma_adi / (gamma_adi - 1.0) in
  (* Go through cells *)
  (prim,
   for_loop (ks (pmy_block this)) (ke (pmy_block this))
     (fun k cons =>
        for_loop (js (pmy_block this)) (je (pmy_block this))
          (fun j cons =>
             for_loop (is_ (pmy_block this)) (ie (pmy_block this))
               (fun i cons => source_terms_body dt gamma_adi_red prim k j i cons)
               cons)
          cons)
     cons).

(** *** Metric coefficients *)

(** [CellMetric]: cell-centered metric coefficients. *)
Definition CellMetric (k j : Z) (g g_inv : Array2 MetricIndex)
  : Array2 MetricIndex * Array2 MetricIndex :=
  for_loop (is_ (pmy_block this) - NGHOST) (ie (pmy_block this) + NGHOST)
    (fun i gs =>
       let '(g, g_inv) := gs in
       (* Extract geometric quantities *)
       let alpha_sq := metric_cell_i1_ this i in
       let beta := metric_cell_i2_ this i in
       (* Set metric terms *)
       let g := setm g I00 i (-1.0) in
       let g := setm g I11 i alpha_sq in
       let g := setm g I12 i (- beta) in
       let g := setm g I22 i 1.0 in
       let g := setm g I33 i 1.0 in
       let g_inv := setm g_inv I00 i (-1.0) in
       let g_inv := setm g_inv I11 i 1.0 in
       let g_inv := setm g_inv I12 i beta in
       let g_inv := setm g_inv I22 i alpha_sq in
       let g_inv := setm g_inv I33 i 1.0 in
       (g, g_inv))
    (g, g_inv).

(** [Face1Metric]: face-centered metric coefficients, x-interface. *)
Definition Face1Metric (k j : Z) (g g_inv : Array2 MetricIndex)
  : Array2 MetricIndex * Array2 MetricIndex :=
  for_loop (is_ (pmy_block this)) (ie (pmy_block this) + 1)
    (fun i gs =>
       let '(g, g_inv) := gs in
       (* Extract geometric quantities *)
       let alpha_sq := metric_face1_i1_ this i in
       let beta := metric_face1_i2_ this i in
       (* Set metric terms *)
       let g := setm g I00 i (-1.0) in
       let g := setm g I11 i alpha_sq in
       let g := setm g I12 i (- beta) in
       let g := setm g I22 i 1.0 in
       let g := setm g I33 i 1.0 in
       let g_inv := setm g_inv I00 i (-1.0) in
       let g_inv := setm g_inv I11 i 1.0 in
       let g_inv := setm g_inv I12 i beta in
       let g_inv := setm g_inv I22 i alpha_sq in
       let g_inv := setm g_inv I33 i 1.0 in
       (g, g_inv))
    (g, g_inv).

(** [Face2Metric]: face-centered metric coefficients, y-interface. *)
Definition Face2Metric (k j : Z) (g g_inv : Array2 MetricIndex)
  : Array2 MetricIndex * Array2 MetricIndex :=
  for_loop (is_ (pmy_block this)) (ie (pmy_block this))
    (fun i gs =>
       let '(g, g_inv) := gs in
       (* Extract geometric quantities *)
       let alpha_sq := metric_face2_i1_ this i in
       let beta := metric_face2_i2_ this i in
       (* Set metric terms *)
       let g := setm g I00 i (-1.0) in
       let g := setm g I11 i alpha_sq in
       let g := setm g I12 i (- beta) in
       let g := setm g I22 i 1.0 in
       let g := setm g I33 i 1.0 in
       let g_inv := setm g_inv I00 i (-1.0) in
       let g_inv := setm g_inv I11 i 1.0 in
       let g_inv := setm g_inv I12 i beta in
       let g_inv := setm g_inv I22 i alpha_sq in
       let g_inv := setm g_inv I33 i 1.0 in
       (g, g_inv))
    (g, g_inv).

(** [Face3Metric]: face-centered metric coefficients, z-interface. *)
Definition Face3Metric (k j : Z) (g g_inv : Array2 MetricIndex)
  : Array2 MetricIndex * Array2 MetricIndex :=
  for_loop (is_ (pmy_block this)) (ie (pmy_block this))
    (fun i gs =>
       let '(g, g_inv) := gs in
       (* Extract geometric quantities *)
       let alpha_sq := metric_face3_i1_ this i in
       let beta := metric_face3_i2_ this i in
       (* Set metric terms *)
       let g := setm g I00 i (-1.0) in
       let g := setm g I11 i alpha_sq in
       let g := setm g I12 i (- beta) in
       let g := setm g I22 i 1.0 in
       let g := setm g I33 i 1.0 in
       let g_inv := setm g_inv I00 i (-1.0) in
       let g_inv := setm g_inv I11 i 1.0 in
       let g_inv := setm g_inv I12 i beta in
       let g_inv := setm g_inv I22 i alpha_sq in
       let g_inv := setm g_inv I33 i 1.0 in
       (g, g_inv))
    (g, g_inv).

(** *** Primitives to the locally flat frame *)

(** The arrays a [PrimToLocal] function writes: the left and the right
    primitives and the normal magnetic field. *)
Definition LocalArrays : Type :=
  (Array2 VarIndex * Array2 VarIndex * Array1)%type.

(** One pass of the loop of [PrimToLocal1], at the interface [i]. *)
Definition PrimToLocal1_body (k j : Z) (b1_vals : Array3) (i : Z)
    (s : LocalArrays) : LocalArrays :=
  let '(prim_left, prim_right, bx) := s in
  (* Extract geometric quantities *)
  let g00 := -1.0 in
  let g11 := metric_face1_i1_ this i in
  let g12 := - metric_face1_i2_ this i in
  let g22 := 1.0 in
  let g33 := 1.0 in
  let mt0 := 1.0 in
  let mx1 := 1.0 in
  let my1 := - trans_face1_i2_ this i in
  let my2 := 1.0 in
  let mz3 := 1.0 in
  (* Extract global 3-velocities *)
  let v1l := prim_left IVX i in
  let v2l := prim_left IVY i in
  let v3l := prim_left IVZ i in
  let v1r := prim_right IVX i in
  let v2r := prim_right IVY i in
  let v3r := prim_right IVZ i in
  (* Construct global 4-velocities *)
  let u0l := sqrt (-1.0 /
      (g00 + g11*v1l*v1l + 2.0*g12*v1l*v2l + g22*v2l*v2l + g33*v3l*v3l)) in
  let u1l := u0l * v1l in
  let u2l := u0l * v2l in
  let u3l := u0l * v3l in
  let u0r := sqrt (-1.0 /
      (g00 + g11*v1r*v1r + 2.0*g12*v1r*v2r + g22*v2r*v2r + g33*v3r*v3r)) in
  let u1r := u0r * v1r in
  let u2r := u0r * v2r in
  let u3r := u0r * v3r in
  (* Transform 4-velocities *)
  let utl := mt0*u0l in
  let uxl := mx1*u1l in
  let uyl := my1*u1l + my2*u2l in
  let uzl := mz3*u3l in
  let utr := mt0*u0r in
  let uxr := mx1*u1r in
  let uyr := my1*u1r + my2*u2r in
  let uzr := mz3*u3r in
  (* Set local 3-velocities *)
  let prim_left := setv prim_left IVX i (uxl / utl) in
  let prim_left := setv prim_left IVY i (uyl / utl) in
  let prim_left := setv prim_left IVZ i (uzl / utl) in
  let prim_right := setv prim_right IVX i (uxr / utr) in
  let prim_right := setv prim_right IVY i (uyr / utr) in
  let prim_right := setv prim_right IVZ i (uzr / utr) in
  (* Transform magnetic field if necessary *)
  if MAGNETIC_FIELDS_ENABLED then
    (* Extract global magnetic fields *)
    let b1 := b1_vals k j i in
    let b2l := prim_left IBY i in
    let b3l := prim_left IBZ i in
    let b2r := prim_right IBY i in
    let b3r := prim_right IBZ i in
    (* Construct global contravariant magnetic fields *)
    let bcon0l :=
      g11*b1*u1l + g12*(b1*u2l+b2l*u1l) + g22*b2l*u2l + g33*b3l*u3l in
    let bcon1l := (b1 + bcon0l * u1l) / u0l in
    let bcon2l := (b2l + bcon0l * u2l) / u0l in
    let bcon3l := (b3l + bcon0l * u3l) / u0l in
    let bcon0r :=
      g11*b1*u1r + g12*(b1*u2r+b2r*u1r) + g22*b2r*u2r + g33*b3r*u3r in
    let bcon1r := (b1 + bcon0r * u1r) / u0r in
    let bcon2r := (b2r + bcon0r * u2r) / u0r in
    let bcon3r := (b3r + bcon0r * u3r) / u0r in
    (* Transform contravariant magnetic fields *)
    let bcontl := mt0*bcon0l in
    let bconxl := mx1*bcon1l in
    let bconyl := my2*bcon2l in
    let bconzl := mz3*bcon3l in
    let bcontr := mt0*bcon0r in
    let bconxr := mx1*bcon1r in
    let bconyr := my2*bcon2r in
    let bconzr := mz3*bcon3r in
    (* Set local magnetic fields *)
    let bxl := utl * bconxl - uxl * bcontl in
    let bxr := utr * bconxr - uxr * bcontr in
    let bx := set1 bx i (0.5 * (bxl + bxr)) in
    let prim_left := setv prim_left IBY i (utl * bconyl - uyl * bcontl) in
    let prim_left := setv prim_left IBZ i (utl * bconzl - uzl * bcontl) in
    let prim_right := setv prim_right IBY i (utr * bconyr - uyr * bcontr) in
    let prim_right := setv prim_right IBZ i (utr * bconzr - uzr * bcontr) in
    (prim_left, prim_right, bx)
  else
    (prim_left, prim_right, bx).

(** [PrimToLocal1]: primitives to the locally flat frame, x-interface. *)
Definition PrimToLocal1 (k j : Z) (b1_vals : Array3)
    (prim_left prim_right : Array2 VarIndex) (bx : Array1) : LocalArrays :=
  for_loop (is_ (pmy_block this)) (ie (pmy_block this) + 1)
    (PrimToLocal1_body k j b1_vals) (prim_left, prim_right, bx).

(** One pass of the loop of [PrimToLocal2], at the interface [i]. *)
Definition PrimToLocal2_body (k j : Z) (b2_vals : Array3) (i : Z)
    (s : LocalArrays) : LocalArrays :=
  let '(prim_left, prim_right, by_) := s in
  (* Extract geometric quantities *)
  let g00 := -1.0 in
  let g11 := metric_face2_i1_ this i in
  let g12 := - metric_face2_i2_ this i in
  let g22 := 1.0 in
  let g33 := 1.0 in
  let mt0 := 1.0 in
  let mx2 := 1.0 / trans_face2_i1_ this i in
  let my3 := 1.0 in
  let mz1 := trans_face2_i1_ this i in
  let mz2 := - trans_face2_i2_ this i / trans_face2_i1_ this i in
  (* Extract global 3-velocities *)
  let v1l := prim_left IVX i in
  let v2l := prim_left IVY i in
  let v3l := prim_left IVZ i in
  let v1r := prim_right IVX i in
  let v2r := prim_right IVY i in
  let v3r := prim_right IVZ i in
  (* Construct global 4-velocities *)
  let u0l := sqrt (-1.0 /
      (g00 + g11*v1l*v1l + 2.0*g12*v1l*v2l + g22*v2l*v2l + g33*v3l*v3l)) in
  let u1l := u0l * v1l in
  let u2l := u0l * v2l in
  let u3l := u0l * v3l in
  let u0r := sqrt (-1.0 /
      (g00 + g11*v1r*v1r + 2.0*g12*v1r*v2r + g22*v2r*v2r + g33*v3r*v3r)) in
  let u1r := u0r * v1r in
  let u2r := u0r * v2r in
  let u3r := u0r * v3r in
  (* Transform 4-velocities *)
  let utl := mt0*u0l in
  let uxl := mx2*u2l in
  let uyl := my3*u3l in
  let uzl := mz1*u1l + mz2*u2l in
  let utr := mt0*u0r in
  let uxr := mx2*u2r in
  let uyr := my3*u3r in
  let uzr := mz1*u1r + mz2*u2r in
  (* Set local 3-velocities *)
  let prim_left := setv prim_left IVY i (uxl / utl) in
  let prim_left := setv prim_left IVZ i (uyl / utl) in
  let prim_left := setv prim_left IVX i (uzl / utl) in
  let prim_right := setv prim_right IVY i (uxr / utr) in
  let prim_right := setv prim_right IVZ i (uyr / utr) in
  let prim_right := setv prim_right IVX i (uzr / utr) in
  (* Transform magnetic field if necessary *)
  if MAGNETIC_FIELDS_ENABLED then
    (* Extract global magnetic fields *)
    let b2 := b2_vals k j i in
    let b3l := prim_left IBY i in
    let b1l := prim_left IBZ i in
    let b3r := prim_right IBY i in
    let b1r := prim_right IBZ i in
    (* Construct global contravariant magnetic fields *)
    let bcon0l :=
      g11*b1l*u1l + g12*(b1l*u2l+b2*u1l) + g22*b2*u2l + g33*b3l*u3l in
    let bcon1l := (b1l + bcon0l * u1l) / u0l in
    let bcon2l := (b2 + bcon0l * u2l) / u0l in
    let bcon3l := (b3l + bcon0l * u3l) / u0l in
    let bcon0r :=
      g11*b1r*u1r + g12*(b1r*u2r+b2*u1r) + g22*b2*u2r + g33*b3r*u3r in
    let bcon1r := (b1r + bcon0r * u1r) / u0r in
    let bcon2r := (b2 + bcon0r * u2r) / u0r in
    let bcon3r := (b3r + bcon0r * u3r) / u0r in
    (* Transform contravariant magnetic fields *)
    let bcontl := mt0*bcon0l in
    let bconxl := mx2*bcon2l in
    let bconyl := my3*bcon3l in
    let bconzl := mz1*bcon1l + mz2*bcon2l in
    let bcontr := mt0*bcon0r in
    let bconxr := mx2*bcon2r in
    let bconyr := my3*bcon3r in
    let bconzr := mz1*bcon1r + mz2*bcon2r in
    (* Set local magnetic fields *)
    let byl := utl * bconyl - uyl * bcontl in
    let byr := utr * bconyr - uyr * bcontr in
    let by_ := set1 by_ i (0.5 * (byl + byr)) in
    let prim_left := setv prim_left IBY i (utl * bconzl - uzl * bcontl) in
    let prim_left := setv prim_left IBZ i (utl * bconxl - uxl * bcontl) in
    let prim_right := setv prim_right IBY i (utr * bconzr - uzr * bcontr) in
    let prim_right := setv prim_right IBZ i (utr * bconxr - uxr * bcontr) in
    (prim_left, prim_right, by_)
  else
    (prim_left, prim_right, by_).

(** [PrimToLocal2]: primitives to the locally flat frame, y-interface. *)
Definition PrimToLocal2 (k j : Z) (b2_vals : Array3)
    (prim_left prim_right : Array2 VarIndex) (by_ : Array1) : LocalArrays :=
  for_loop (is_ (pmy_block this)) (ie (pmy_block this))
    (PrimToLocal2_body k j b2_vals) (prim_left, prim_right, by_).

(** One pass of the loop of [PrimToLocal3], at the interface [i]. *)
Definition PrimToLocal3_body (k j : Z) (b3_vals : Array3) (i : Z)
    (s : LocalArrays) : LocalArrays :=
  let '(prim_left, prim_right, bz) := s in
  (* Extract geometric quantities *)
  let g00 := -1.0 in
  let g11 := metric_face3_i1_ this i in
  let g12 := - metric_face3_i2_ this i in
  let g22 := 1.0 in
  let g33 := 1.0 in
  let mt0 := 1.0 in
  let mx3 := 1.0 in
  let my1 := 1.0 in
  let mz1 := - trans_face3_i2_ this i in
  let mz2 := 1.0 in
  (* Extract global 3-velocities *)
  let v1l := prim_left IVX i in
  let v2l := prim_left IVY i in
  let v3l := prim_left IVZ i in
  let v1r := prim_right IVX i in
  let v2r := prim_right IVY i in
  let v3r := prim_right IVZ i in
  (* Construct global 4-velocities *)
  let u0l := sqrt (-1.0 /
      (g00 + g11*v1l*v1l + 2.0*g12*v1l*v2l + g22*v2l*v2l + g33*v3l*v3l)) in
  let u1l := u0l * v1l in
  let u2l := u0l * v2l in
  let u3l := u0l * v3l in
  let u0r := sqrt (-1.0 /
      (g00 + g11*v1r*v1r + 2.0*g12*v1r*v2r + g22*v2r*v2r + g33*v3r*v3r)) in
  let u1r := u0r * v1r in
  let u2r := u0r * v2r in
  let u3r := u0r * v3r in
  (* Transform 4-velocities *)
  let utl := mt0*u0l in
  let uxl := mx3*u3l in
  let uyl := my1*u1l in
  let uzl := mz1*u1l + mz2*u2l in
  let utr := mt0*u0r in
  let uxr := mx3*u3r in
  let uyr := my1*u1r in
  let uzr := mz1*u1r + mz2*u2r in
  (* Set local 3-velocities *)
  let prim_left := setv prim_left IVZ i (uxl / utl) in
  let prim_left := setv prim_left IVX i (uyl / utl) in
  let prim_left := setv prim_left IVY i (uzl / utl) in
  let prim_right := setv prim_right IVZ i (uxr / utr) in
  let prim_right := setv prim_right IVX i (uyr / utr) in
  let prim_right := setv prim_right IVY i (uzr / utr) in
  (* Transform magnetic field if necessary *)
  if MAGNETIC_FIELDS_ENABLED then
    (* Extract global magnetic fields *)
    let b3 := b3_vals k j i in
    let b1l := prim_left IBY i in
    let b2l := prim_left IBZ i in
    let b1r := prim_right IBY i in
    let b2r := prim_right IBZ i in
    (* Construct global contravariant magnetic fields *)
    let bcon0l :=
      g11*b1l*u1l + g12*(b1l*u2l+b2l*u1l) + g22*b2l*u2l + g33*b3*u3l in
    let bcon1l := (b1l + bcon0l * u1l) / u0l in
    let bcon2l := (b2l + bcon0l * u2l) / u0l in
    let bcon3l := (b3 + bcon0l * u3l) / u0l in
    let bcon0r :=
      g11*b1r*u1r + g12*(b1r*u2r+b2r*u1r) + g22*b2r*u2r + g33*b3*u3r in
    let bcon1r := (b1r + bcon0r * u1r) / u0r in
    let bcon2r := (b2r + bcon0r * u2r) / u0r in
    let bcon3r := (b3 + bcon0r * u3r) / u0r in
    (* Transform contravariant magnetic fields *)
    let bcontl := mt0*bcon0l in
    let bconxl := mx3*bcon3l in
    let bconyl := my1*bcon1l in
    let bconzl := mz1*bcon1l + mz2*bcon2l in
    let bcontr := mt0*bcon0r in
    let bconxr := mx3*bcon3r in
    let bconyr := my1*bcon1r in
    let bconzr := mz1*bcon1r + mz2*bcon2r in
    (* Set local magnetic fields *)
    let bzl := utl * bconzl - uzl * bcontl in
    let bzr := utr * bconzr - uzr * bcontr in
    let bz := set1 bz i (0.5 * (bzl + bzr)) in
    let prim_left := setv prim_left IBY i (utl * bconxl - uxl * bcontl) in
    let prim_left := setv prim_left IBZ i (utl * bconyl - uyl * bcontl) in
    let prim_right := setv prim_right IBY i (utr * bconyr - uyr * bcontr) in
    let prim_right := setv prim_right IBZ i (utr * bconzr - uzr * bcontr) in
    (prim_left, prim_right, bz)
  else
    (prim_left, prim_right, bz).

(** [PrimToLocal3]: primitives to the locally flat frame, z-interface. *)
Definition PrimToLocal3 (k j : Z) (b3_vals : Array3)
    (prim_left prim_right : Array2 VarIndex) (bz : Array1) : LocalArrays :=
  for_loop (is_ (pmy_block this)) (ie (pmy_block this))
    (PrimToLocal3_body k j b3_vals) (prim_left, prim_right, bz).

(** *** Fluxes to the global frame *)

(** One pass of the loop of [FluxToGlobal1], at the interface [i]. *)
Definition FluxToGlobal1_body (k j : Z) (i : Z) (flux : Array2 VarIndex)
  : Array2 VarIndex :=
  (* Extract geometric quantities *)
  let g00 := -1.0 in
  let g11 := metric_face1_i1_ this i in
  let g12 := - metric_face1_i2_ this i in
  let g22 := 1.0 in
  let g33 := 1.0 in
  let m0t := 1.0 in
  let m1x := 1.0 in
  let m2x := trans_face1_i2_ this i in
  let m2y := 1.0 in
  let m3z := 1.0 in
  (* Extract local conserved quantities and fluxes *)
  let dx := flux IDN i in
  let txt := flux IEN i in
  let txx := flux IM1 i in
  let txy := flux IM2 i in
  let txz := flux IM3 i in
  (* Transform stress-energy tensor *)
  let tcon_10 := m1x * m0t * txt in
  let tcon_11 := m1x * m1x * txx in
  let tcon_12 := m1x * (m2x * txx + m2y * txy) in
  let tcon_13 := m1x * m3z * txz in
  (* Set fluxes *)
  let flux := setv flux IDN i (m1x*dx) in
  let flux := setv flux IEN i (g00*tcon_10) in
  let flux := setv flux IM1 i (g11*tcon_11 + g12*tcon_12) in
  let flux := setv flux IM2 i (g12*tcon_11 + g22*tcon_12) in
  let flux := setv flux IM3 i (g33*tcon_13) in
  (* Transform magnetic fluxes if necessary *)
  if MAGNETIC_FIELDS_ENABLED then
    let fyx := flux IBY i in
    let fzx := flux IBZ i in
    let flux := setv flux IBY i (m1x * m2y * fyx) in
    let flux := setv flux IBZ i (m1x * m3z * fzx) in
    flux
  else
    flux.

(** [FluxToGlobal1]: fluxes to the global frame, x-interface. *)
Definition FluxToGlobal1 (k j : Z) (flux : Array2 VarIndex)
  : Array2 VarIndex :=
  for_loop (is_ (pmy_block this)) (ie (pmy_block this) + 1)
    (FluxToGlobal1_body k j) flux.

(** One pass of the loop of [FluxToGlobal2], at the interface [i]. *)
Definition FluxToGlobal2_body (k j : Z) (i : Z) (flux : Array2 VarIndex)
  : Array2 VarIndex :=
  (* Extract geometric quantities *)
  let g00 := -1.0 in
  let g11 := metric_face2_i1_ this i in
  let g12 := - metric_face2_i2_ this i in
  let g22 := 1.0 in
  let g33 := 1.0 in
  let m0t := 1.0 in
  let m1x := trans_face2_i2_ this i / trans_face2_i1_ this i in
  let m1z := 1.0 / trans_face2_i1_ this i in
  let m2x := trans_face2_i1_ this i in
  let m3y := 1.0 in
  (* Extract local conserved quantities and fluxes *)
  let dx := flux IDN i in
  let txt := flux IEN i in
  let txx := flux IM2 i in
  let txy := flux IM3 i in
  let txz := flux IM1 i in
  (* Transform stress-energy tensor *)
  let tcon_20 := m2x * m0t * txt in
  let tcon_21 := m2x * (m1x * txx + m1z * txz) in
  let tcon_22 := m2x * m2x * txx in
  let tcon_23 := m2x * m3y * txy in
  (* Set fluxes *)
  let flux := setv flux IDN i (m2x*dx) in
  let flux := setv flux IEN i (g00*tcon_20) in
  let flux := setv flux IM1 i (g11*tcon_21 + g12*tcon_22) in
  let flux := setv flux IM2 i (g12*tcon_21 + g22*tcon_22) in
  let flux := setv flux IM3 i (g33*tcon_23) in
  (* Transform magnetic fluxes if necessary *)
  if MAGNETIC_FIELDS_ENABLED then
    let fyx := flux IBY i in
    let fzx := flux IBZ i in
    let flux := setv flux IBY i (m3y * m2x * fyx) in
    let flux := setv flux IBZ i (m2x * m1z * fzx) in
    flux
  else
    flux.

(** [FluxToGlobal2]: fluxes to the global frame, y-interface. *)
Definition FluxToGlobal2 (k j : Z) (flux : Array2 VarIndex)
  : Array2 VarIndex :=
  for_loop (is_ (pmy_block this)) (ie (pmy_block this))
    (FluxToGlobal2_body k j) flux.

(** One pass of the loop of [FluxToGlobal3], at the interface [i]. *)
Definition FluxToGlobal3_body (k j : Z) (i : Z) (flux : Array2 VarIndex)
  : Array2 VarIndex :=
  (* Extract geometric quantities *)
  let g00 := -1.0 in
  let g11 := metric_face3_i1_ this i in
  let g12 := - metric_face3_i2_ this i in
  let g22 := 1.0 in
  let g33 := 1.0 in
  let m0t := 1.0 in
  let m1y := 1.0 in
  let m2y := trans_face3_i2_ this i in
  let m2z := 1.0 in
  let m3x := 1.0 in
  (* Extract local conserved quantities and fluxes *)
  let dx := flux IDN i in
  let txt := flux IEN i in
  let txx := flux IM3 i in
  let txy := flux IM1 i in
  let txz := flux IM2 i in
  (* Transform stress-energy tensor *)
  let tcon_30 := m3x * m0t * txt in
  let tcon_31 := m3x * m1y * txy in
  let tcon_32 := m3x * (m2y * txy + m2z * txz) in
  let tcon_33 := m3x * m3x * txx in
  (* Set fluxes *)
  let flux := setv flux IDN i (m3x*dx) in
  let flux := setv flux IEN i (g00*tcon_30) in
  let flux := setv flux IM1 i (g11*tcon_31 + g12*tcon_32) in
  let flux := setv flux IM2 i (g12*tcon_31 + g22*tcon_32) in
  let flux := setv flux IM3 i (g33*tcon_33) in
  (* Transform magnetic fluxes if necessary *)
  if MAGNETIC_FIELDS_ENABLED then
    let fyx := flux IBY i in
    let fzx := flux IBZ i in
    let flux := setv flux IBY i (m1y * m3x * fyx) in
    let flux := setv flux IBZ i (m3x * (m2y * fyx + m2z * fzx)) in
    flux
  else
    flux.

(** [FluxToGlobal3]: fluxes to the global frame, z-interface. *)
Definition FluxToGlobal3 (k j : Z) (flux : Array2 VarIndex)
  : Array2 VarIndex :=
  for_loop (is_ (pmy_block this)) (ie (pmy_block this))
    (FluxToGlobal3_body k j) flux.

End Members.

(** ** Vocabulary of the specification *)

(** The two scalars of the metric at the position [x] of a chart with
    amplitude [a] and wavenumber [k]. *)
Definition alphaSquared (a k x : Real) : Real :=
  1 + a * a * (k * k) * (cos (k * x) * cos (k * x)).

Definition beta (a k x : Real) : Real := a * k * cos (k * x).

(** The indices the constructor fills. *)
Definition in_block (NGHOST : Z) (pb : MeshBlock) (i : Z) : Prop :=
  (is_ pb - NGHOST <= i <= ie pb + NGHOST)%Z.

(** Interior cells. *)
Definition interior (pb : MeshBlock) (k j i : Z) : Prop :=
  (ks pb <= k <= ke pb)%Z /\ (js pb <= j <= je pb)%Z /\
  (is_ pb <= i <= ie pb)%Z.

Definition interiorb (pb : MeshBlock) (k j i : Z) : bool :=
  (ks pb <=? k)%Z && (k <=? ke pb)%Z && (js pb <=? j)%Z && (j <=? je pb)%Z
  && (is_ pb <=? i)%Z && (i <=? ie pb)%Z.

(** *** Matrices of metric components *)

Definition Matrix : Type := list (list Real).

(** The symmetric 4x4 matrix with the five components [I00], [I11], [I12],
    [I22], [I33] of the column [i] of an array of metric components, and
    zeros elsewhere. *)
Definition matrix_of_components (g : Array2 MetricIndex) (i : Z) : Matrix :=
  [ [ g I00 i; 0;       0;       0       ];
    [ 0;       g I11 i; g I12 i; 0       ];
    [ 0;       g I12 i; g I22 i; 0       ];
    [ 0;       0;       0;       g I33 i ] ].

Definition dot_product (u v : list Real) : Real :=
  fold_right Rplus 0 (map (fun p => fst p * snd p) (combine u v)).

Definition matrix_column (m : Matrix) (c : nat) : list Real :=
  map (fun row => nth c row 0) m.

Definition matrix_mult (a b : Matrix) : Matrix :=
  map (fun row => map (fun c => dot_product row (matrix_column b c))
                    (seq 0 4)) a.

Definition identity_matrix : Matrix :=
  [ [1; 0; 0; 0]; [0; 1; 0; 0]; [0; 0; 1; 0]; [0; 0; 0; 1] ].

(** The ten assignments each of the four metric functions makes at the
    index [i], from the two geometric quantities stored for that place. *)
Definition set_metric_terms (alpha_sq beta_ : Real) (i : Z)
    (gs : Array2 MetricIndex * Array2 MetricIndex)
  : Array2 MetricIndex * Array2 MetricIndex :=
  let '(g, g_inv) := gs in
  let g := setm g I00 i (-1.0) in
  let g := setm g I11 i alpha_sq in
  let g := setm g I12 i (- beta_) in
  let g := setm g I22 i 1.0 in
  let g := setm g I33 i 1.0 in
  let g_inv := setm g_inv I00 i (-1.0) in
  let g_inv := setm g_inv I11 i 1.0 in
  let g_inv := setm g_inv I12 i beta_ in
  let g_inv := setm g_inv I22 i alpha_sq in
  let g_inv := setm g_inv I33 i 1.0 in
  (g, g_inv).

(** The four places at which metric components are provided. *)
Inductive MetricLocation : Type := AtCell | AtFace1 | AtFace2 | AtFace3.

Definition metric_at (NGHOST : Z) (this : Coordinates) (loc : MetricLocation)
    (k j : Z) (g g_inv : Array2 MetricIndex)
  : Array2 MetricIndex * Array2 MetricIndex :=
  match loc with
  | AtCell => CellMetric NGHOST this k j g g_inv
  | AtFace1 => Face1Metric this k j g g_inv
  | AtFace2 => Face2Metric this k j g g_inv
  | AtFace3 => Face3Metric this k j g g_inv
  end.

(** The indices a metric function writes. *)
Definition metric_range (NGHOST : Z) (pb : MeshBlock) (loc : MetricLocation)
    (i : Z) : Prop :=
  match loc with
  | AtCell => (is_ pb - NGHOST <= i <= ie pb + NGHOST)%Z
  | AtFace1 => (is_ pb <= i <= ie pb + 1)%Z
  | AtFace2 | AtFace3 => (is_ pb <= i <= ie pb)%Z
  end.

(** *** The source term as the specification words it *)

(** The increment of the x1-momentum in a cell where the metric scalars are
    [alpha_sq] and [beta_]: the covariant components are those of the metric
    functions, with [g12 = - beta_]. *)
Definition spec_momentum1_increment (dt gamma_adi sourceCoeff : Real)
    (alpha_sq beta_ : Real) (rho pgas v1 v2 v3 : Real) : Real :=
  let g00 := -1 in
  let g11 := alpha_sq in
  let g12 := - beta_ in
  let g22 := 1 in
  let g33 := 1 in
  let u0 :=
    sqrt (-1 / (g00 + g11*v1*v1 + 2*g12*v1*v2 + g22*v2*v2 + g33*v3*v3)) in
  let u1 := u0 * v1 in
  let u2 := u0 * v2 in
  let u_2 := g12*u1 + g22*u2 in
  let rho_h := rho + (gamma_adi / (gamma_adi - 1)) * pgas in
  dt * sourceCoeff * (rho_h * u1 * u_2).

(** *** Fluxes of a fluid state *)

Inductive Direction : Type := X1 | X2 | X3.

(** Modelled from the spec: the Riemann solver, which turns primitives in the
    locally flat frame into fluxes, is not among the sources.  This is the
    flux along the local x-direction of a perfect fluid without magnetic
    field, in the flat metric: density flux, energy flux and the three
    momentum fluxes of the stress-energy tensor [rho_h u u + pgas eta], for
    [rho_h = rho + gamma/(gamma-1) pgas].  The local x, y and z components
    live in the slots [ivx], [ivy], [ivz]. *)
Definition local_flux (gamma_adi_red : Real) (ivx ivy ivz : VarIndex)
    (prim : Array2 VarIndex) : Array2 VarIndex :=
  fun n i =>
    let rho := prim IDN i in
    let pgas := prim IEN i in
    let vx := prim ivx i in
    let vy := prim ivy i in
    let vz := prim ivz i in
    let ut := sqrt (-1 / (-1 + vx*vx + vy*vy + vz*vz)) in
    let ux := ut * vx in
    let uy := ut * vy in
    let uz := ut * vz in
    let rho_h := rho + gamma_adi_red * pgas in
    if VarIndex_eqb n IDN then rho * ux
    else if VarIndex_eqb n IEN then rho_h * ux * ut
    else if VarIndex_eqb n ivx then rho_h * ux * ux + pgas
    else if VarIndex_eqb n ivy then rho_h * ux * uy
    else if VarIndex_eqb n ivz then rho_h * ux * uz
    else 0.

(** Modelled from the spec: the flux of the same fluid along the direction
    [d] of the chart, from primitives in global coordinates and the metric
    scalars [metric_i1], [metric_i2] of the interface: density flux
    [rho u^d] and the mixed components [T^d_0], [T^d_1], [T^d_2], [T^d_3] of
    the stress-energy tensor, indices lowered with the covariant metric. *)
Definition global_flux (gamma_adi_red : Real) (d : Direction)
    (metric_i1 metric_i2 : Array1) (prim : Array2 VarIndex)
  : Array2 VarIndex :=
  fun n i =>
    let g00 := -1 in
    let g11 := metric_i1 i in
    let g12 := - metric_i2 i in
    let g22 := 1 in
    let g33 := 1 in
    let rho := prim IDN i in
    let pgas := prim IEN i in
    let v1 := prim IVX i in
    let v2 := prim IVY i in
    let v3 := prim IVZ i in
    let u0 :=
      sqrt (-1 / (g00 + g11*v1*v1 + 2*g12*v1*v2 + g22*v2*v2 + g33*v3*v3)) in
    let u1 := u0 * v1 in
    let u2 := u0 * v2 in
    let u3 := u0 * v3 in
    let u_0 := g00 * u0 in
    let u_1 := g11 * u1 + g12 * u2 in
    let u_2 := g12 * u1 + g22 * u2 in
    let u_3 := g33 * u3 in
    let ud := match d with X1 => u1 | X2 => u2 | X3 => u3 end in
    let rho_h := rho + gamma_adi_red * pgas in
    match n with
    | IDN => rho * ud
    | IEN => rho_h * ud * u_0
    | IM1 => rho_h * ud * u_1 + match d with X1 => pgas | _ => 0 end
    | IM2 => rho_h * ud * u_2 + match d with X2 => pgas | _ => 0 end
    | IM3 => rho_h * ud * u_3 + match d with X3 => pgas | _ => 0 end
    | IBY | IBZ => 0
    end.

(** The bracket of the normalization of the four-velocity; a state is
    subluminal when it is negative. *)
Definition norm_bracket (alpha_sq beta_ v1 v2 v3 : Real) : Real :=
  -1 + alpha_sq*v1*v1 + 2*(- beta_)*v1*v2 + v2*v2 + v3*v3.

(** Forward transform of one state (given as left and as right state) without
    magnetic field, local flux, reverse transform. *)
Definition round_trip (this : Coordinates) (gamma_adi_red : Real)
    (d : Direction) (k j : Z) (prim : Array2 VarIndex) : Array2 VarIndex :=
  let no_b : Array3 := fun _ _ _ => 0 in
  let no_bn : Array1 := fun _ => 0 in
  match d with
  | X1 =>
      let local := fst (fst (PrimToLocal1 false this k j no_b prim prim no_bn)) in
      FluxToGlobal1 false this k j (local_flux gamma_adi_red IVX IVY IVZ local)
  | X2 =>
      let local := fst (fst (PrimToLocal2 false this k j no_b prim prim no_bn)) in
      FluxToGlobal2 false this k j (local_flux gamma_adi_red IVY IVZ IVX local)
  | X3 =>
      let local := fst (fst (PrimToLocal3 false this k j no_b prim prim no_bn)) in
      FluxToGlobal3 false this k j (local_flux gamma_adi_red IVZ IVX IVY local)
  end.

(** The interfaces a direction's transforms go through. *)
Definition interface_range (pb : MeshBlock) (d : Direction) (i : Z) : Prop :=
  match d with
  | X1 => (is_ pb <= i <= ie pb + 1)%Z
  | X2 | X3 => (is_ pb <= i <= ie pb)%Z
  end.

(** ** Concrete blocks and states *)

(** A block of one cell with two ghost cells on each side in x: the cell 2
    lies between the faces [x1f 2] and [x1f 3]; faces are [h] apart from
    [x0] on, the other two directions have unit spacing. *)
Definition uniform_block (x0 h gamma_adi : Real) : MeshBlock :=
  mkMeshBlock 2 2 0 0 0 0 (mkRegionSize 1 1 1)
    (fun i => x0 + IZR (i - 2) * h) (fun j => IZR j) (fun k => IZR k)
    (fun _ => h) (fun _ => 1) (fun _ => 1)
    (fun _ => 0) (fun _ => 0) (fun _ => 0)
    (fun _ => 0) (fun _ => 0) (fun _ => 0)
    (mkFluid (mkFluidEqnOfState gamma_adi)).

(** The cell 2 of this block reaches from [K x = 0] to [K x = 2 PI / 3]. *)
Definition third_block : MeshBlock := uniform_block 0 (20 * PI / 3) 2.

(** The face 2 of this block is at [K x = PI / 2]. *)
Definition node_block : MeshBlock := uniform_block (5 * PI) 1 2.

(** The same value of every variable in every cell but for the given
    density, pressure and velocities. *)
Definition uniform_state (rho pgas v1 v2 v3 : Real) : Array4 VarIndex :=
  fun n _ _ _ =>
    match n with
    | IDN => rho | IEN => pgas | IM1 => v1 | IM2 => v2 | IM3 => v3
    | IBY | IBZ => 0
    end.

Definition uniform_row (rho pgas v1 v2 v3 b_y b_z : Real) : Array2 VarIndex :=
  fun n _ =>
    match n with
    | IDN => rho | IEN => pgas | IM1 => v1 | IM2 => v2 | IM3 => v3
    | IBY => b_y | IBZ => b_z
    end.

(** The fields of a block that the constructor reads but does not write. *)
Definition same_grid (pb pb' : MeshBlock) : Prop :=
  is_ pb' = is_ pb /\ ie pb' = ie pb /\ js pb' = js pb /\ je pb' = je pb /\
  ks pb' = ks pb /\ ke pb' = ke pb /\ block_size pb' = block_size pb /\
  x1f pb' = x1f pb /\ x2f pb' = x2f pb /\ x3f pb' = x3f pb /\
  dx1f pb' = dx1f pb /\ dx2f pb' = dx2f pb /\ dx3f pb' = dx3f pb /\
  pfluid pb' = pfluid pb.


(** What a call of [CoordinateSourceTerms] adds to the x1-momentum of the
    cell [(k,j,i)]: the value its pass for that cell writes over a momentum
    of zero. *)
Definition source_increment (this : Coordinates) (dt : Real)
    (prim : Array4 VarIndex) (k j i : Z) : Real :=
  let gamma_adi := GetGamma (pf_eos (pfluid (pmy_block this))) in
  let gamma_adi_red := gamma_adi / (gamma_adi - 1.0) in
  source_terms_body this dt gamma_adi_red prim k j i (fun _ _ _ _ => 0)
    IM1 k j i.

(** The entries of the arrays of a [PrimToLocal] function at one interface:
    a variable of the left state, a variable of the right state, or the
    normal magnetic field. *)
Inductive LocalSlot : Type :=
| LeftSlot (n : VarIndex)
| RightSlot (n : VarIndex)
| NormalSlot.

Definition local_get (s : LocalArrays) (x : LocalSlot) (i : Z) : Real :=
  match x with
  | LeftSlot n => fst (fst s) n i
  | RightSlot n => snd (fst s) n i
  | NormalSlot => snd s i
  end.

(** The time component of the four-velocity of the three-velocity
    [(v1,v2,v3)] in the metric with the covariant components [g11], [g12]
    (and [g00 = -1], [g22 = g33 = 1]). *)
Definition four_velocity0 (g11 g12 v1 v2 v3 : Real) : Real :=
  sqrt (-1 / (-1 + g11*v1*v1 + 2*g12*v1*v2 + v2*v2 + v3*v3)).

(** ** Further functions and dispatchers *)

Section Distance.

(** The parameters of the chart, as in [Section Constructor]. *)
Variables A K : Real.

(** [DistanceBetweenPoints]: distance between the point with global
    coordinates [(a1,a2,a3)] and the point with Minkowski coordinates
    [(bx,by,bz)]. *)
Definition DistanceBetweenPoints (a1 a2 a3 bx by_ bz : Real) : Real :=
  let ax := a1 in
  let ay := a2 - A * sin (K * a1) in
  let az := a3 in
  sqrt (SQR (ax-bx) + SQR (ay-by_) + SQR (az-bz)).

End Distance.

(** The [PrimToLocal] function of a direction. *)
Definition prim_to_local (d : Direction) (mag : bool) (this : Coordinates)
    (k j : Z) (b_vals : Array3) (prim_left prim_right : Array2 VarIndex)
    (bn : Array1) : LocalArrays :=
  match d with
  | X1 => PrimToLocal1 mag this k j b_vals prim_left prim_right bn
  | X2 => PrimToLocal2 mag this k j b_vals prim_left prim_right bn
  | X3 => PrimToLocal3 mag this k j b_vals prim_left prim_right bn
  end.

(** The [FluxToGlobal] function of a direction. *)
Definition flux_to_global (d : Direction) (mag : bool) (this : Coordinates)
    (k j : Z) (flux : Array2 VarIndex) : Array2 VarIndex :=
  match d with
  | X1 => FluxToGlobal1 mag this k j flux
  | X2 => FluxToGlobal2 mag this k j flux
  | X3 => FluxToGlobal3 mag this k j flux
  end.

(** The metric components a metric function writes. *)
Definition written_component (n : MetricIndex) : bool :=
  match n with
  | I00 | I11 | I12 | I22 | I33 => true
  | I01 | I02 | I03 | I13 | I23 => false
  end.

(** The two arrays of geometric quantities a metric function reads. *)
Definition metric_pair_i1 (this : Coordinates) (loc : MetricLocation)
  : Array1 :=
  match loc with
  | AtCell => metric_cell_i1_ this
  | AtFace1 => metric_face1_i1_ this
  | AtFace2 => metric_face2_i1_ this
  | AtFace3 => metric_face3_i1_ this
  end.

Definition metric_pair_i2 (this : Coordinates) (loc : MetricLocation)
  : Array1 :=
  match loc with
  | AtCell => metric_cell_i2_ this
  | AtFace1 => metric_face1_i2_ this
  | AtFace2 => metric_face2_i2_ this
  | AtFace3 => metric_face3_i2_ this
  end.

(** The bounds of the loop of a metric function. *)
Definition metric_lo (NGHOST : Z) (pb : MeshBlock) (loc : MetricLocation) : Z :=
  match loc with
  | AtCell => (is_ pb - NGHOST)%Z
  | AtFace1 | AtFace2 | AtFace3 => is_ pb
  end.

Definition metric_hi (NGHOST : Z) (pb : MeshBlock) (loc : MetricLocation) : Z :=
  match loc with
  | AtCell => (ie pb + NGHOST)%Z
  | AtFace1 => (ie pb + 1)%Z
  | AtFace2 | AtFace3 => ie pb
  end.

(** Whether a [PrimToLocal] function writes the slot [x] at an interface of
    its range: the velocities of both states always; the transverse fields
    of both states and the normal field only with magnetic fields. *)
Definition local_slot_written (mag : bool) (x : LocalSlot) : bool :=
  match x with
  | LeftSlot n | RightSlot n =>
      match n with
      | IM1 | IM2 | IM3 => true
      | IBY | IBZ => mag
      | IDN | IEN => false
      end
  | NormalSlot => mag
  end.

(** The number by which [CoordinateSourceTerms] divides [-1.0] at the cell
    [(k,j,i)], before it takes the square root. *)
Definition source_norm (this : Coordinates) (prim : Array4 VarIndex)
    (k j i : Z) : Real :=
  let g00 := -1.0 in
  let g11 := metric_cell_i1_ this i in
  let g12 := metric_cell_i2_ this i in
  let g22 := 1.0 in
  let g33 := 1.0 in
  let v1 := prim IVX k j i in
  let v2 := prim IVY k j i in
  let v3 := prim IVZ k j i in
  g00 + g11*v1*v1 + 2.0*g12*v1*v2 + g22*v2*v2 + g33*v3*v3.

(** The cells at which the arithmetic of [CoordinateSourceTerms] is defined:
    the ratio of specific heats is not 1, so that the function does not
    divide by [gamma_adi - 1.0 = 0], and the state is subluminal for the
    function, so that it takes the square root of a positive number.  At any
    other cell the C++ function computes with infinities or NaN, which the
    real numbers of this development do not have. *)
Definition source_defined (this : Coordinates) (prim : Array4 VarIndex)
    (k j i : Z) : Prop :=
  GetGamma (pf_eos (pfluid (pmy_block this))) <> 1.0 /\
  source_norm this prim k j i < 0.

(** The cell 2 of this block is one period of the chart of [globals] wide:
    it reaches from [K x = 0] to [K x = 2 PI]. *)
Definition period_block : MeshBlock := uniform_block 0 (20 * PI) 2.

(** * Properties *)

(** ** Decimal constants of the source *)

Lemma lit_1_0 : 1.0 = 1.
Proof. lra. Qed.

Lemma lit_m1_0 : -1.0 = -1.
Proof. lra. Qed.

Lemma lit_2_0 : 2.0 = 2.
Proof. lra. Qed.

Lemma lit_4_0 : 4.0 = 4.
Proof. lra. Qed.

Lemma lit_0_5 : 0.5 = / 2.
Proof. lra. Qed.

Lemma lit_10_0 : 10.0 = 10.
Proof. lra. Qed.

Lemma lit_0_1 : 0.1 = / 10.
Proof. lra. Qed.

Create Rewrite HintDb literals.
#[local] Hint Rewrite
  lit_1_0 lit_m1_0 lit_2_0 lit_4_0 lit_0_5 lit_10_0 lit_0_1 : literals.

(** ** Loops *)

Lemma for_steps_preserves {S : Type} (P : S -> Prop) (body : Z -> S -> S) :
  (forall i s, P s -> P (body i s)) ->
  forall n i s, P s -> P (for_steps n i body s).
Proof.
  intros Hbody n; induction n as [|n IH]; intros i s Hs; simpl.
  - exact Hs.
  - apply IH, Hbody, Hs.
Qed.

Lemma for_loop_preserves {S : Type} (P : S -> Prop) (body : Z -> S -> S) :
  (forall i s, P s -> P (body i s)) ->
  forall lo hi s, P s -> P (for_loop lo hi body s).
Proof.
  intros Hbody lo hi s Hs. unfold for_loop.
  now apply for_steps_preserves.
Qed.

(** A loop whose pass [i] rewrites the column [i] of the state from the
    column itself, and leaves the other columns alone, rewrites exactly the
    columns of its range. *)
Lemma for_steps_columns {S C : Type} (col : S -> Z -> C) (g : Z -> C -> C)
    (body : Z -> S -> S) :
  (forall i s j,
      col (body i s) j = if Z.eqb j i then g i (col s i) else col s j) ->
  forall n lo s j,
    col (for_steps n lo body s) j =
    if ((lo <=? j) && (j <? lo + Z.of_nat n))%Z then g j (col s j)
    else col s j.
Proof.
  intros Hbody n; induction n as [|n IH]; intros lo s j.
  - simpl. replace (lo + 0)%Z with lo by lia.
    destruct (Z.leb_spec lo j), (Z.ltb_spec j lo); simpl; try reflexivity; lia.
  - cbn [for_steps]. rewrite IH, !Hbody.
    destruct (Z.eqb_spec j lo) as [->|Hne].
    + replace (lo + 1 <=? lo)%Z with false by (symmetry; apply Z.leb_gt; lia).
      rewrite Z.leb_refl.
      replace (lo <? lo + Z.of_nat (Datatypes.S n))%Z with true
        by (symmetry; apply Z.ltb_lt; lia).
      reflexivity.
    + destruct (Z.leb_spec (lo + 1) j), (Z.leb_spec lo j),
        (Z.ltb_spec j (lo + 1 + Z.of_nat n)),
        (Z.ltb_spec j (lo + Z.of_nat (Datatypes.S n)));
        simpl; try reflexivity; lia.
Qed.

Lemma for_loop_columns {S C : Type} (col : S -> Z -> C) (g : Z -> C -> C)
    (body : Z -> S -> S) :
  (forall i s j,
      col (body i s) j = if Z.eqb j i then g i (col s i) else col s j) ->
  forall lo hi s j,
    col (for_loop lo hi body s) j =
    if ((lo <=? j) && (j <=? hi))%Z then g j (col s j) else col s j.
Proof.
  intros Hbody lo hi s j. unfold for_loop.
  rewrite (for_steps_columns col g body Hbody).
  destruct (Z.leb_spec lo j), (Z.leb_spec j hi),
    (Z.ltb_spec j (lo + Z.of_nat (Z.to_nat (hi - lo + 1))));
    simpl; try reflexivity; lia.
Qed.

Lemma for_loop_column_in {S C : Type} (col : S -> Z -> C) (g : Z -> C -> C)
    (body : Z -> S -> S) :
  (forall i s j,
      col (body i s) j = if Z.eqb j i then g i (col s i) else col s j) ->
  forall lo hi s j, (lo <= j <= hi)%Z ->
    col (for_loop lo hi body s) j = g j (col s j).
Proof.
  intros Hbody lo hi s j Hj. rewrite (for_loop_columns col g body Hbody).
  destruct (Z.leb_spec lo j), (Z.leb_spec j hi); simpl; try reflexivity; lia.
Qed.

(** A loop whose pass [i] writes only at the index [i], from what the state
    holds at the index [i]: at an index of the range the loop leaves what
    the pass for that index makes of the initial state, elsewhere the initial
    state.  The state is read through [get], a slot [x] at a time. *)
Lemma for_steps_pass {S X V : Type} (get : S -> X -> Z -> V)
    (body : Z -> S -> S) :
  (forall i s x j, j <> i -> get (body i s) x j = get s x j) ->
  (forall i s s', (forall x, get s x i = get s' x i) ->
                  forall x, get (body i s) x i = get (body i s') x i) ->
  forall n lo s x j,
    get (for_steps n lo body s) x j =
    if ((lo <=? j) && (j <? lo + Z.of_nat n))%Z then get (body j s) x j
    else get s x j.
Proof.
  intros Hother Hown n; induction n as [|n IH]; intros lo s x j.
  - simpl. replace (lo + 0)%Z with lo by lia.
    destruct (Z.leb_spec lo j), (Z.ltb_spec j lo); simpl; try reflexivity; lia.
  - cbn [for_steps]. rewrite IH.
    destruct (Z.eq_dec j lo) as [->|Hne].
    + replace (lo + 1 <=? lo)%Z with false by (symmetry; apply Z.leb_gt; lia).
      rewrite Z.leb_refl.
      replace (lo <? lo + Z.of_nat (Datatypes.S n))%Z with true
        by (symmetry; apply Z.ltb_lt; lia).
      reflexivity.
    + destruct (Z.leb_spec (lo + 1) j), (Z.leb_spec lo j),
        (Z.ltb_spec j (lo + 1 + Z.of_nat n)),
        (Z.ltb_spec j (lo + Z.of_nat (Datatypes.S n)));
        simpl; try lia.
      * apply Hown. intros y. now apply Hother.
      * now apply Hother.
      * now apply Hother.
Qed.

Lemma for_loop_pass {S X V : Type} (get : S -> X -> Z -> V)
    (body : Z -> S -> S) :
  (forall i s x j, j <> i -> get (body i s) x j = get s x j) ->
  (forall i s s', (forall x, get s x i = get s' x i) ->
                  forall x, get (body i s) x i = get (body i s') x i) ->
  forall lo hi s x j,
    get (for_loop lo hi body s) x j =
    if ((lo <=? j) && (j <=? hi))%Z then get (body j s) x j else get s x j.
Proof.
  intros Hother Hown lo hi s x j. unfold for_loop.
  rewrite (for_steps_pass get body Hother Hown).
  destruct (Z.leb_spec lo j), (Z.leb_spec j hi),
    (Z.ltb_spec j (lo + Z.of_nat (Z.to_nat (hi - lo + 1))));
    simpl; try reflexivity; lia.
Qed.

Lemma for_loop_pass_in {S X V : Type} (get : S -> X -> Z -> V)
    (body : Z -> S -> S) :
  (forall i s x j, j <> i -> get (body i s) x j = get s x j) ->
  (forall i s s', (forall x, get s x i = get s' x i) ->
                  forall x, get (body i s) x i = get (body i s') x i) ->
  forall lo hi s x j, (lo <= j <= hi)%Z ->
    get (for_loop lo hi body s) x j = get (body j s) x j.
Proof.
  intros Hother Hown lo hi s x j Hj.
  rewrite (for_loop_pass get body Hother Hown).
  destruct (Z.leb_spec lo j), (Z.leb_spec j hi); simpl; try reflexivity; lia.
Qed.


(** ** The constructor *)

Lemma same_grid_refl pb : same_grid pb pb.
Proof. unfold same_grid; repeat split. Qed.

Ltac grid_step :=
  let H := fresh in
  intros ? ? H; unfold same_grid in *; cbn; exact H.

Lemma init_x1v_same_grid NGHOST pb : same_grid pb (init_x1v NGHOST pb).
Proof.
  unfold init_x1v; cbv zeta.
  apply for_loop_preserves; [grid_step|].
  apply for_loop_preserves; [grid_step|].
  apply same_grid_refl.
Qed.

Lemma init_x2v_same_grid NGHOST pb0 pb :
  same_grid pb0 pb -> same_grid pb0 (init_x2v NGHOST pb).
Proof.
  intros H. unfold init_x2v; cbv zeta.
  destruct (nx2 (block_size pb) =? 1)%Z.
  - unfold same_grid in *; cbn; exact H.
  - apply for_loop_preserves; [grid_step|].
    apply for_loop_preserves; [grid_step|]. exact H.
Qed.

Lemma init_x3v_same_grid NGHOST pb0 pb :
  same_grid pb0 pb -> same_grid pb0 (init_x3v NGHOST pb).
Proof.
  intros H. unfold init_x3v; cbv zeta.
  destruct (nx3 (block_size pb) =? 1)%Z.
  - unfold same_grid in *; cbn; exact H.
  - apply for_loop_preserves; [grid_step|].
    apply for_loop_preserves; [grid_step|]. exact H.
Qed.

Lemma init_block_same_grid NGHOST pb : same_grid pb (init_block NGHOST pb).
Proof.
  unfold init_block.
  apply init_x3v_same_grid, init_x2v_same_grid, init_x1v_same_grid.
Qed.

Ltac x1v_step :=
  let H := fresh in intros ? ? H; cbn; exact H.

Lemma init_x2v_x1v NGHOST pb : x1v (init_x2v NGHOST pb) = x1v pb.
Proof.
  unfold init_x2v; cbv zeta.
  destruct (nx2 (block_size pb) =? 1)%Z; [reflexivity|].
  apply (for_loop_preserves (fun s => x1v s = x1v pb)); [x1v_step|].
  apply (for_loop_preserves (fun s => x1v s = x1v pb)); [x1v_step|].
  reflexivity.
Qed.

Lemma init_x3v_x1v NGHOST pb : x1v (init_x3v NGHOST pb) = x1v pb.
Proof.
  unfold init_x3v; cbv zeta.
  destruct (nx3 (block_size pb) =? 1)%Z; [reflexivity|].
  apply (for_loop_preserves (fun s => x1v s = x1v pb)); [x1v_step|].
  apply (for_loop_preserves (fun s => x1v s = x1v pb)); [x1v_step|].
  reflexivity.
Qed.

(** The cell-centred position is the midpoint of the two faces. *)
Lemma init_block_x1v NGHOST pb i :
  in_block NGHOST pb i ->
  x1v (init_block NGHOST pb) i = 0.5 * (x1f pb i + x1f pb (i + 1)%Z).
Proof.
  intros Hi. unfold init_block.
  rewrite init_x3v_x1v, init_x2v_x1v.
  unfold init_x1v; cbv zeta.
  set (first := for_loop _ _ _ pb).
  assert (Hfirst : (x1f first, x1v first i)
                   = (x1f pb, 0.5 * (x1f pb i + x1f pb (i + 1)%Z))).
  { subst first.
    apply (for_loop_column_in (fun s j => (x1f s, x1v s j))
             (fun j c => (fst c, 0.5 * (fst c j + fst c (j + 1)%Z)))).
    - intros j s l; cbn. unfold set1. destruct (l =? j)%Z; reflexivity.
    - exact Hi. }
  transitivity (x1v first i).
  - apply (for_loop_preserves (fun s => x1v s i = x1v first i));
      [x1v_step | reflexivity].
  - now inversion Hfirst.
Qed.

Lemma ctor_pmy_block A K NGHOST pb :
  pmy_block (Coordinates_ctor A K NGHOST pb) = init_block NGHOST pb.
Proof.
  unfold Coordinates_ctor; cbv zeta.
  apply (for_loop_preserves (fun c => pmy_block c = init_block NGHOST pb)).
  - intros i c H; cbn; exact H.
  - reflexivity.
Qed.

(** The value a loop of [geometry_body] leaves in a field at an index of its
    range is the one its pass for that index wrote. *)
Ltac ctor_field field :=
  match goal with
  | Hi : in_block ?N ?b ?i |- _ = ?rhs =>
      let p := eval pattern i in rhs in
      match p with
      | ?f _ =>
          unfold Coordinates_ctor; cbv zeta;
          apply (for_loop_column_in (fun c j => field c j) (fun j _ => f j));
          [ let j := fresh in let c := fresh in let l := fresh in
            let E := fresh in
            intros j c l; cbn; unfold set1; destruct (l =? j)%Z eqn:E;
            [ apply Z.eqb_eq in E; subst l; reflexivity | reflexivity ]
          | let G := fresh in
            pose proof (init_block_same_grid N b) as G;
            unfold same_grid in G; unfold in_block in Hi;
            destruct G as (G1 & G2 & _); rewrite G1, G2; exact Hi ]
      end
  end.

Section ConstructorValues.

Variables A K : Real.
Variable NGHOST : Z.
Variable pb : MeshBlock.
Variable i : Z.
Hypothesis Hi : in_block NGHOST pb i.

Let c := Coordinates_ctor A K NGHOST pb.
Let r_c := x1v (init_block NGHOST pb) i.
Let r_m := x1f (init_block NGHOST pb) i.
Let r_p := x1f (init_block NGHOST pb) (i + 1)%Z.

Lemma ctor_cell_width1 :
  cell_width1_i_ c i =
  1.0 / (4.0 * (1.0 + SQR A * SQR K))
  * (2.0 * K * (2.0 + SQR A * SQR K) * dx1f (init_block NGHOST pb) i
     - SQR A * SQR K * (sin (2.0 * K * r_m) - sin (2.0 * K * r_p))).
Proof. subst c r_c r_m r_p. ctor_field cell_width1_i_. Qed.

Lemma ctor_src_terms :
  src_terms_i1_ c i =
  (A * K * cos (K * r_m) - A * K * cos (K * r_p))
  / dx1f (init_block NGHOST pb) i.
Proof. subst c r_c r_m r_p. ctor_field src_terms_i1_. Qed.

Lemma ctor_metric_cell_i1 :
  metric_cell_i1_ c i = 1.0 + SQR A * SQR K * SQR (cos (K * r_c)).
Proof. subst c r_c r_m r_p. ctor_field metric_cell_i1_. Qed.

Lemma ctor_metric_cell_i2 : metric_cell_i2_ c i = A * K * cos (K * r_c).
Proof. subst c r_c r_m r_p. ctor_field metric_cell_i2_. Qed.

Lemma ctor_metric_face1_i1 :
  metric_face1_i1_ c i = 1.0 + SQR A * SQR K * SQR (cos (K * r_m)).
Proof. subst c r_c r_m r_p. ctor_field metric_face1_i1_. Qed.

Lemma ctor_metric_face1_i2 : metric_face1_i2_ c i = A * K * cos (K * r_m).
Proof. subst c r_c r_m r_p. ctor_field metric_face1_i2_. Qed.

Lemma ctor_metric_face2_i1 :
  metric_face2_i1_ c i = 1.0 + SQR A * SQR K * SQR (cos (K * r_c)).
Proof. subst c r_c r_m r_p. ctor_field metric_face2_i1_. Qed.

Lemma ctor_metric_face2_i2 : metric_face2_i2_ c i = A * K * cos (K * r_c).
Proof. subst c r_c r_m r_p. ctor_field metric_face2_i2_. Qed.

Lemma ctor_metric_face3_i1 :
  metric_face3_i1_ c i = 1.0 + SQR A * SQR K * SQR (cos (K * r_c)).
Proof. subst c r_c r_m r_p. ctor_field metric_face3_i1_. Qed.

Lemma ctor_metric_face3_i2 : metric_face3_i2_ c i = A * K * cos (K * r_c).
Proof. subst c r_c r_m r_p. ctor_field metric_face3_i2_. Qed.

Lemma ctor_trans_face1_i2 : trans_face1_i2_ c i = A * K * cos (K * r_m).
Proof. subst c r_c r_m r_p. ctor_field trans_face1_i2_. Qed.

Lemma ctor_trans_face2_i1 :
  trans_face2_i1_ c i = sqrt (1.0 + SQR A * SQR K * SQR (cos (K * r_c))).
Proof. subst c r_c r_m r_p. ctor_field trans_face2_i1_. Qed.

Lemma ctor_trans_face2_i2 : trans_face2_i2_ c i = A * K * cos (K * r_c).
Proof. subst c r_c r_m r_p. ctor_field trans_face2_i2_. Qed.

Lemma ctor_trans_face3_i2 : trans_face3_i2_ c i = A * K * cos (K * r_m).
Proof. subst c r_c r_m r_p. ctor_field trans_face3_i2_. Qed.

End ConstructorValues.

Lemma init_block_x1f NGHOST pb : x1f (init_block NGHOST pb) = x1f pb.
Proof. pose proof (init_block_same_grid NGHOST pb) as G. apply G. Qed.

Lemma init_block_dx1f NGHOST pb : dx1f (init_block NGHOST pb) = dx1f pb.
Proof. pose proof (init_block_same_grid NGHOST pb) as G. apply G. Qed.

(** ** Metric positivity *)

Lemma alphaSquared_ge_1 a k x : 1 <= alphaSquared a k x.
Proof.
  unfold alphaSquared.
  pose proof (Rle_0_sqr (a * k * cos (k * x))) as H. unfold Rsqr in H. nra.
Qed.

Lemma stored_alpha_sq A K x :
  1.0 + SQR A * SQR K * SQR (cos (K * x)) = alphaSquared A K x.
Proof. unfold alphaSquared, SQR. lra. Qed.

(** C9.  For all parameters [A] and [K] of the chart the metric scalar
    [alphaSquared] is at least 1 at every position, and every value the
    constructor writes into the cell-centered and the three face-centered
    arrays of [alphaSquared] is the scalar at the position of that cell or
    face, hence at least 1. *)
Theorem metric_positivity (A K : Real) :
  (forall x, 1 <= alphaSquared A K x) /\
  (forall NGHOST pb i, in_block NGHOST pb i ->
     let c := Coordinates_ctor A K NGHOST pb in
     let xv := x1v (pmy_block c) i in
     let xf := x1f (pmy_block c) i in
     (metric_cell_i1_ c i = alphaSquared A K xv /\ 1 <= metric_cell_i1_ c i) /\
     (metric_face1_i1_ c i = alphaSquared A K xf /\ 1 <= metric_face1_i1_ c i) /\
     (metric_face2_i1_ c i = alphaSquared A K xv /\ 1 <= metric_face2_i1_ c i) /\
     (metric_face3_i1_ c i = alphaSquared A K xv /\ 1 <= metric_face3_i1_ c i)).
Proof.
  split; [apply alphaSquared_ge_1|].
  intros NGHOST pb i Hi c xv xf. subst c xv xf.
  rewrite ctor_pmy_block.
  rewrite (ctor_metric_cell_i1 A K NGHOST pb i Hi),
    (ctor_metric_face1_i1 A K NGHOST pb i Hi),
    (ctor_metric_face2_i1 A K NGHOST pb i Hi),
    (ctor_metric_face3_i1 A K NGHOST pb i Hi), !stored_alpha_sq.
  repeat split; apply alphaSquared_ge_1.
Qed.

Lemma metric_positivity_witness :
  let c := Coordinates_new 2 third_block in
  let xv := x1v (pmy_block c) 2 in
  let xf := x1f (pmy_block c) 2 in
  (metric_cell_i1_ c 2 = alphaSquared globals.A globals.K xv
   /\ 1 <= metric_cell_i1_ c 2) /\
  (metric_face1_i1_ c 2 = alphaSquared globals.A globals.K xf
   /\ 1 <= metric_face1_i1_ c 2) /\
  (metric_face2_i1_ c 2 = alphaSquared globals.A globals.K xv
   /\ 1 <= metric_face2_i1_ c 2) /\
  (metric_face3_i1_ c 2 = alphaSquared globals.A globals.K xv
   /\ 1 <= metric_face3_i1_ c 2).
Proof.
  apply (proj2 (metric_positivity globals.A globals.K) 2%Z third_block 2%Z).
  unfold in_block; simpl; lia.
Defined.

(** ** Cell widths and volumes *)

Lemma CellVolume_values this k j il iu volumes i :
  CellVolume this k j il iu volumes i =
  if ((il <=? i) && (i <=? iu))%Z
  then dx1f (pmy_block this) i * dx2f (pmy_block this) j
       * dx3f (pmy_block this) k
  else volumes i.
Proof.
  unfold CellVolume; cbv zeta.
  apply (for_loop_columns (fun (v : Array1) l => v l)
           (fun l _ => dx1f (pmy_block this) l * dx2f (pmy_block this) j
                       * dx3f (pmy_block this) k)).
  intros l v m. unfold set1. reflexivity.
Qed.

(** C4, as the code has it.  For every pair [(k,j)] and every [i] of the
    inclusive range, [CellVolume] writes the product of the three coordinate
    spacings: the width along x that enters the product is [dx1f(i)]. *)
Theorem CellVolume_spacings this k j il iu volumes i :
  (il <= i <= iu)%Z ->
  CellVolume this k j il iu volumes i =
  dx1f (pmy_block this) i * dx2f (pmy_block this) j * dx3f (pmy_block this) k.
Proof.
  intros Hi. rewrite CellVolume_values.
  destruct (Z.leb_spec il i), (Z.leb_spec i iu); simpl; try reflexivity; lia.
Qed.

Lemma CellVolume_spacings_witness :
  let this := Coordinates_new 2 third_block in
  CellVolume this 0 0 2 2 (fun _ => 0) 2%Z =
  dx1f (pmy_block this) 2 * dx2f (pmy_block this) 0 * dx3f (pmy_block this) 0.
Proof.
  intros this.
  apply (CellVolume_spacings this 0%Z 0%Z 2%Z 2%Z (fun _ => 0) 2%Z). lia.
Defined.

(** C4, as stated, fails: in the block [third_block] the volume written for
    the cell 2 is not the product with the stored cell width. *)
Lemma CellVolume_not_cell_width :
  let this := Coordinates_new 2 third_block in
  CellVolume this 0 0 2 2 (fun _ => 0) 2%Z <>
  cell_width1_i_ this 2 * dx2f (pmy_block this) 0 * dx3f (pmy_block this) 0.
Proof.
  intros this.
  rewrite CellVolume_values. cbn [Z.leb Z.compare Pos.compare
                                   Pos.compare_cont andb].
  assert (Hi : in_block 2 third_block 2) by (unfold in_block; simpl; lia).
  subst this. unfold Coordinates_new.
  rewrite (ctor_cell_width1 globals.A globals.K _ _ _ Hi), ctor_pmy_block.
  pose proof (init_block_same_grid 2 third_block) as G.
  destruct G as (_ & _ & _ & _ & _ & _ & _ & _ & _ & _ & G1 & G2 & G3 & _).
  rewrite G1, G2, G3. simpl.
  unfold globals.A, globals.K, SQR.
  pose proof PI2_1 as HPI.
  match goal with
  | |- context [sin ?x - sin ?y] =>
      pose proof (SIN_bound x) as Bx; pose proof (SIN_bound y) as By;
      set (sx := sin x) in *; set (sy := sin y) in *
  end.
  lra.
Qed.

(** ** Metric functions *)

(** Reading the pair of arrays a metric function writes: [true] selects the
    inverse components, [false] the covariant ones. *)
Lemma set_metric_terms_other alpha_sq beta_ i gs (inv : bool) n j :
  j <> i ->
  (if inv then snd (set_metric_terms alpha_sq beta_ i gs)
   else fst (set_metric_terms alpha_sq beta_ i gs)) n j
  = (if inv then snd gs else fst gs) n j.
Proof.
  intros Hj. apply Z.eqb_neq in Hj.
  destruct gs as [g g_inv].
  destruct inv; unfold set_metric_terms; cbv zeta; cbn [fst snd];
    unfold set2; rewrite Hj, !andb_false_r; reflexivity.
Qed.

Lemma metric_loop_values (a b : Array1) lo hi g g_inv i :
  (lo <= i <= hi)%Z ->
  let r := for_loop lo hi (fun i gs => set_metric_terms (a i) (b i) i gs)
             (g, g_inv) in
  (fst r I00 i = -1 /\ fst r I11 i = a i /\ fst r I12 i = - b i /\
   fst r I22 i = 1 /\ fst r I33 i = 1) /\
  (snd r I00 i = -1 /\ snd r I11 i = 1 /\ snd r I12 i = b i /\
   snd r I22 i = a i /\ snd r I33 i = 1).
Proof.
  intros Hi r.
  assert (H : forall x : bool * MetricIndex,
             (if fst x then snd r else fst r) (snd x) i =
             (if fst x then snd (set_metric_terms (a i) (b i) i (g, g_inv))
              else fst (set_metric_terms (a i) (b i) i (g, g_inv)))
               (snd x) i).
  { intros x. subst r.
    apply (for_loop_pass_in
             (fun (gs : Array2 MetricIndex * Array2 MetricIndex)
                  (x : bool * MetricIndex) l =>
                (if fst x then snd gs else fst gs) (snd x) l)
             (fun i gs => set_metric_terms (a i) (b i) i gs)).
    - intros l gs [inv n] m Hm; cbn [fst snd].
      now apply set_metric_terms_other.
    - intros l [g0 g0_inv] [g1 g1_inv] Hgs [inv n]; cbn [fst snd].
      pose proof (Hgs (inv, n)) as Hn; cbn [fst snd] in Hn.
      destruct inv, n; unfold set_metric_terms; cbv zeta; cbn [fst snd];
        unfold set2; rewrite Z.eqb_refl; cbn; try reflexivity; exact Hn.
    - exact Hi. }
  assert (V : forall (inv : bool) (n : MetricIndex),
             (if inv then snd r else fst r) n i =
             (if inv then snd (set_metric_terms (a i) (b i) i (g, g_inv))
              else fst (set_metric_terms (a i) (b i) i (g, g_inv))) n i)
    by (intros inv n; exact (H (inv, n))).
  clear H.
  repeat split;
    match goal with
    | |- fst r ?n i = _ => rewrite (V false n)
    | |- snd r ?n i = _ => rewrite (V true n)
    end; cbn; unfold set2; rewrite Z.eqb_refl; cbn; lra.
Qed.

(** The product of the two matrices of components that belong to a pair
    [(alpha_sq, beta_)] with [alpha_sq = 1 + beta_^2]. *)
Lemma metric_matrices_inverse (g g_inv : Array2 MetricIndex) i alpha_sq beta_ :
  alpha_sq = 1 + beta_ * beta_ ->
  (g I00 i = -1 /\ g I11 i = alpha_sq /\ g I12 i = - beta_ /\
   g I22 i = 1 /\ g I33 i = 1) ->
  (g_inv I00 i = -1 /\ g_inv I11 i = 1 /\ g_inv I12 i = beta_ /\
   g_inv I22 i = alpha_sq /\ g_inv I33 i = 1) ->
  matrix_mult (matrix_of_components g i) (matrix_of_components g_inv i)
  = identity_matrix.
Proof.
  intros Ha (G00 & G11 & G12 & G22 & G33) (H00 & H11 & H12 & H22 & H33).
  unfold matrix_mult, matrix_of_components, matrix_column, dot_product,
    identity_matrix.
  cbn. rewrite G00, G11, G12, G22, G33, H00, H11, H12, H22, H33, Ha.
  repeat (f_equal; try ring).
Qed.

(** The pairs the constructor stores for the four places. *)
Lemma ctor_pairs A K NGHOST pb i :
  in_block NGHOST pb i ->
  let c := Coordinates_ctor A K NGHOST pb in
  metric_cell_i1_ c i = 1 + metric_cell_i2_ c i * metric_cell_i2_ c i /\
  metric_face1_i1_ c i = 1 + metric_face1_i2_ c i * metric_face1_i2_ c i /\
  metric_face2_i1_ c i = 1 + metric_face2_i2_ c i * metric_face2_i2_ c i /\
  metric_face3_i1_ c i = 1 + metric_face3_i2_ c i * metric_face3_i2_ c i.
Proof.
  intros Hi c. subst c.
  rewrite (ctor_metric_cell_i1 A K NGHOST pb i Hi),
    (ctor_metric_face1_i1 A K NGHOST pb i Hi),
    (ctor_metric_face2_i1 A K NGHOST pb i Hi),
    (ctor_metric_face3_i1 A K NGHOST pb i Hi),
    (ctor_metric_cell_i2 A K NGHOST pb i Hi),
    (ctor_metric_face1_i2 A K NGHOST pb i Hi),
    (ctor_metric_face2_i2 A K NGHOST pb i Hi),
    (ctor_metric_face3_i2 A K NGHOST pb i Hi).
  unfold SQR. autorewrite with literals. repeat split; ring.
Qed.

(** C2.  For coordinates made by the constructor, at the cell centers and at
    each of the three kinds of faces, and for every index the metric function
    of that place writes (and the constructor has filled), the matrix of the
    five covariant components times the matrix of the five inverse components
    is the identity matrix. *)
Theorem metric_times_inverse A K NGHOST pb loc k j g g_inv i :
  in_block NGHOST pb i ->
  metric_range NGHOST pb loc i ->
  let this := Coordinates_ctor A K NGHOST pb in
  let gs := metric_at NGHOST this loc k j g g_inv in
  matrix_mult (matrix_of_components (fst gs) i)
    (matrix_of_components (snd gs) i)
  = identity_matrix.
Proof.
  intros Hi Hr this gs.
  pose proof (ctor_pairs A K NGHOST pb i Hi) as (Pc & P1 & P2 & P3).
  pose proof (init_block_same_grid NGHOST pb) as (Gs & Ge & _).
  fold this in Pc, P1, P2, P3.
  assert (Hb : pmy_block this = init_block NGHOST pb)
    by apply ctor_pmy_block.
  subst gs. destruct loc; cbn [metric_at metric_range] in *.
  - unfold CellMetric.
    change (for_loop ?lo ?hi _ (g, g_inv))
      with (for_loop lo hi
              (fun i gs => set_metric_terms (metric_cell_i1_ this i)
                             (metric_cell_i2_ this i) i gs) (g, g_inv)).
    edestruct (metric_loop_values (metric_cell_i1_ this)
                 (metric_cell_i2_ this)) as [Hg Hgi];
      [ | eapply metric_matrices_inverse; [exact Pc | exact Hg | exact Hgi] ].
    rewrite Hb, Gs, Ge; exact Hr.
  - unfold Face1Metric.
    change (for_loop ?lo ?hi _ (g, g_inv))
      with (for_loop lo hi
              (fun i gs => set_metric_terms (metric_face1_i1_ this i)
                             (metric_face1_i2_ this i) i gs) (g, g_inv)).
    edestruct (metric_loop_values (metric_face1_i1_ this)
                 (metric_face1_i2_ this)) as [Hg Hgi];
      [ | eapply metric_matrices_inverse; [exact P1 | exact Hg | exact Hgi] ].
    rewrite Hb, Gs, Ge; exact Hr.
  - unfold Face2Metric.
    change (for_loop ?lo ?hi _ (g, g_inv))
      with (for_loop lo hi
              (fun i gs => set_metric_terms (metric_face2_i1_ this i)
                             (metric_face2_i2_ this i) i gs) (g, g_inv)).
    edestruct (metric_loop_values (metric_face2_i1_ this)
                 (metric_face2_i2_ this)) as [Hg Hgi];
      [ | eapply metric_matrices_inverse; [exact P2 | exact Hg | exact Hgi] ].
    rewrite Hb, Gs, Ge; exact Hr.
  - unfold Face3Metric.
    change (for_loop ?lo ?hi _ (g, g_inv))
      with (for_loop lo hi
              (fun i gs => set_metric_terms (metric_face3_i1_ this i)
                             (metric_face3_i2_ this i) i gs) (g, g_inv)).
    edestruct (metric_loop_values (metric_face3_i1_ this)
                 (metric_face3_i2_ this)) as [Hg Hgi];
      [ | eapply metric_matrices_inverse; [exact P3 | exact Hg | exact Hgi] ].
    rewrite Hb, Gs, Ge; exact Hr.
Qed.

Lemma metric_times_inverse_witness :
  let this := Coordinates_new 2 third_block in
  let gs := metric_at 2 this AtFace1 0 0 (fun _ _ => 0) (fun _ _ => 0) in
  matrix_mult (matrix_of_components (fst gs) 3)
    (matrix_of_components (snd gs) 3)
  = identity_matrix.
Proof.
  apply (metric_times_inverse globals.A globals.K 2%Z third_block AtFace1
           0%Z 0%Z (fun _ _ => 0) (fun _ _ => 0) 3%Z).
  - unfold in_block; simpl; lia.
  - simpl; lia.
Defined.

(** ** Source terms *)

Lemma VarIndex_eqb_eq a b : VarIndex_eqb a b = true <-> a = b.
Proof. destruct a, b; cbn; split; intros H; congruence. Qed.

Lemma VarIndex_eqb_refl a : VarIndex_eqb a a = true.
Proof. destruct a; reflexivity. Qed.

Section SourceTerms.

Variable this : Coordinates.
Variable dt : Real.
Variable prim : Array4 VarIndex.

Let gamma_adi_red :=
  GetGamma (pf_eos (pfluid (pmy_block this)))
  / (GetGamma (pf_eos (pfluid (pmy_block this))) - 1.0).

Let incr := source_increment this dt prim.

(** One pass adds the increment to the x1-momentum of its cell. *)
Lemma source_terms_body_values k j i cons n k' j' i' :
  source_terms_body this dt gamma_adi_red prim k j i cons n k' j' i' =
  if VarIndex_eqb n IM1 && (k' =? k)%Z && (j' =? j)%Z && (i' =? i)%Z
  then cons n k' j' i' + incr k j i
  else cons n k' j' i'.
Proof.
  subst incr. unfold source_increment, source_terms_body; cbv zeta.
  fold gamma_adi_red. unfold set4. rewrite !VarIndex_eqb_refl, !Z.eqb_refl.
  cbn [andb].
  destruct (VarIndex_eqb n IM1) eqn:En; cbn [andb]; [|reflexivity].
  apply VarIndex_eqb_eq in En; subst n.
  destruct (Z.eqb_spec k' k) as [->|]; cbn [andb]; [|reflexivity].
  destruct (Z.eqb_spec j' j) as [->|]; cbn [andb]; [|reflexivity].
  destruct (Z.eqb_spec i' i) as [->|]; cbn [andb]; [|reflexivity].
  lra.
Qed.

Lemma source_terms_row k j lo hi cons n k' j' i' :
  for_loop lo hi
    (fun i cons => source_terms_body this dt gamma_adi_red prim k j i cons)
    cons n k' j' i' =
  if VarIndex_eqb n IM1 && (k' =? k)%Z && (j' =? j)%Z
     && ((lo <=? i') && (i' <=? hi))%Z
  then cons n k' j' i' + incr k j i'
  else cons n k' j' i'.
Proof.
  pose proof (for_loop_pass
             (fun (c : Array4 VarIndex) (x : VarIndex * Z * Z) l =>
                c (fst (fst x)) (snd (fst x)) (snd x) l)
             (fun i cons =>
                source_terms_body this dt gamma_adi_red prim k j i cons)
             ltac:(intros i c [[m a] b] l Hl; cbn [fst snd];
                   rewrite source_terms_body_values;
                   apply Z.eqb_neq in Hl; rewrite Hl, andb_false_r;
                   reflexivity)
             ltac:(intros i c c' Hc [[m a] b]; cbn [fst snd];
                   rewrite !source_terms_body_values;
                   pose proof (Hc (m, a, b)) as Hm; cbn [fst snd] in Hm;
                   rewrite Hm; reflexivity)
             lo hi cons (n, k', j') i') as H.
  cbn [fst snd] in H. rewrite H, source_terms_body_values, Z.eqb_refl, andb_true_r.
  clear H.
  destruct ((lo <=? i') && (i' <=? hi))%Z;
    rewrite ?andb_true_r, ?andb_false_r; reflexivity.
Qed.

Lemma source_terms_plane k jlo jhi lo hi cons n k' j' i' :
  for_loop jlo jhi
    (fun j cons =>
       for_loop lo hi
         (fun i cons =>
            source_terms_body this dt gamma_adi_red prim k j i cons) cons)
    cons n k' j' i' =
  if VarIndex_eqb n IM1 && (k' =? k)%Z
     && ((jlo <=? j') && (j' <=? jhi))%Z && ((lo <=? i') && (i' <=? hi))%Z
  then cons n k' j' i' + incr k j' i'
  else cons n k' j' i'.
Proof.
  pose proof (for_loop_pass
             (fun (c : Array4 VarIndex) (x : VarIndex * Z * Z) l =>
                c (fst (fst x)) (snd (fst x)) l (snd x))
             (fun j cons =>
                for_loop lo hi
                  (fun i cons =>
                     source_terms_body this dt gamma_adi_red prim k j i cons)
                  cons)
             ltac:(intros j c [[m a] b] l Hl; cbn [fst snd];
                   rewrite source_terms_row;
                   apply Z.eqb_neq in Hl;
                   rewrite Hl, andb_false_r, andb_false_l;
                   reflexivity)
             ltac:(intros j c c' Hc [[m a] b]; cbn [fst snd];
                   rewrite !source_terms_row;
                   pose proof (Hc (m, a, b)) as Hm; cbn [fst snd] in Hm;
                   rewrite Hm; reflexivity)
             jlo jhi cons (n, k', i') j') as H.
  cbn [fst snd] in H. rewrite H, source_terms_row, Z.eqb_refl, andb_true_r.
  clear H.
  destruct ((jlo <=? j') && (j' <=? jhi))%Z;
    rewrite ?andb_true_r, ?andb_false_r, ?andb_false_l; reflexivity.
Qed.

(** The conserved variables after the call: the x1-momentum of every
    interior cell has received its increment, everything else is as
    before. *)
Lemma CoordinateSourceTerms_values cons n k j i :
  snd (CoordinateSourceTerms this dt prim cons) n k j i =
  if VarIndex_eqb n IM1 && interiorb (pmy_block this) k j i
  then cons n k j i + incr k j i
  else cons n k j i.
Proof.
  unfold CoordinateSourceTerms; cbv zeta; cbn [snd]. fold gamma_adi_red.
  set (pb := pmy_block this).
  pose proof (for_loop_pass
             (fun (c : Array4 VarIndex) (x : VarIndex * Z * Z) l =>
                c (fst (fst x)) l (snd (fst x)) (snd x))
             (fun k cons =>
                for_loop (js pb) (je pb)
                  (fun j cons =>
                     for_loop (is_ pb) (ie pb)
                       (fun i cons =>
                          source_terms_body this dt gamma_adi_red prim k j i
                            cons) cons) cons)
             ltac:(intros l c [[m a] b] l' Hl; cbn [fst snd];
                   rewrite source_terms_plane;
                   apply Z.eqb_neq in Hl;
                   rewrite Hl, andb_false_r, !andb_false_l;
                   reflexivity)
             ltac:(intros l c c' Hc [[m a] b]; cbn [fst snd];
                   rewrite !source_terms_plane;
                   pose proof (Hc (m, a, b)) as Hm; cbn [fst snd] in Hm;
                   rewrite Hm; reflexivity)
             (ks pb) (ke pb) cons (n, j, i) k) as H.
  cbn [fst snd] in H. rewrite H, source_terms_plane, Z.eqb_refl, andb_true_r.
  clear H. unfold interiorb.
  destruct (VarIndex_eqb n IM1), (ks pb <=? k)%Z, (k <=? ke pb)%Z,
    (js pb <=? j)%Z, (j <=? je pb)%Z, (is_ pb <=? i)%Z, (i <=? ie pb)%Z;
    reflexivity.
Qed.

End SourceTerms.

Lemma interiorb_spec pb k j i : interiorb pb k j i = true <-> interior pb k j i.
Proof.
  unfold interiorb, interior.
  rewrite !andb_true_iff, !Z.leb_le. tauto.
Qed.

(** C8.  [CoordinateSourceTerms] hands the primitives back as it got them
    and changes, among the conserved variables, only x1-momenta of interior
    cells: every other variable of every cell, and every variable of every
    cell outside the interior, is what it was. *)
Theorem CoordinateSourceTerms_frame this dt prim cons :
  fst (CoordinateSourceTerms this dt prim cons) = prim /\
  forall n k j i,
    n <> IM1 \/ ~ interior (pmy_block this) k j i ->
    snd (CoordinateSourceTerms this dt prim cons) n k j i = cons n k j i.
Proof.
  split; [reflexivity|].
  intros n k j i H. rewrite CoordinateSourceTerms_values.
  destruct (VarIndex_eqb n IM1) eqn:En; cbn [andb]; [|reflexivity].
  destruct (interiorb (pmy_block this) k j i) eqn:Ei; [|reflexivity].
  apply VarIndex_eqb_eq in En. apply interiorb_spec in Ei.
  destruct H as [H|H]; contradiction.
Qed.

Lemma CoordinateSourceTerms_frame_witness :
  let this := Coordinates_new 2 third_block in
  let prim := uniform_state 1 1 (1/2) 0 0 in
  let cons := uniform_state 1 1 1 1 1 in
  snd (CoordinateSourceTerms this 1 prim cons) IM1 0%Z 0%Z 1%Z
  = cons IM1 0%Z 0%Z 1%Z.
Proof.
  intros this prim cons.
  apply (proj2 (CoordinateSourceTerms_frame this 1 prim cons) IM1 0%Z 0%Z 1%Z).
  right. unfold interior, this, Coordinates_new. rewrite ctor_pmy_block.
  pose proof (init_block_same_grid 2 third_block) as (Gs & _).
  rewrite Gs. simpl. lia.
Defined.

(** ** Transformations to the locally flat frame *)

(** The equalities between two states at the interface [i], one per slot. *)
Ltac slot_equalities H :=
  let go x := (let E := fresh "E" in pose proof (H x) as E; cbn in E) in
  go (LeftSlot IDN); go (LeftSlot IM1); go (LeftSlot IM2); go (LeftSlot IM3);
  go (LeftSlot IEN); go (LeftSlot IBY); go (LeftSlot IBZ);
  go (RightSlot IDN); go (RightSlot IM1); go (RightSlot IM2);
  go (RightSlot IM3); go (RightSlot IEN); go (RightSlot IBY);
  go (RightSlot IBZ); go NormalSlot.

Ltac local_other :=
  let Hj := fresh in
  intros ? [[? ?] ?] [[]|[]|] ? Hj; apply Z.eqb_neq in Hj;
  cbv beta iota zeta delta
    [PrimToLocal1_body PrimToLocal2_body PrimToLocal3_body];
  match goal with |- context [if ?m then _ else _] => destruct m end;
  cbn [local_get fst snd]; unfold set2, set1;
  rewrite ?Hj, ?andb_false_r; reflexivity.

Ltac local_own :=
  let H := fresh in
  intros ? [[? ?] ?] [[? ?] ?] H; slot_equalities H; clear H;
  intros [[]|[]|];
  cbv beta iota zeta delta
    [PrimToLocal1_body PrimToLocal2_body PrimToLocal3_body];
  match goal with |- context [if ?m then _ else _] => destruct m end;
  cbn [local_get fst snd]; unfold set2, set1, IVX, IVY, IVZ;
  rewrite ?Z.eqb_refl; cbn [VarIndex_eqb andb];
  repeat match goal with E : _ = _ |- _ => rewrite E; clear E end;
  reflexivity.

Section LocalPasses.

Variable mag : bool.
Variable this : Coordinates.
Variables k j : Z.
Variable b_vals : Array3.

Lemma PrimToLocal1_other i s x l :
  l <> i ->
  local_get (PrimToLocal1_body mag this k j b_vals i s) x l = local_get s x l.
Proof. revert i s x l. local_other. Qed.

Lemma PrimToLocal1_own i s s' :
  (forall x, local_get s x i = local_get s' x i) ->
  forall x, local_get (PrimToLocal1_body mag this k j b_vals i s) x i
            = local_get (PrimToLocal1_body mag this k j b_vals i s') x i.
Proof. revert i s s'. local_own. Qed.

Lemma PrimToLocal2_other i s x l :
  l <> i ->
  local_get (PrimToLocal2_body mag this k j b_vals i s) x l = local_get s x l.
Proof. revert i s x l. local_other. Qed.

Lemma PrimToLocal2_own i s s' :
  (forall x, local_get s x i = local_get s' x i) ->
  forall x, local_get (PrimToLocal2_body mag this k j b_vals i s) x i
            = local_get (PrimToLocal2_body mag this k j b_vals i s') x i.
Proof. revert i s s'. local_own. Qed.

Lemma PrimToLocal3_other i s x l :
  l <> i ->
  local_get (PrimToLocal3_body mag this k j b_vals i s) x l = local_get s x l.
Proof. revert i s x l. local_other. Qed.

Lemma PrimToLocal3_own i s s' :
  (forall x, local_get s x i = local_get s' x i) ->
  forall x, local_get (PrimToLocal3_body mag this k j b_vals i s) x i
            = local_get (PrimToLocal3_body mag this k j b_vals i s') x i.
Proof. revert i s s'. local_own. Qed.

(** At an interface of its range a [PrimToLocal] function leaves what its
    pass for that interface makes of the arrays it received. *)
Lemma PrimToLocal1_pass prim_left prim_right bx x i :
  (is_ (pmy_block this) <= i <= ie (pmy_block this) + 1)%Z ->
  local_get (PrimToLocal1 mag this k j b_vals prim_left prim_right bx) x i =
  local_get (PrimToLocal1_body mag this k j b_vals i (prim_left, prim_right, bx))
    x i.
Proof.
  intros Hi. unfold PrimToLocal1.
  apply (for_loop_pass_in local_get (PrimToLocal1_body mag this k j b_vals)).
  - intros; now apply PrimToLocal1_other.
  - intros; now apply PrimToLocal1_own.
  - exact Hi.
Qed.

Lemma PrimToLocal2_pass prim_left prim_right by_ x i :
  (is_ (pmy_block this) <= i <= ie (pmy_block this))%Z ->
  local_get (PrimToLocal2 mag this k j b_vals prim_left prim_right by_) x i =
  local_get (PrimToLocal2_body mag this k j b_vals i (prim_left, prim_right, by_))
    x i.
Proof.
  intros Hi. unfold PrimToLocal2.
  apply (for_loop_pass_in local_get (PrimToLocal2_body mag this k j b_vals)).
  - intros; now apply PrimToLocal2_other.
  - intros; now apply PrimToLocal2_own.
  - exact Hi.
Qed.

Lemma PrimToLocal3_pass prim_left prim_right bz x i :
  (is_ (pmy_block this) <= i <= ie (pmy_block this))%Z ->
  local_get (PrimToLocal3 mag this k j b_vals prim_left prim_right bz) x i =
  local_get (PrimToLocal3_body mag this k j b_vals i (prim_left, prim_right, bz))
    x i.
Proof.
  intros Hi. unfold PrimToLocal3.
  apply (for_loop_pass_in local_get (PrimToLocal3_body mag this k j b_vals)).
  - intros; now apply PrimToLocal3_other.
  - intros; now apply PrimToLocal3_own.
  - exact Hi.
Qed.

End LocalPasses.

(** ** Transformations of fluxes to the global frame *)

Ltac flux_other :=
  let Hj := fresh in
  intros ? ? [] ? Hj; apply Z.eqb_neq in Hj;
  cbv beta iota zeta delta
    [FluxToGlobal1_body FluxToGlobal2_body FluxToGlobal3_body];
  match goal with |- context [if ?m then _ else _] => destruct m end;
  unfold set2; rewrite ?Hj, ?andb_false_r; reflexivity.

Ltac flux_own :=
  let H := fresh in
  intros ? ? ? H;
  pose proof (H IDN); pose proof (H IM1); pose proof (H IM2);
  pose proof (H IM3); pose proof (H IEN); pose proof (H IBY);
  pose proof (H IBZ); clear H;
  intros [];
  cbv beta iota zeta delta
    [FluxToGlobal1_body FluxToGlobal2_body FluxToGlobal3_body];
  match goal with |- context [if ?m then _ else _] => destruct m end;
  unfold set2; rewrite ?Z.eqb_refl; cbn [VarIndex_eqb andb];
  repeat match goal with E : _ = _ |- _ => rewrite E; clear E end;
  reflexivity.

Section FluxPasses.

Variable mag : bool.
Variable this : Coordinates.
Variables k j : Z.

Lemma FluxToGlobal1_other i (flux : Array2 VarIndex) n l :
  l <> i -> FluxToGlobal1_body mag this k j i flux n l = flux n l.
Proof. revert i flux n l. flux_other. Qed.

Lemma FluxToGlobal1_own i (flux flux' : Array2 VarIndex) :
  (forall n, flux n i = flux' n i) ->
  forall n, FluxToGlobal1_body mag this k j i flux n i
            = FluxToGlobal1_body mag this k j i flux' n i.
Proof. revert i flux flux'. flux_own. Qed.

Lemma FluxToGlobal2_other i (flux : Array2 VarIndex) n l :
  l <> i -> FluxToGlobal2_body mag this k j i flux n l = flux n l.
Proof. revert i flux n l. flux_other. Qed.

Lemma FluxToGlobal2_own i (flux flux' : Array2 VarIndex) :
  (forall n, flux n i = flux' n i) ->
  forall n, FluxToGlobal2_body mag this k j i flux n i
            = FluxToGlobal2_body mag this k j i flux' n i.
Proof. revert i flux flux'. flux_own. Qed.

Lemma FluxToGlobal3_other i (flux : Array2 VarIndex) n l :
  l <> i -> FluxToGlobal3_body mag this k j i flux n l = flux n l.
Proof. revert i flux n l. flux_other. Qed.

Lemma FluxToGlobal3_own i (flux flux' : Array2 VarIndex) :
  (forall n, flux n i = flux' n i) ->
  forall n, FluxToGlobal3_body mag this k j i flux n i
            = FluxToGlobal3_body mag this k j i flux' n i.
Proof. revert i flux flux'. flux_own. Qed.

Lemma FluxToGlobal1_pass flux n i :
  (is_ (pmy_block this) <= i <= ie (pmy_block this) + 1)%Z ->
  FluxToGlobal1 mag this k j flux n i
  = FluxToGlobal1_body mag this k j i flux n i.
Proof.
  intros Hi. unfold FluxToGlobal1.
  apply (for_loop_pass_in (fun (f : Array2 VarIndex) n l => f n l)
           (FluxToGlobal1_body mag this k j)).
  - intros; now apply FluxToGlobal1_other.
  - intros; now apply FluxToGlobal1_own.
  - exact Hi.
Qed.

Lemma FluxToGlobal2_pass flux n i :
  (is_ (pmy_block this) <= i <= ie (pmy_block this))%Z ->
  FluxToGlobal2 mag this k j flux n i
  = FluxToGlobal2_body mag this k j i flux n i.
Proof.
  intros Hi. unfold FluxToGlobal2.
  apply (for_loop_pass_in (fun (f : Array2 VarIndex) n l => f n l)
           (FluxToGlobal2_body mag this k j)).
  - intros; now apply FluxToGlobal2_other.
  - intros; now apply FluxToGlobal2_own.
  - exact Hi.
Qed.

Lemma FluxToGlobal3_pass flux n i :
  (is_ (pmy_block this) <= i <= ie (pmy_block this))%Z ->
  FluxToGlobal3 mag this k j flux n i
  = FluxToGlobal3_body mag this k j i flux n i.
Proof.
  intros Hi. unfold FluxToGlobal3.
  apply (for_loop_pass_in (fun (f : Array2 VarIndex) n l => f n l)
           (FluxToGlobal3_body mag this k j)).
  - intros; now apply FluxToGlobal3_other.
  - intros; now apply FluxToGlobal3_own.
  - exact Hi.
Qed.

End FluxPasses.

(** ** Velocities in the local frame *)

Lemma source_u0 g11 g12 v1 v2 v3 :
  sqrt (-1.0 / (-1.0 + g11*v1*v1 + 2.0*g12*v1*v2 + 1.0*v2*v2 + 1.0*v3*v3))
  = four_velocity0 g11 g12 v1 v2 v3.
Proof.
  unfold four_velocity0. autorewrite with literals. rewrite !Rmult_1_l.
  reflexivity.
Qed.

Lemma four_velocity0_pos g11 beta_ v1 v2 v3 :
  norm_bracket g11 beta_ v1 v2 v3 < 0 ->
  0 < four_velocity0 g11 (- beta_) v1 v2 v3.
Proof.
  intros H. unfold four_velocity0. apply sqrt_lt_R0.
  fold (norm_bracket g11 beta_ v1 v2 v3).
  apply Rdiv_neg_neg; lra.
Qed.

(** Reading a slot of the result of a [PrimToLocal] function at an interface
    of its range. *)
Ltac local_slot pass body :=
  rewrite pass by assumption;
  cbv beta iota zeta delta [body];
  try match goal with |- context [if ?m then _ else _] => destruct m end;
  cbn [local_get fst snd]; unfold set2, set1, IVX, IVY, IVZ;
  rewrite ?Z.eqb_refl; cbn [VarIndex_eqb andb];
  rewrite ?source_u0; autorewrite with literals; rewrite ?Rmult_1_l.

Section LocalVelocities.

Variable mag : bool.
Variable this : Coordinates.
Variables k j : Z.
Variable b_vals : Array3.
Variables prim_left prim_right : Array2 VarIndex.
Variable bn : Array1.
Variable i : Z.

Lemma PrimToLocal1_velocities :
  (is_ (pmy_block this) <= i <= ie (pmy_block this) + 1)%Z ->
  let out := PrimToLocal1 mag this k j b_vals prim_left prim_right bn in
  let t := trans_face1_i2_ this i in
  let u0 := fun p : Array2 VarIndex =>
    four_velocity0 (metric_face1_i1_ this i) (- metric_face1_i2_ this i)
      (p IVX i) (p IVY i) (p IVZ i) in
  forall side : bool,
    let p := if side then prim_left else prim_right in
    let q := if side then fst (fst out) else snd (fst out) in
    q IVX i = u0 p * p IVX i / u0 p /\
    q IVY i = (- t * (u0 p * p IVX i) + u0 p * p IVY i) / u0 p /\
    q IVZ i = u0 p * p IVZ i / u0 p.
Proof.
  intros Hi out t u0 side. subst out t u0.
  destruct side; cbv zeta; repeat split.
  all: match goal with
       | |- fst (fst ?o) ?n i = _ =>
           change (fst (fst o) n i) with (local_get o (LeftSlot n) i)
       | |- snd (fst ?o) ?n i = _ =>
           change (snd (fst o) n i) with (local_get o (RightSlot n) i)
       end.
  all: local_slot PrimToLocal1_pass PrimToLocal1_body; reflexivity.
Qed.

Lemma PrimToLocal2_velocities :
  (is_ (pmy_block this) <= i <= ie (pmy_block this))%Z ->
  let out := PrimToLocal2 mag this k j b_vals prim_left prim_right bn in
  let a := trans_face2_i1_ this i in
  let b := trans_face2_i2_ this i in
  let u0 := fun p : Array2 VarIndex =>
    four_velocity0 (metric_face2_i1_ this i) (- metric_face2_i2_ this i)
      (p IVX i) (p IVY i) (p IVZ i) in
  forall side : bool,
    let p := if side then prim_left else prim_right in
    let q := if side then fst (fst out) else snd (fst out) in
    q IVY i = 1 / a * (u0 p * p IVY i) / u0 p /\
    q IVZ i = u0 p * p IVZ i / u0 p /\
    q IVX i = (a * (u0 p * p IVX i) + - b / a * (u0 p * p IVY i)) / u0 p.
Proof.
  intros Hi out a b u0 side. subst out a b u0.
  destruct side; cbv zeta; repeat split.
  all: match goal with
       | |- fst (fst ?o) ?n i = _ =>
           change (fst (fst o) n i) with (local_get o (LeftSlot n) i)
       | |- snd (fst ?o) ?n i = _ =>
           change (snd (fst o) n i) with (local_get o (RightSlot n) i)
       end.
  all: local_slot PrimToLocal2_pass PrimToLocal2_body; reflexivity.
Qed.

Lemma PrimToLocal3_velocities :
  (is_ (pmy_block this) <= i <= ie (pmy_block this))%Z ->
  let out := PrimToLocal3 mag this k j b_vals prim_left prim_right bn in
  let t := trans_face3_i2_ this i in
  let u0 := fun p : Array2 VarIndex =>
    four_velocity0 (metric_face3_i1_ this i) (- metric_face3_i2_ this i)
      (p IVX i) (p IVY i) (p IVZ i) in
  forall side : bool,
    let p := if side then prim_left else prim_right in
    let q := if side then fst (fst out) else snd (fst out) in
    q IVZ i = u0 p * p IVZ i / u0 p /\
    q IVX i = u0 p * p IVX i / u0 p /\
    q IVY i = (- t * (u0 p * p IVX i) + u0 p * p IVY i) / u0 p.
Proof.
  intros Hi out t u0 side. subst out t u0.
  destruct side; cbv zeta; repeat split.
  all: match goal with
       | |- fst (fst ?o) ?n i = _ =>
           change (fst (fst o) n i) with (local_get o (LeftSlot n) i)
       | |- snd (fst ?o) ?n i = _ =>
           change (snd (fst o) n i) with (local_get o (RightSlot n) i)
       end.
  all: local_slot PrimToLocal3_pass PrimToLocal3_body; reflexivity.
Qed.

(** Density and pressure go through a [PrimToLocal] function untouched. *)
Lemma PrimToLocal1_thermo n :
  (is_ (pmy_block this) <= i <= ie (pmy_block this) + 1)%Z ->
  n = IDN \/ n = IEN ->
  let out := PrimToLocal1 mag this k j b_vals prim_left prim_right bn in
  fst (fst out) n i = prim_left n i /\ snd (fst out) n i = prim_right n i.
Proof.
  intros Hi Hn out. subst out. split.
  - change (fst (fst ?o) n i) with (local_get o (LeftSlot n) i).
    destruct Hn; subst n;
      local_slot PrimToLocal1_pass PrimToLocal1_body; reflexivity.
  - change (snd (fst ?o) n i) with (local_get o (RightSlot n) i).
    destruct Hn; subst n;
      local_slot PrimToLocal1_pass PrimToLocal1_body; reflexivity.
Qed.

Lemma PrimToLocal2_thermo n :
  (is_ (pmy_block this) <= i <= ie (pmy_block this))%Z ->
  n = IDN \/ n = IEN ->
  let out := PrimToLocal2 mag this k j b_vals prim_left prim_right bn in
  fst (fst out) n i = prim_left n i /\ snd (fst out) n i = prim_right n i.
Proof.
  intros Hi Hn out. subst out. split.
  - change (fst (fst ?o) n i) with (local_get o (LeftSlot n) i).
    destruct Hn; subst n;
      local_slot PrimToLocal2_pass PrimToLocal2_body; reflexivity.
  - change (snd (fst ?o) n i) with (local_get o (RightSlot n) i).
    destruct Hn; subst n;
      local_slot PrimToLocal2_pass PrimToLocal2_body; reflexivity.
Qed.

Lemma PrimToLocal3_thermo n :
  (is_ (pmy_block this) <= i <= ie (pmy_block this))%Z ->
  n = IDN \/ n = IEN ->
  let out := PrimToLocal3 mag this k j b_vals prim_left prim_right bn in
  fst (fst out) n i = prim_left n i /\ snd (fst out) n i = prim_right n i.
Proof.
  intros Hi Hn out. subst out. split.
  - change (fst (fst ?o) n i) with (local_get o (LeftSlot n) i).
    destruct Hn; subst n;
      local_slot PrimToLocal3_pass PrimToLocal3_body; reflexivity.
  - change (snd (fst ?o) n i) with (local_get o (RightSlot n) i).
    destruct Hn; subst n;
      local_slot PrimToLocal3_pass PrimToLocal3_body; reflexivity.
Qed.

End LocalVelocities.

(** ** Interfaces without shear, and the faces of the z-direction *)

(** The block of the coordinates made by the constructor has the index
    bounds of the block it was made for. *)
Lemma ctor_bounds A K NGHOST pb :
  let this := Coordinates_ctor A K NGHOST pb in
  is_ (pmy_block this) = is_ pb /\ ie (pmy_block this) = ie pb /\
  js (pmy_block this) = js pb /\ je (pmy_block this) = je pb /\
  ks (pmy_block this) = ks pb /\ ke (pmy_block this) = ke pb.
Proof.
  cbv zeta. rewrite ctor_pmy_block.
  pose proof (init_block_same_grid NGHOST pb) as
    (G1 & G2 & G3 & G4 & G5 & G6 & _).
  repeat split; assumption.
Qed.

(** C7.  At an interface [i] of the x-direction where [cos (K x1f(i))]
    vanishes the face-centered [beta] stored by the constructor is 0 and the
    face-centered [alphaSquared] is 1, and [PrimToLocal1] leaves the three
    velocity components of the left and of the right state as they are,
    whenever both input velocities are subluminal. *)
Theorem PrimToLocal1_identity_at_node
    A K NGHOST mag pb k j b1_vals (prim_left prim_right : Array2 VarIndex)
    bx i :
  in_block NGHOST pb i ->
  (is_ pb <= i <= ie pb + 1)%Z ->
  cos (K * x1f pb i) = 0 ->
  prim_left IVX i * prim_left IVX i + prim_left IVY i * prim_left IVY i
    + prim_left IVZ i * prim_left IVZ i < 1 ->
  prim_right IVX i * prim_right IVX i + prim_right IVY i * prim_right IVY i
    + prim_right IVZ i * prim_right IVZ i < 1 ->
  let this := Coordinates_ctor A K NGHOST pb in
  let out := PrimToLocal1 mag this k j b1_vals prim_left prim_right bx in
  (metric_face1_i2_ this i = 0 /\ metric_face1_i1_ this i = 1) /\
  (fst (fst out) IVX i = prim_left IVX i /\
   fst (fst out) IVY i = prim_left IVY i /\
   fst (fst out) IVZ i = prim_left IVZ i) /\
  (snd (fst out) IVX i = prim_right IVX i /\
   snd (fst out) IVY i = prim_right IVY i /\
   snd (fst out) IVZ i = prim_right IVZ i).
Proof.
  intros Hi Hr Hcos Hl Hrt this out.
  assert (Hb : metric_face1_i2_ this i = 0).
  { subst this. rewrite (ctor_metric_face1_i2 A K NGHOST pb i Hi).
    rewrite init_block_x1f, Hcos. ring. }
  assert (Ha : metric_face1_i1_ this i = 1).
  { subst this. rewrite (ctor_metric_face1_i1 A K NGHOST pb i Hi).
    rewrite init_block_x1f, Hcos. unfold SQR. autorewrite with literals.
    ring. }
  assert (Ht : trans_face1_i2_ this i = 0).
  { subst this. rewrite (ctor_trans_face1_i2 A K NGHOST pb i Hi).
    rewrite init_block_x1f, Hcos. ring. }
  assert (Hr' : (is_ (pmy_block this) <= i <= ie (pmy_block this) + 1)%Z).
  { destruct (ctor_bounds A K NGHOST pb) as (E1 & E2 & _).
    fold this in E1, E2. rewrite E1, E2. exact Hr. }
  split; [split; assumption|].
  pose proof (PrimToLocal1_velocities mag this k j b1_vals prim_left
                prim_right bx i Hr') as V.
  cbv zeta in V. fold out in V. rewrite Ha, Hb, Ht in V.
  split.
  - specialize (V true). cbv iota in V. destruct V as (V1 & V2 & V3).
    rewrite V1, V2, V3.
    assert (Hu : 0 < four_velocity0 1 (- 0) (prim_left IVX i)
                       (prim_left IVY i) (prim_left IVZ i))
      by (apply four_velocity0_pos; unfold norm_bracket; lra).
    repeat split; field; lra.
  - specialize (V false). cbv iota in V. destruct V as (V1 & V2 & V3).
    rewrite V1, V2, V3.
    assert (Hu : 0 < four_velocity0 1 (- 0) (prim_right IVX i)
                       (prim_right IVY i) (prim_right IVZ i))
      by (apply four_velocity0_pos; unfold norm_bracket; lra).
    repeat split; field; lra.
Qed.

Lemma PrimToLocal1_identity_at_node_witness :
  let prim := uniform_row 1 1 (1/2) (1/3) (1/4) 0 0 in
  let this := Coordinates_new 2 node_block in
  let out := PrimToLocal1 false this 0 0 (fun _ _ _ => 0) prim prim
               (fun _ => 0) in
  (metric_face1_i2_ this 2 = 0 /\ metric_face1_i1_ this 2 = 1) /\
  (fst (fst out) IVX 2%Z = prim IVX 2%Z /\
   fst (fst out) IVY 2%Z = prim IVY 2%Z /\
   fst (fst out) IVZ 2%Z = prim IVZ 2%Z) /\
  (snd (fst out) IVX 2%Z = prim IVX 2%Z /\
   snd (fst out) IVY 2%Z = prim IVY 2%Z /\
   snd (fst out) IVZ 2%Z = prim IVZ 2%Z).
Proof.
  intros prim.
  apply (PrimToLocal1_identity_at_node globals.A globals.K 2%Z false
           node_block 0%Z 0%Z (fun _ _ _ => 0) prim prim (fun _ => 0) 2%Z).
  - unfold in_block; simpl; lia.
  - simpl; lia.
  - unfold globals.K; simpl.
    replace (0.1 * (5 * PI + 0 * 1)) with (PI / 2) by lra. apply cos_PI2.
  - unfold prim, uniform_row, IVX, IVY, IVZ. lra.
  - unfold prim, uniform_row, IVX, IVY, IVZ. lra.
Defined.

(** C10.  For every index the constructor fills, the rotation coefficient of
    the faces of the z-direction is [beta] at the face [x1f(i)] of the
    x-direction, the same value as the coefficient of the faces of the
    x-direction, while the metric pair of the faces of the z-direction holds
    [beta] at the cell center [x1v(i)], the midpoint of [x1f(i)] and
    [x1f(i+1)].  So [PrimToLocal3] normalizes the four-velocity with the
    metric at the cell center and rotates it with the coefficient of the
    lower face. *)
Theorem face3_rotation_at_lower_face A K NGHOST pb i :
  in_block NGHOST pb i ->
  let this := Coordinates_ctor A K NGHOST pb in
  let xf := x1f pb i in
  let xv := x1v (pmy_block this) i in
  xv = 0.5 * (x1f pb i + x1f pb (i + 1)) /\
  trans_face3_i2_ this i = beta A K xf /\
  trans_face3_i2_ this i = trans_face1_i2_ this i /\
  metric_face3_i2_ this i = beta A K xv /\
  metric_face3_i1_ this i = alphaSquared A K xv /\
  forall mag k j b3_vals (prim_left prim_right : Array2 VarIndex) bz,
    (is_ pb <= i <= ie pb)%Z ->
    let out := PrimToLocal3 mag this k j b3_vals prim_left prim_right bz in
    let u0 := fun p : Array2 VarIndex =>
      four_velocity0 (alphaSquared A K xv) (- beta A K xv)
        (p IVX i) (p IVY i) (p IVZ i) in
    fst (fst out) IVY i =
      (- beta A K xf * (u0 prim_left * prim_left IVX i)
       + u0 prim_left * prim_left IVY i) / u0 prim_left /\
    snd (fst out) IVY i =
      (- beta A K xf * (u0 prim_right * prim_right IVX i)
       + u0 prim_right * prim_right IVY i) / u0 prim_right.
Proof.
  intros Hi this xf xv.
  assert (Hxv : xv = 0.5 * (x1f pb i + x1f pb (i + 1))).
  { subst xv this. rewrite ctor_pmy_block. now apply init_block_x1v. }
  assert (Ht3 : trans_face3_i2_ this i = beta A K xf).
  { subst this xf. rewrite (ctor_trans_face3_i2 A K NGHOST pb i Hi).
    now rewrite init_block_x1f. }
  assert (Ht1 : trans_face1_i2_ this i = beta A K xf).
  { subst this xf. rewrite (ctor_trans_face1_i2 A K NGHOST pb i Hi).
    now rewrite init_block_x1f. }
  assert (Hm2 : metric_face3_i2_ this i = beta A K xv).
  { subst this xv. rewrite (ctor_metric_face3_i2 A K NGHOST pb i Hi).
    now rewrite ctor_pmy_block. }
  assert (Hm1 : metric_face3_i1_ this i = alphaSquared A K xv).
  { subst this xv. rewrite (ctor_metric_face3_i1 A K NGHOST pb i Hi).
    now rewrite ctor_pmy_block, stored_alpha_sq. }
  repeat split; try assumption; try congruence.
  - pose proof (PrimToLocal3_velocities mag this k j b3_vals prim_left
                  prim_right bz i) as V.
    destruct (ctor_bounds A K NGHOST pb) as (E1 & E2 & _).
    fold this in E1, E2. rewrite E1, E2 in V. specialize (V H true).
    cbv zeta iota in V. rewrite Hm1, Hm2, Ht3 in V. apply V.
  - pose proof (PrimToLocal3_velocities mag this k j b3_vals prim_left
                  prim_right bz i) as V.
    destruct (ctor_bounds A K NGHOST pb) as (E1 & E2 & _).
    fold this in E1, E2. rewrite E1, E2 in V. specialize (V H false).
    cbv zeta iota in V. rewrite Hm1, Hm2, Ht3 in V. apply V.
Qed.

Lemma face3_rotation_at_lower_face_witness :
  let this := Coordinates_new 2 third_block in
  let xf := x1f third_block 2 in
  let xv := x1v (pmy_block this) 2 in
  let prim := uniform_row 1 1 (2/5) 0 (4/5) 0 0 in
  let out := PrimToLocal3 false this 0 0 (fun _ _ _ => 0) prim prim
               (fun _ => 0) in
  let u0 := fun p : Array2 VarIndex =>
    four_velocity0 (alphaSquared globals.A globals.K xv)
      (- beta globals.A globals.K xv) (p IVX 2%Z) (p IVY 2%Z) (p IVZ 2%Z) in
  trans_face3_i2_ this 2 = beta globals.A globals.K xf /\
  metric_face3_i2_ this 2 = beta globals.A globals.K xv /\
  fst (fst out) IVY 2%Z =
    (- beta globals.A globals.K xf * (u0 prim * prim IVX 2%Z)
     + u0 prim * prim IVY 2%Z) / u0 prim.
Proof.
  intros this xf xv prim out u0.
  destruct (face3_rotation_at_lower_face globals.A globals.K 2%Z third_block
              2%Z) as (_ & H2 & _ & H4 & _ & H6).
  - unfold in_block; simpl; lia.
  - split; [exact H2|]. split; [exact H4|].
    refine (proj1 (H6 false 0%Z 0%Z (fun _ _ _ => 0) prim prim (fun _ => 0)
                     _)).
    simpl; lia.
Defined.

(** ** The block [third_block] *)

Lemma third_block_positions :
  let pb := init_block 2 third_block in
  globals.K * x1f pb 2 = 0 /\
  globals.K * x1f pb (2 + 1) = 2 * (PI / 3) /\
  globals.K * x1v pb 2 = PI / 3 /\
  dx1f pb 2 = 20 * PI / 3.
Proof.
  cbv zeta.
  rewrite init_block_x1v by (unfold in_block; simpl; lia).
  rewrite init_block_x1f, init_block_dx1f.
  unfold globals.K; simpl. repeat split; lra.
Qed.

Lemma third_block_geometry :
  let this := Coordinates_new 2 third_block in
  (metric_cell_i1_ this 2 = 5/4 /\ metric_cell_i2_ this 2 = 1/2 /\
   src_terms_i1_ this 2 = 9 / (40 * PI)) /\
  (metric_face3_i1_ this 2 = 5/4 /\ metric_face3_i2_ this 2 = 1/2 /\
   trans_face3_i2_ this 2 = 1).
Proof.
  cbv zeta. unfold Coordinates_new.
  assert (Hi : in_block 2 third_block 2) by (unfold in_block; simpl; lia).
  destruct third_block_positions as (Pm & Pp & Pc & Pd).
  rewrite (ctor_metric_cell_i1 globals.A globals.K _ _ _ Hi),
    (ctor_metric_cell_i2 globals.A globals.K _ _ _ Hi),
    (ctor_src_terms globals.A globals.K _ _ _ Hi),
    (ctor_metric_face3_i1 globals.A globals.K _ _ _ Hi),
    (ctor_metric_face3_i2 globals.A globals.K _ _ _ Hi),
    (ctor_trans_face3_i2 globals.A globals.K _ _ _ Hi).
  rewrite Pm, Pp, Pc, Pd, cos_0, cos_PI3, cos_2PI3.
  unfold globals.A, globals.K, SQR. autorewrite with literals.
  pose proof PI_RGT_0.
  repeat split; field; lra.
Qed.

Lemma third_block_bounds :
  let this := Coordinates_new 2 third_block in
  is_ (pmy_block this) = 2%Z /\ ie (pmy_block this) = 2%Z /\
  js (pmy_block this) = 0%Z /\ je (pmy_block this) = 0%Z /\
  ks (pmy_block this) = 0%Z /\ ke (pmy_block this) = 0%Z.
Proof. apply (ctor_bounds globals.A globals.K 2 third_block). Qed.

Lemma four_velocity0_at_rest g11 g12 : four_velocity0 g11 g12 0 0 0 = 1.
Proof.
  unfold four_velocity0.
  replace (-1 / (-1 + g11 * 0 * 0 + 2 * g12 * 0 * 0 + 0 * 0 + 0 * 0))
    with 1 by (field; lra).
  apply sqrt_1.
Qed.

Lemma sqrt_of_square x y : 0 <= y -> x = y * y -> sqrt x = y.
Proof. intros Hy ->. now apply sqrt_square. Qed.

(** ** Left and right states in [PrimToLocal3] *)

(** Without magnetic fields equal left and right inputs give equal left and
    right outputs. *)
Lemma PrimToLocal3_symmetric_without_fields
    this k j b3_vals (prim_left prim_right : Array2 VarIndex) bz i :
  (is_ (pmy_block this) <= i <= ie (pmy_block this))%Z ->
  (forall n, prim_left n i = prim_right n i) ->
  let out := PrimToLocal3 false this k j b3_vals prim_left prim_right bz in
  forall n, fst (fst out) n i = snd (fst out) n i.
Proof.
  intros Hi Heq out n. subst out.
  change (fst (fst ?o) n i) with (local_get o (LeftSlot n) i).
  change (snd (fst ?o) n i) with (local_get o (RightSlot n) i).
  rewrite !PrimToLocal3_pass by assumption.
  cbv beta iota zeta delta [PrimToLocal3_body].
  cbn [local_get fst snd]; unfold set2, IVX, IVY, IVZ.
  rewrite Z.eqb_refl.
  pose proof (Heq IM1) as E1. pose proof (Heq IM2) as E2.
  pose proof (Heq IM3) as E3.
  destruct n; cbn [VarIndex_eqb andb]; rewrite ?E1, ?E2, ?E3;
    try reflexivity; apply Heq.
Qed.

(** With magnetic fields the velocities of equal inputs still come out
    equal. *)
Lemma PrimToLocal3_symmetric_velocities
    mag this k j b3_vals (prim_left prim_right : Array2 VarIndex) bz i :
  (is_ (pmy_block this) <= i <= ie (pmy_block this))%Z ->
  (forall n, prim_left n i = prim_right n i) ->
  let out := PrimToLocal3 mag this k j b3_vals prim_left prim_right bz in
  forall n, n = IVX \/ n = IVY \/ n = IVZ ->
            fst (fst out) n i = snd (fst out) n i.
Proof.
  intros Hi Heq out n Hn.
  pose proof (PrimToLocal3_velocities mag this k j b3_vals prim_left
                prim_right bz i Hi) as V.
  cbv zeta in V. fold out in V.
  destruct (V true) as (L3 & L1 & L2), (V false) as (R3 & R1 & R2).
  cbv iota in *.
  destruct Hn as [->|[->| ->]].
  - rewrite L1, R1, !Heq. reflexivity.
  - rewrite L2, R2, !Heq. reflexivity.
  - rewrite L3, R3, !Heq. reflexivity.
Qed.

(** C6 at a state at rest with magnetic fields: the left and the right state
    are the same, with [B^1 = 2] and [B^2 = 3] in the slots [IBY], [IBZ] and
    [B^3 = 1] on the face.  The left state gets the fields [(1, 2)] in
    [IBY], [IBZ], the right state gets [(2, 1)]. *)
Theorem PrimToLocal3_magnetic_slots_differ :
  let this := Coordinates_new 2 third_block in
  let b3_vals : Array3 := fun _ _ _ => 1 in
  let prim := uniform_row 1 1 0 0 0 2 3 in
  let out := PrimToLocal3 true this 0 0 b3_vals prim prim (fun _ => 0) in
  (fst (fst out) IBY 2%Z = 1 /\ fst (fst out) IBZ 2%Z = 2) /\
  (snd (fst out) IBY 2%Z = 2 /\ snd (fst out) IBZ 2%Z = 1) /\
  fst (fst out) IBY 2%Z <> snd (fst out) IBY 2%Z /\
  fst (fst out) IBZ 2%Z <> snd (fst out) IBZ 2%Z.
Proof.
  intros this b3_vals prim out.
  destruct third_block_bounds as (Bs & Be & _). fold this in Bs, Be.
  destruct third_block_geometry as (_ & (G1 & G2 & G3)). fold this in G1, G2, G3.
  assert (Hi : (is_ (pmy_block this) <= 2 <= ie (pmy_block this))%Z)
    by (rewrite Bs, Be; lia).
  assert (V : (fst (fst out) IBY 2%Z = 1 /\ fst (fst out) IBZ 2%Z = 2) /\
              (snd (fst out) IBY 2%Z = 2 /\ snd (fst out) IBZ 2%Z = 1)).
  { subst out. repeat split.
    all: match goal with
         | |- fst (fst ?o) ?n ?i = _ =>
             change (fst (fst o) n i) with (local_get o (LeftSlot n) i)
         | |- snd (fst ?o) ?n ?i = _ =>
             change (snd (fst o) n i) with (local_get o (RightSlot n) i)
         end.
    all: local_slot PrimToLocal3_pass PrimToLocal3_body.
    all: subst prim b3_vals; cbv beta iota delta [uniform_row].
    all: rewrite !four_velocity0_at_rest, ?G1, ?G2, ?G3; field. }
  destruct V as ((V1 & V2) & (V3 & V4)).
  repeat split; try assumption.
  - rewrite V1, V3. lra.
  - rewrite V2, V4. lra.
Qed.

(** ** The source term in the block [third_block] *)

Lemma four_velocity0_third_plus : four_velocity0 (5/4) (1/2) (2/5) 0 (4/5) = 5/2.
Proof. unfold four_velocity0. apply sqrt_of_square; [lra | field]. Qed.

Lemma four_velocity0_third : four_velocity0 (5/4) (- (1/2)) (2/5) 0 (4/5) = 5/2.
Proof. unfold four_velocity0. apply sqrt_of_square; [lra | field]. Qed.

Lemma third_block_gamma :
  GetGamma (pf_eos (pfluid (pmy_block (Coordinates_new 2 third_block)))) = 2.
Proof.
  unfold Coordinates_new. rewrite ctor_pmy_block.
  pose proof (init_block_same_grid 2 third_block) as G.
  unfold same_grid in G.
  destruct G as (_ & _ & _ & _ & _ & _ & _ & _ & _ & _ & _ & _ & _ & G).
  rewrite G. reflexivity.
Qed.

(** C1 at the interior cell [(0,0,2)] of [third_block], where
    [alphaSquared = 5/4], [beta = 1/2] and [sourceCoeff = 9/(40 PI)], for the
    state [rho = pgas = 1], [v = (2/5, 0, 4/5)], [gamma = 2] and [dt = 1]:
    the call adds [27/(80 PI)] to the x1-momentum, the formula with
    [g12 = - beta] gives [- 27/(80 PI)]. *)
Theorem source_term_sign_of_g12 :
  let this := Coordinates_new 2 third_block in
  let prim := uniform_state 1 1 (2/5) 0 (4/5) in
  let cons := uniform_state 0 0 0 0 0 in
  let cons' := snd (CoordinateSourceTerms this 1 prim cons) in
  let spec :=
    spec_momentum1_increment 1 (GetGamma (pf_eos (pfluid (pmy_block this))))
      (src_terms_i1_ this 2) (metric_cell_i1_ this 2) (metric_cell_i2_ this 2)
      (prim IDN 0 0 2)%Z (prim IEN 0 0 2)%Z (prim IVX 0 0 2)%Z
      (prim IVY 0 0 2)%Z (prim IVZ 0 0 2)%Z in
  interior (pmy_block this) 0 0 2 /\
  cons' IM1 0%Z 0%Z 2%Z = cons IM1 0%Z 0%Z 2%Z + 27 / (80 * PI) /\
  spec = - 27 / (80 * PI) /\
  cons' IM1 0%Z 0%Z 2%Z <> cons IM1 0%Z 0%Z 2%Z + spec.
Proof.
  intros this prim cons cons' spec.
  destruct third_block_bounds as (Bs & Be & Bjs & Bje & Bks & Bke).
  fold this in Bs, Be, Bjs, Bje, Bks, Bke.
  destruct third_block_geometry as ((G1 & G2 & G3) & _).
  fold this in G1, G2, G3.
  pose proof third_block_gamma as Hg. fold this in Hg.
  pose proof PI_RGT_0 as HPI.
  assert (Hin : interior (pmy_block this) 0 0 2)
    by (unfold interior; rewrite Bs, Be, Bjs, Bje, Bks, Bke; lia).
  assert (Hcode : cons' IM1 0%Z 0%Z 2%Z
                  = cons IM1 0%Z 0%Z 2%Z + 27 / (80 * PI)).
  { subst cons'. rewrite CoordinateSourceTerms_values.
    apply interiorb_spec in Hin. rewrite Hin. cbn [VarIndex_eqb andb].
    f_equal.
    unfold source_increment, source_terms_body; cbv zeta.
    unfold set4. rewrite !Z.eqb_refl. cbn [VarIndex_eqb andb].
    rewrite Hg, G1, G2, G3. subst prim.
    cbv beta iota delta [uniform_state IVX IVY IVZ].
    rewrite source_u0, four_velocity0_third_plus.
    autorewrite with literals. field. lra. }
  assert (Hspec : spec = - 27 / (80 * PI)).
  { subst spec. rewrite Hg, G1, G2, G3. subst prim.
    cbv beta iota delta [uniform_state IVX IVY IVZ].
    unfold spec_momentum1_increment; cbv zeta.
    replace (sqrt (-1 / (-1 + 5/4 * (2/5) * (2/5) + 2 * - (1/2) * (2/5) * 0
                         + 1 * 0 * 0 + 1 * (4/5) * (4/5))))
      with (5/2)
      by (symmetry; apply sqrt_of_square; [lra | field]).
    field. lra. }
  split; [exact Hin|]. split; [exact Hcode|]. split; [exact Hspec|].
  rewrite Hcode, Hspec.
  assert (0 < 27 / (80 * PI)) by (apply Rdiv_lt_0_compat; lra).
  intros E.
  assert (E' : 27 / (80 * PI) = - (27 / (80 * PI))).
  { apply (Rplus_eq_reg_l (cons IM1 0%Z 0%Z 2%Z)). rewrite E.
    f_equal. field. lra. }
  lra.
Qed.

(** ** Round trips of fluxes

    A global state goes to the local frame, the local state gives the flux
    of the flat metric, the flux goes back to the global frame.  When the
    rotation coefficients of the interface belong to its metric pair, the
    result is the flux of the global state. *)

Lemma round_trip_x1 this gamma_adi_red k j (prim : Array2 VarIndex) i :
  (is_ (pmy_block this) <= i <= ie (pmy_block this) + 1)%Z ->
  metric_face1_i1_ this i
  = 1 + metric_face1_i2_ this i * metric_face1_i2_ this i ->
  trans_face1_i2_ this i = metric_face1_i2_ this i ->
  norm_bracket (metric_face1_i1_ this i) (metric_face1_i2_ this i)
    (prim IVX i) (prim IVY i) (prim IVZ i) < 0 ->
  forall n,
    round_trip this gamma_adi_red X1 k j prim n i
    = global_flux gamma_adi_red X1 (metric_face1_i1_ this)
        (metric_face1_i2_ this) prim n i.
Proof.
  intros Hi Hg Ht Hn n.
  pose proof (four_velocity0_pos _ _ _ _ _ Hn) as Hu.
  pose proof (PrimToLocal1_velocities false this k j (fun _ _ _ => 0) prim prim
                (fun _ => 0) i Hi true) as V.
  pose proof (PrimToLocal1_thermo false this k j (fun _ _ _ => 0) prim prim
                (fun _ => 0) i IDN Hi (or_introl eq_refl)) as (Td & _).
  pose proof (PrimToLocal1_thermo false this k j (fun _ _ _ => 0) prim prim
                (fun _ => 0) i IEN Hi (or_intror eq_refl)) as (Te & _).
  cbv zeta iota in V. destruct V as (V1 & V2 & V3).
  unfold IVX, IVY, IVZ in *. rewrite Ht, Hg in *.
  set (b := metric_face1_i2_ this i) in *.
  set (v1 := prim IM1 i) in *. set (v2 := prim IM2 i) in *.
  set (v3 := prim IM3 i) in *.
  set (u0 := four_velocity0 (1 + b * b) (- b) v1 v2 v3) in *.
  replace (u0 * v1 / u0) with v1 in V1 by (field; lra).
  replace ((- b * (u0 * v1) + u0 * v2) / u0) with (v2 - b * v1) in V2
    by (field; lra).
  replace (u0 * v3 / u0) with v3 in V3 by (field; lra).
  unfold round_trip; cbv zeta.
  rewrite FluxToGlobal1_pass by exact Hi.
  cbv beta iota zeta delta [FluxToGlobal1_body]. unfold set2.
  rewrite Z.eqb_refl.
  unfold local_flux, global_flux; cbv zeta.
  unfold IVX, IVY, IVZ.
  rewrite Td, Te, V1, V2, V3, Ht, Hg.
  fold b v1 v2 v3.
  repeat match goal with
         | |- context [sqrt ?x] =>
             replace (sqrt x) with u0
               by (unfold u0, four_velocity0; f_equal; f_equal; ring)
         end.
  destruct n; cbn [VarIndex_eqb andb]; autorewrite with literals; ring.
Qed.

Lemma round_trip_x2 this gamma_adi_red k j (prim : Array2 VarIndex) i :
  (is_ (pmy_block this) <= i <= ie (pmy_block this))%Z ->
  metric_face2_i1_ this i
  = 1 + metric_face2_i2_ this i * metric_face2_i2_ this i ->
  trans_face2_i2_ this i = metric_face2_i2_ this i ->
  trans_face2_i1_ this i = sqrt (metric_face2_i1_ this i) ->
  norm_bracket (metric_face2_i1_ this i) (metric_face2_i2_ this i)
    (prim IVX i) (prim IVY i) (prim IVZ i) < 0 ->
  forall n,
    round_trip this gamma_adi_red X2 k j prim n i
    = global_flux gamma_adi_red X2 (metric_face2_i1_ this)
        (metric_face2_i2_ this) prim n i.
Proof.
  intros Hi Hg Ht Hs Hn n.
  pose proof (four_velocity0_pos _ _ _ _ _ Hn) as Hu.
  pose proof (PrimToLocal2_velocities false this k j (fun _ _ _ => 0) prim prim
                (fun _ => 0) i Hi true) as V.
  pose proof (PrimToLocal2_thermo false this k j (fun _ _ _ => 0) prim prim
                (fun _ => 0) i IDN Hi (or_introl eq_refl)) as (Td & _).
  pose proof (PrimToLocal2_thermo false this k j (fun _ _ _ => 0) prim prim
                (fun _ => 0) i IEN Hi (or_intror eq_refl)) as (Te & _).
  cbv zeta iota in V. destruct V as (V2 & V3 & V1).
  unfold IVX, IVY, IVZ in *.
  assert (Ha : 0 < trans_face2_i1_ this i).
  { rewrite Hs. apply sqrt_lt_R0. rewrite Hg. nra. }
  assert (Haa : trans_face2_i1_ this i * trans_face2_i1_ this i
                = 1 + metric_face2_i2_ this i * metric_face2_i2_ this i).
  { rewrite Hs. rewrite sqrt_sqrt; [exact Hg|].
    rewrite Hg. nra. }
  rewrite Ht, Hg in *. clear Hs.
  set (a := trans_face2_i1_ this i) in *.
  set (b := metric_face2_i2_ this i) in *.
  set (v1 := prim IM1 i) in *. set (v2 := prim IM2 i) in *.
  set (v3 := prim IM3 i) in *.
  set (u0 := four_velocity0 (1 + b * b) (- b) v1 v2 v3) in *.
  replace (1 / a * (u0 * v2) / u0) with (v2 / a) in V2 by (field; lra).
  replace (u0 * v3 / u0) with v3 in V3 by (field; lra).
  replace ((a * (u0 * v1) + - b / a * (u0 * v2)) / u0)
    with (a * v1 - b / a * v2) in V1 by (field; lra).
  unfold round_trip; cbv zeta.
  rewrite FluxToGlobal2_pass by exact Hi.
  cbv beta iota zeta delta [FluxToGlobal2_body]. unfold set2.
  rewrite Z.eqb_refl.
  unfold local_flux, global_flux; cbv zeta.
  unfold IVX, IVY, IVZ.
  rewrite Td, Te, V1, V2, V3, Ht, Hg.
  fold a b v1 v2 v3.
  assert (Hsq : forall x,
             x = -1 / (-1 + (1 + b * b) * v1 * v1 + 2 * - b * v1 * v2
                       + v2 * v2 + v3 * v3) -> sqrt x = u0)
    by (intros x ->; reflexivity).
  rewrite !(Hsq (-1 / (-1 + v2 / a * (v2 / a) + v3 * v3
                       + (a * v1 - b / a * v2) * (a * v1 - b / a * v2))))
    by (clear - Haa Ha; clearbody a b v1 v2 v3; f_equal;
        field_simplify_eq; [cbn [pow]; nsatz | lra]).
  rewrite !(Hsq (-1 / (-1 + (1 + b * b) * v1 * v1 + 2 * - b * v1 * v2
                       + 1 * v2 * v2 + 1 * v3 * v3)))
    by (f_equal; ring).
  clear Hsq V1 V2 V3 Td Te Hn Hg Ht Hi.
  generalize (prim IDN i) (prim IEN i). intros rho pgas.
  clearbody u0 a b v1 v2 v3. clear this prim.
  destruct n; cbn [VarIndex_eqb andb]; autorewrite with literals;
    first [ field; lra | field_simplify_eq; [cbn [pow]; nsatz | lra] ].
Qed.

Lemma round_trip_x3_consistent this gamma_adi_red k j (prim : Array2 VarIndex)
    i :
  (is_ (pmy_block this) <= i <= ie (pmy_block this))%Z ->
  metric_face3_i1_ this i
  = 1 + metric_face3_i2_ this i * metric_face3_i2_ this i ->
  trans_face3_i2_ this i = metric_face3_i2_ this i ->
  norm_bracket (metric_face3_i1_ this i) (metric_face3_i2_ this i)
    (prim IVX i) (prim IVY i) (prim IVZ i) < 0 ->
  forall n,
    round_trip this gamma_adi_red X3 k j prim n i
    = global_flux gamma_adi_red X3 (metric_face3_i1_ this)
        (metric_face3_i2_ this) prim n i.
Proof.
  intros Hi Hg Ht Hn n.
  pose proof (four_velocity0_pos _ _ _ _ _ Hn) as Hu.
  pose proof (PrimToLocal3_velocities false this k j (fun _ _ _ => 0) prim prim
                (fun _ => 0) i Hi true) as V.
  pose proof (PrimToLocal3_thermo false this k j (fun _ _ _ => 0) prim prim
                (fun _ => 0) i IDN Hi (or_introl eq_refl)) as (Td & _).
  pose proof (PrimToLocal3_thermo false this k j (fun _ _ _ => 0) prim prim
                (fun _ => 0) i IEN Hi (or_intror eq_refl)) as (Te & _).
  cbv zeta iota in V. destruct V as (V3 & V1 & V2).
  unfold IVX, IVY, IVZ in *. rewrite Ht, Hg in *.
  set (b := metric_face3_i2_ this i) in *.
  set (v1 := prim IM1 i) in *. set (v2 := prim IM2 i) in *.
  set (v3 := prim IM3 i) in *.
  set (u0 := four_velocity0 (1 + b * b) (- b) v1 v2 v3) in *.
  replace (u0 * v1 / u0) with v1 in V1 by (field; lra).
  replace ((- b * (u0 * v1) + u0 * v2) / u0) with (v2 - b * v1) in V2
    by (field; lra).
  replace (u0 * v3 / u0) with v3 in V3 by (field; lra).
  unfold round_trip; cbv zeta.
  rewrite FluxToGlobal3_pass by exact Hi.
  cbv beta iota zeta delta [FluxToGlobal3_body]. unfold set2.
  rewrite Z.eqb_refl.
  unfold local_flux, global_flux; cbv zeta.
  unfold IVX, IVY, IVZ.
  rewrite Td, Te, V1, V2, V3, Ht, Hg.
  fold b v1 v2 v3.
  repeat match goal with
         | |- context [sqrt ?x] =>
             replace (sqrt x) with u0
               by (unfold u0, four_velocity0; f_equal; f_equal; ring)
         end.
  destruct n; cbn [VarIndex_eqb andb]; autorewrite with literals; ring.
Qed.

(** For coordinates made by the constructor the round trips through the
    interfaces of the x- and of the y-direction give back the global flux of
    every subluminal state. *)
Lemma round_trip_constructed_x1 A K NGHOST pb gamma_adi_red k j
    (prim : Array2 VarIndex) i :
  in_block NGHOST pb i ->
  (is_ pb <= i <= ie pb + 1)%Z ->
  norm_bracket (metric_face1_i1_ (Coordinates_ctor A K NGHOST pb) i)
    (metric_face1_i2_ (Coordinates_ctor A K NGHOST pb) i)
    (prim IVX i) (prim IVY i) (prim IVZ i) < 0 ->
  forall n,
    round_trip (Coordinates_ctor A K NGHOST pb) gamma_adi_red X1 k j prim n i
    = global_flux gamma_adi_red X1
        (metric_face1_i1_ (Coordinates_ctor A K NGHOST pb))
        (metric_face1_i2_ (Coordinates_ctor A K NGHOST pb)) prim n i.
Proof.
  intros Hi Hr Hn n.
  destruct (ctor_bounds A K NGHOST pb) as (E1 & E2 & _).
  pose proof (ctor_pairs A K NGHOST pb i Hi) as (_ & P1 & _).
  apply round_trip_x1.
  - rewrite E1, E2. exact Hr.
  - exact P1.
  - rewrite (ctor_trans_face1_i2 A K NGHOST pb i Hi),
      (ctor_metric_face1_i2 A K NGHOST pb i Hi). reflexivity.
  - exact Hn.
Qed.

Lemma round_trip_constructed_x2 A K NGHOST pb gamma_adi_red k j
    (prim : Array2 VarIndex) i :
  in_block NGHOST pb i ->
  (is_ pb <= i <= ie pb)%Z ->
  norm_bracket (metric_face2_i1_ (Coordinates_ctor A K NGHOST pb) i)
    (metric_face2_i2_ (Coordinates_ctor A K NGHOST pb) i)
    (prim IVX i) (prim IVY i) (prim IVZ i) < 0 ->
  forall n,
    round_trip (Coordinates_ctor A K NGHOST pb) gamma_adi_red X2 k j prim n i
    = global_flux gamma_adi_red X2
        (metric_face2_i1_ (Coordinates_ctor A K NGHOST pb))
        (metric_face2_i2_ (Coordinates_ctor A K NGHOST pb)) prim n i.
Proof.
  intros Hi Hr Hn n.
  destruct (ctor_bounds A K NGHOST pb) as (E1 & E2 & _).
  pose proof (ctor_pairs A K NGHOST pb i Hi) as (_ & _ & P2 & _).
  apply round_trip_x2.
  - rewrite E1, E2. exact Hr.
  - exact P2.
  - rewrite (ctor_trans_face2_i2 A K NGHOST pb i Hi),
      (ctor_metric_face2_i2 A K NGHOST pb i Hi). reflexivity.
  - rewrite (ctor_trans_face2_i1 A K NGHOST pb i Hi),
      (ctor_metric_face2_i1 A K NGHOST pb i Hi). reflexivity.
  - exact Hn.
Qed.

(** C5 at the interface 2 of the z-direction of [third_block], where the
    metric pair is [(5/4, 1/2)] and the rotation coefficient is 1, for the
    subluminal state [rho = pgas = 1], [v = (2/5, 0, 4/5)] with
    [gamma/(gamma-1) = 2]: the density flux of the global state is 2, the
    round trip gives 4. *)
Theorem round_trip_x3_density_flux :
  let this := Coordinates_new 2 third_block in
  let prim := uniform_row 1 1 (2/5) 0 (4/5) 0 0 in
  interface_range (pmy_block this) X3 2 /\
  norm_bracket (metric_face3_i1_ this 2) (metric_face3_i2_ this 2)
    (prim IVX 2%Z) (prim IVY 2%Z) (prim IVZ 2%Z) < 0 /\
  global_flux 2 X3 (metric_face3_i1_ this) (metric_face3_i2_ this) prim
    IDN 2%Z = 2 /\
  round_trip this 2 X3 0 0 prim IDN 2%Z = 4 /\
  round_trip this 2 X3 0 0 prim IDN 2%Z
  <> global_flux 2 X3 (metric_face3_i1_ this) (metric_face3_i2_ this) prim
       IDN 2%Z.
Proof.
  intros this prim.
  destruct third_block_bounds as (Bs & Be & _). fold this in Bs, Be.
  destruct third_block_geometry as (_ & (G1 & G2 & G3)).
  fold this in G1, G2, G3.
  assert (Hi : (is_ (pmy_block this) <= 2 <= ie (pmy_block this))%Z)
    by (rewrite Bs, Be; lia).
  assert (Hglobal :
            global_flux 2 X3 (metric_face3_i1_ this) (metric_face3_i2_ this)
              prim IDN 2%Z = 2).
  { unfold global_flux; cbv zeta. rewrite G1, G2.
    subst prim. cbv beta iota delta [uniform_row IVX IVY IVZ].
    rewrite (sqrt_of_square _ (5/2)); [field | lra | field]. }
  assert (Hround : round_trip this 2 X3 0 0 prim IDN 2%Z = 4).
  { unfold round_trip; cbv zeta.
    rewrite FluxToGlobal3_pass by exact Hi.
    cbv beta iota zeta delta [FluxToGlobal3_body]. unfold set2.
    rewrite Z.eqb_refl. cbn [VarIndex_eqb andb].
    unfold local_flux at 1. cbn [VarIndex_eqb].
    pose proof (PrimToLocal3_velocities false this 0 0 (fun _ _ _ => 0) prim
                  prim (fun _ => 0) 2 Hi true) as V.
    pose proof (PrimToLocal3_thermo false this 0 0 (fun _ _ _ => 0) prim prim
                  (fun _ => 0) 2 IDN Hi (or_introl eq_refl)) as T.
    cbv zeta iota in V, T. destruct V as (V3 & V1 & V2). destruct T as (T & _).
    rewrite T, V1, V2, V3, G1, G2, G3.
    subst prim. cbv beta iota delta [uniform_row IVX IVY IVZ].
    rewrite four_velocity0_third.
    rewrite (sqrt_of_square _ 5); [ | lra | field].
    autorewrite with literals. field. }
  split; [exact Hi|].
  split.
  { rewrite G1, G2. subst prim. cbv beta iota delta [uniform_row IVX IVY IVZ].
    unfold norm_bracket. lra. }
  split; [exact Hglobal|]. split; [exact Hround|].
  rewrite Hglobal, Hround. lra.
Qed.

(** * Further properties *)

(** ** Areas, lengths and volumes *)

Lemma Face1Area_values this k j il iu areas i :
  Face1Area this k j il iu areas i =
  if ((il <=? i) && (i <=? iu))%Z
  then dx2f (pmy_block this) j * dx3f (pmy_block this) k
  else areas i.
Proof.
  unfold Face1Area; cbv zeta.
  apply (for_loop_columns (fun (v : Array1) l => v l)
           (fun _ _ => dx2f (pmy_block this) j * dx3f (pmy_block this) k)).
  intros l v m. unfold set1. reflexivity.
Qed.

Lemma Face2Area_values this k j il iu areas i :
  Face2Area this k j il iu areas i =
  if ((il <=? i) && (i <=? iu))%Z
  then dx1f (pmy_block this) i * dx3f (pmy_block this) k
  else areas i.
Proof.
  unfold Face2Area; cbv zeta.
  apply (for_loop_columns (fun (v : Array1) l => v l)
           (fun l _ => dx1f (pmy_block this) l * dx3f (pmy_block this) k)).
  intros l v m. unfold set1. reflexivity.
Qed.

Lemma Face3Area_values this k j il iu areas i :
  Face3Area this k j il iu areas i =
  if ((il <=? i) && (i <=? iu))%Z
  then dx1f (pmy_block this) i * dx2f (pmy_block this) j
  else areas i.
Proof.
  unfold Face3Area; cbv zeta.
  apply (for_loop_columns (fun (v : Array1) l => v l)
           (fun l _ => dx1f (pmy_block this) l * dx2f (pmy_block this) j)).
  intros l v m. unfold set1. reflexivity.
Qed.

Lemma Edge1Length_values this k j il iu len i :
  Edge1Length this k j il iu len i =
  if ((il <=? i) && (i <=? iu))%Z then dx1f (pmy_block this) i else len i.
Proof.
  unfold Edge1Length.
  apply (for_loop_columns (fun (v : Array1) l => v l)
           (fun l _ => dx1f (pmy_block this) l)).
  intros l v m. unfold set1. reflexivity.
Qed.

Lemma Edge2Length_values this k j il iu len i :
  Edge2Length this k j il iu len i =
  if ((il <=? i) && (i <=? iu))%Z then dx2f (pmy_block this) j else len i.
Proof.
  unfold Edge2Length; cbv zeta.
  apply (for_loop_columns (fun (v : Array1) l => v l)
           (fun _ _ => dx2f (pmy_block this) j)).
  intros l v m. unfold set1. reflexivity.
Qed.

Lemma Edge3Length_values this k j il iu len i :
  Edge3Length this k j il iu len i =
  if ((il <=? i) && (i <=? iu))%Z then dx3f (pmy_block this) k else len i.
Proof.
  unfold Edge3Length; cbv zeta.
  apply (for_loop_columns (fun (v : Array1) l => v l)
           (fun _ _ => dx3f (pmy_block this) k)).
  intros l v m. unfold set1. reflexivity.
Qed.

Lemma range_test_true il iu i :
  (il <= i <= iu)%Z -> ((il <=? i) && (i <=? iu))%Z = true.
Proof.
  intros H. apply andb_true_iff. split; apply Z.leb_le; lia.
Qed.

Lemma range_test_false il iu i :
  ~ (il <= i <= iu)%Z -> ((il <=? i) && (i <=? iu))%Z = false.
Proof.
  intros H. destruct (Z.leb_spec il i), (Z.leb_spec i iu); simpl;
    try reflexivity; lia.
Qed.

(** X1.  At every index of the range, whatever the output arrays held
    before, the volume [CellVolume] writes is the area of the face orthogonal
    to a direction times the length of the edge along it, for each of the
    three directions. *)
Theorem volume_is_area_times_length
    this k j il iu (volumes a1 a2 a3 l1 l2 l3 : Array1) i :
  (il <= i <= iu)%Z ->
  CellVolume this k j il iu volumes i
  = Face1Area this k j il iu a1 i * Edge1Length this k j il iu l1 i /\
  CellVolume this k j il iu volumes i
  = Face2Area this k j il iu a2 i * Edge2Length this k j il iu l2 i /\
  CellVolume this k j il iu volumes i
  = Face3Area this k j il iu a3 i * Edge3Length this k j il iu l3 i.
Proof.
  intros Hi.
  rewrite CellVolume_values, Face1Area_values, Face2Area_values,
    Face3Area_values, Edge1Length_values, Edge2Length_values,
    Edge3Length_values, (range_test_true _ _ _ Hi).
  repeat split; ring.
Qed.

Lemma volume_is_area_times_length_witness :
  let this := Coordinates_new 2 third_block in
  let z : Array1 := fun _ => 0 in
  CellVolume this 0 0 2 2 z 2%Z
  = Face1Area this 0 0 2 2 z 2%Z * Edge1Length this 0 0 2 2 z 2%Z /\
  CellVolume this 0 0 2 2 z 2%Z
  = Face2Area this 0 0 2 2 z 2%Z * Edge2Length this 0 0 2 2 z 2%Z /\
  CellVolume this 0 0 2 2 z 2%Z
  = Face3Area this 0 0 2 2 z 2%Z * Edge3Length this 0 0 2 2 z 2%Z.
Proof.
  intros this z.
  apply (volume_is_area_times_length this 0%Z 0%Z 2%Z 2%Z z z z z z z z 2%Z).
  lia.
Defined.

(** X2.  The seven functions for volumes, areas and lengths write nothing
    outside the inclusive range [il..iu]; with [iu < il] they leave the whole
    output array as it was. *)
Theorem geometry_outside_range this k j il iu (out : Array1) i :
  ~ (il <= i <= iu)%Z ->
  CellVolume this k j il iu out i = out i /\
  Face1Area this k j il iu out i = out i /\
  Face2Area this k j il iu out i = out i /\
  Face3Area this k j il iu out i = out i /\
  Edge1Length this k j il iu out i = out i /\
  Edge2Length this k j il iu out i = out i /\
  Edge3Length this k j il iu out i = out i.
Proof.
  intros Hi.
  rewrite CellVolume_values, Face1Area_values, Face2Area_values,
    Face3Area_values, Edge1Length_values, Edge2Length_values,
    Edge3Length_values, (range_test_false _ _ _ Hi).
  repeat split.
Qed.

Lemma geometry_outside_range_witness :
  let this := Coordinates_new 2 third_block in
  let out : Array1 := fun _ => 7 in
  CellVolume this 0 0 3 2 out 3%Z = out 3%Z /\
  Face1Area this 0 0 3 2 out 3%Z = out 3%Z /\
  Face2Area this 0 0 3 2 out 3%Z = out 3%Z /\
  Face3Area this 0 0 3 2 out 3%Z = out 3%Z /\
  Edge1Length this 0 0 3 2 out 3%Z = out 3%Z /\
  Edge2Length this 0 0 3 2 out 3%Z = out 3%Z /\
  Edge3Length this 0 0 3 2 out 3%Z = out 3%Z.
Proof.
  intros this out.
  apply (geometry_outside_range this 0%Z 0%Z 3%Z 2%Z out 3%Z). lia.
Defined.

(** ** The constructor: positions and spacings *)

Lemma init_x1v_keeps NGHOST (f : MeshBlock -> Array1) pb :
  (forall s a, f (with_x1v s a) = f s) ->
  (forall s a, f (with_dx1v s a) = f s) ->
  f (init_x1v NGHOST pb) = f pb.
Proof.
  intros H1 H2. unfold init_x1v; cbv zeta.
  apply (for_loop_preserves (fun s => f s = f pb));
    [intros ? s Hs; now rewrite H2|].
  apply (for_loop_preserves (fun s => f s = f pb));
    [intros ? s Hs; now rewrite H1|].
  reflexivity.
Qed.

Lemma init_x2v_keeps NGHOST (f : MeshBlock -> Array1) pb :
  (forall s a, f (with_x2v s a) = f s) ->
  (forall s a, f (with_dx2v s a) = f s) ->
  f (init_x2v NGHOST pb) = f pb.
Proof.
  intros H1 H2. unfold init_x2v; cbv zeta.
  destruct (nx2 (block_size pb) =? 1)%Z.
  - now rewrite H2, H1.
  - apply (for_loop_preserves (fun s => f s = f pb));
      [intros ? s Hs; now rewrite H2|].
    apply (for_loop_preserves (fun s => f s = f pb));
      [intros ? s Hs; now rewrite H1|].
    reflexivity.
Qed.

Lemma init_x3v_keeps NGHOST (f : MeshBlock -> Array1) pb :
  (forall s a, f (with_x3v s a) = f s) ->
  (forall s a, f (with_dx3v s a) = f s) ->
  f (init_x3v NGHOST pb) = f pb.
Proof.
  intros H1 H2. unfold init_x3v; cbv zeta.
  destruct (nx3 (block_size pb) =? 1)%Z.
  - now rewrite H2, H1.
  - apply (for_loop_preserves (fun s => f s = f pb));
      [intros ? s Hs; now rewrite H2|].
    apply (for_loop_preserves (fun s => f s = f pb));
      [intros ? s Hs; now rewrite H1|].
    reflexivity.
Qed.

(** After the two loops over the x-direction, a spacing between cell centers
    is the difference of the positions the first loop stored. *)
Lemma init_x1v_dx1v NGHOST pb i :
  (is_ pb - NGHOST <= i <= ie pb + NGHOST - 1)%Z ->
  dx1v (init_x1v NGHOST pb) i
  = x1v (init_x1v NGHOST pb) (i + 1) - x1v (init_x1v NGHOST pb) i.
Proof.
  intros Hi. unfold init_x1v; cbv zeta.
  set (first := for_loop _ _ _ pb).
  assert (Hb : is_ first = is_ pb /\ ie first = ie pb).
  { subst first. split.
    - apply (for_loop_preserves (fun s => is_ s = is_ pb));
        [intros ? s Hs; exact Hs | reflexivity].
    - apply (for_loop_preserves (fun s => ie s = ie pb));
        [intros ? s Hs; exact Hs | reflexivity]. }
  destruct Hb as [Hs He]. rewrite Hs, He.
  set (last := for_loop _ _ _ first).
  assert (H : (x1v last, dx1v last i)
              = (x1v first, x1v first (i + 1) - x1v first i)).
  { subst last.
    apply (for_loop_column_in (fun s l => (x1v s, dx1v s l))
             (fun l c => (fst c, fst c (l + 1)%Z - fst c l))).
    - intros l s m; cbn. unfold set1. destruct (m =? l)%Z; reflexivity.
    - exact Hi. }
  inversion H as [[H1 H2]]. rewrite H1 in *. rewrite H2. reflexivity.
Qed.

(** X3.  The constructor leaves in its block, for every [i] from
    [is-NGHOST] to [ie+NGHOST-1], the cell center [x1v(i)] at the midpoint of
    the faces [x1f(i)] and [x1f(i+1)] and the spacing
    [dx1v(i) = x1v(i+1) - x1v(i)], which is half the distance between the
    faces [x1f(i)] and [x1f(i+2)]. *)
Theorem constructor_cell_centers A K NGHOST pb i :
  (is_ pb - NGHOST <= i <= ie pb + NGHOST - 1)%Z ->
  let pb' := pmy_block (Coordinates_ctor A K NGHOST pb) in
  x1v pb' i = 0.5 * (x1f pb i + x1f pb (i + 1)) /\
  dx1v pb' i = x1v pb' (i + 1) - x1v pb' i /\
  dx1v pb' i = 0.5 * (x1f pb (i + 2) - x1f pb i).
Proof.
  intros Hi pb'. subst pb'. rewrite ctor_pmy_block.
  assert (Hx : x1v (init_block NGHOST pb) i
               = 0.5 * (x1f pb i + x1f pb (i + 1)))
    by (apply init_block_x1v; unfold in_block; lia).
  assert (Hx' : x1v (init_block NGHOST pb) (i + 1)
                = 0.5 * (x1f pb (i + 1) + x1f pb (i + 1 + 1)))
    by (apply init_block_x1v; unfold in_block; lia).
  assert (Hd : dx1v (init_block NGHOST pb) i
               = x1v (init_block NGHOST pb) (i + 1)
                 - x1v (init_block NGHOST pb) i).
  { unfold init_block.
    rewrite (init_x3v_keeps NGHOST dx1v), (init_x2v_keeps NGHOST dx1v),
      !(init_x3v_keeps NGHOST x1v), !(init_x2v_keeps NGHOST x1v)
      by reflexivity.
    now apply init_x1v_dx1v. }
  split; [exact Hx|]. split; [exact Hd|].
  rewrite Hd, Hx, Hx'. replace (i + 1 + 1)%Z with (i + 2)%Z by lia. lra.
Qed.

Lemma constructor_cell_centers_witness :
  let pb' := pmy_block (Coordinates_new 2 third_block) in
  x1v pb' 2 = 0.5 * (x1f third_block 2 + x1f third_block (2 + 1)) /\
  dx1v pb' 2 = x1v pb' (2 + 1) - x1v pb' 2 /\
  dx1v pb' 2 = 0.5 * (x1f third_block (2 + 2) - x1f third_block 2).
Proof.
  apply (constructor_cell_centers globals.A globals.K 2%Z third_block 2%Z).
  simpl; lia.
Defined.

(** X4.  In a direction without extent ([nx2 = 1], [nx3 = 1]) the
    constructor initializes the single cell of that direction only: its
    center is the midpoint of its two faces and its spacing between centers
    is copied from the spacing between the faces; every other entry of the
    two arrays is left as it was. *)
Theorem constructor_direction_without_extent A K NGHOST pb :
  let pb' := pmy_block (Coordinates_ctor A K NGHOST pb) in
  (nx2 (block_size pb) = 1%Z ->
   x2v pb' (js pb) = 0.5 * (x2f pb (js pb) + x2f pb (js pb + 1)) /\
   dx2v pb' (js pb) = dx2f pb (js pb) /\
   forall j, j <> js pb -> x2v pb' j = x2v pb j /\ dx2v pb' j = dx2v pb j) /\
  (nx3 (block_size pb) = 1%Z ->
   x3v pb' (ks pb) = 0.5 * (x3f pb (ks pb) + x3f pb (ks pb + 1)) /\
   dx3v pb' (ks pb) = dx3f pb (ks pb) /\
   forall k, k <> ks pb -> x3v pb' k = x3v pb k /\ dx3v pb' k = dx3v pb k).
Proof.
  intros pb'. subst pb'. rewrite ctor_pmy_block. unfold init_block.
  pose proof (init_x1v_same_grid NGHOST pb) as G1.
  pose proof (init_x2v_same_grid NGHOST pb _ G1) as G2.
  split; intros Hn.
  - rewrite !(init_x3v_keeps NGHOST x2v), !(init_x3v_keeps NGHOST dx2v)
      by reflexivity.
    set (p1 := init_x1v NGHOST pb) in *.
    assert (Hx : x2v p1 = x2v pb)
      by (apply (init_x1v_keeps NGHOST x2v); reflexivity).
    assert (Hd : dx2v p1 = dx2v pb)
      by (apply (init_x1v_keeps NGHOST dx2v); reflexivity).
    destruct G1 as (_ & _ & Gjs & _ & _ & _ & Gbs & _ & Gx2f & _ & _ & Gdx2f
                    & _).
    unfold init_x2v. rewrite Gbs, Hn. cbn [Z.eqb Pos.eqb]. cbv zeta. cbn.
    rewrite Gjs, Gx2f, Gdx2f, Hx, Hd. unfold set1.
    rewrite Z.eqb_refl. repeat split.
    + destruct (Z.eqb_spec j (js pb)); [contradiction | reflexivity].
    + destruct (Z.eqb_spec j (js pb)); [contradiction | reflexivity].
  - set (p2 := init_x2v NGHOST (init_x1v NGHOST pb)) in *.
    assert (Hx : x3v p2 = x3v pb).
    { subst p2. rewrite (init_x2v_keeps NGHOST x3v) by reflexivity.
      apply (init_x1v_keeps NGHOST x3v); reflexivity. }
    assert (Hd : dx3v p2 = dx3v pb).
    { subst p2. rewrite (init_x2v_keeps NGHOST dx3v) by reflexivity.
      apply (init_x1v_keeps NGHOST dx3v); reflexivity. }
    destruct G2 as (_ & _ & _ & _ & Gks & _ & Gbs & _ & _ & Gx3f & _ & _
                    & Gdx3f & _).
    unfold init_x3v. rewrite Gbs, Hn. cbn [Z.eqb Pos.eqb]. cbv zeta. cbn.
    rewrite Gks, Gx3f, Gdx3f, Hx, Hd. unfold set1.
    rewrite Z.eqb_refl. repeat split.
    + destruct (Z.eqb_spec k (ks pb)); [contradiction | reflexivity].
    + destruct (Z.eqb_spec k (ks pb)); [contradiction | reflexivity].
Qed.

Lemma constructor_direction_without_extent_witness :
  let pb' := pmy_block (Coordinates_new 2 third_block) in
  (x2v pb' (js third_block)
   = 0.5 * (x2f third_block (js third_block)
            + x2f third_block (js third_block + 1)) /\
   dx2v pb' (js third_block) = dx2f third_block (js third_block)) /\
  (x3v pb' (ks third_block)
   = 0.5 * (x3f third_block (ks third_block)
            + x3f third_block (ks third_block + 1)) /\
   dx3v pb' (ks third_block) = dx3f third_block (ks third_block)).
Proof.
  intros pb'.
  destruct (constructor_direction_without_extent globals.A globals.K 2%Z
              third_block) as [Hy Hz].
  destruct (Hy eq_refl) as (Y1 & Y2 & _).
  destruct (Hz eq_refl) as (Z1 & Z2 & _).
  split; split; assumption.
Defined.

(** ** The constructor: geometric coefficients *)

(** X5.  Where the constructor has filled two neighbouring indices and the
    face spacing does not vanish, the source coefficient times the face
    spacing is the drop of the face-centered [beta] across the cell: the
    stored [beta] of the face [i] minus that of the face [i+1]. *)
Theorem source_coefficient_is_beta_difference A K NGHOST pb i :
  in_block NGHOST pb i ->
  in_block NGHOST pb (i + 1) ->
  dx1f pb i <> 0 ->
  let c := Coordinates_ctor A K NGHOST pb in
  src_terms_i1_ c i * dx1f pb i
  = metric_face1_i2_ c i - metric_face1_i2_ c (i + 1).
Proof.
  intros Hi Hi' Hd c. subst c.
  rewrite (ctor_src_terms A K NGHOST pb i Hi),
    (ctor_metric_face1_i2 A K NGHOST pb i Hi),
    (ctor_metric_face1_i2 A K NGHOST pb (i + 1) Hi'), init_block_dx1f.
  field. exact Hd.
Qed.

Lemma source_coefficient_is_beta_difference_witness :
  let c := Coordinates_new 2 third_block in
  src_terms_i1_ c 2 * dx1f third_block 2
  = metric_face1_i2_ c 2 - metric_face1_i2_ c (2 + 1).
Proof.
  apply (source_coefficient_is_beta_difference globals.A globals.K 2%Z
           third_block 2%Z).
  - unfold in_block; simpl; lia.
  - unfold in_block; simpl; lia.
  - simpl. pose proof PI_RGT_0. lra.
Defined.

Lemma stored_alpha_sq_ge_1 A K x :
  1 <= 1.0 + SQR A * SQR K * SQR (cos (K * x)).
Proof. rewrite stored_alpha_sq. apply alphaSquared_ge_1. Qed.

(** X6.  At every index the constructor fills, the coefficient
    [trans_face2_i1_] by which [PrimToLocal2] and [FluxToGlobal2] divide is
    at least 1, hence not zero; its square is the [alphaSquared] of the
    metric pair of that face, and [trans_face2_i2_] and [trans_face1_i2_] are
    the [beta] of the metric pairs of their faces. *)
Theorem rotation_coefficients_match_metric A K NGHOST pb i :
  in_block NGHOST pb i ->
  let c := Coordinates_ctor A K NGHOST pb in
  1 <= trans_face2_i1_ c i /\
  trans_face2_i1_ c i * trans_face2_i1_ c i = metric_face2_i1_ c i /\
  trans_face2_i2_ c i = metric_face2_i2_ c i /\
  trans_face1_i2_ c i = metric_face1_i2_ c i.
Proof.
  intros Hi c. subst c.
  rewrite (ctor_trans_face2_i1 A K NGHOST pb i Hi),
    (ctor_trans_face2_i2 A K NGHOST pb i Hi),
    (ctor_trans_face1_i2 A K NGHOST pb i Hi),
    (ctor_metric_face2_i1 A K NGHOST pb i Hi),
    (ctor_metric_face2_i2 A K NGHOST pb i Hi),
    (ctor_metric_face1_i2 A K NGHOST pb i Hi).
  pose proof (stored_alpha_sq_ge_1 A K (x1v (init_block NGHOST pb) i)) as H.
  repeat split.
  - rewrite <- sqrt_1. apply sqrt_le_1; lra.
  - apply sqrt_sqrt. lra.
Qed.

Lemma rotation_coefficients_match_metric_witness :
  let c := Coordinates_new 2 third_block in
  1 <= trans_face2_i1_ c 2 /\
  trans_face2_i1_ c 2 * trans_face2_i1_ c 2 = metric_face2_i1_ c 2 /\
  trans_face2_i2_ c 2 = metric_face2_i2_ c 2 /\
  trans_face1_i2_ c 2 = metric_face1_i2_ c 2.
Proof.
  apply (rotation_coefficients_match_metric globals.A globals.K 2%Z
           third_block 2%Z).
  unfold in_block; simpl; lia.
Defined.

(** ** Cell widths *)

Lemma Rdiv_nonneg_pos x y : 0 <= x -> 0 < y -> 0 <= x / y.
Proof. intros Hx Hy. unfold Rdiv. now apply Rle_mult_inv_pos. Qed.

Lemma sin_le_abs d : 0 <= d -> - d <= sin d <= d.
Proof.
  intros Hd. destruct (Req_dec d 0) as [->|Hne].
  - rewrite sin_0. lra.
  - assert (0 < d) by lra. split.
    + destruct (Rle_dec d PI) as [Hle|Hgt].
      * pose proof (sin_ge_0 d Hd Hle). lra.
      * pose proof (SIN_bound d). pose proof PI2_1. lra.
    + apply Rlt_le. now apply sin_lt_x.
Qed.

Lemma sin_difference_bound p q :
  q <= p -> - (p - q) <= sin p - sin q <= p - q.
Proof.
  intros H. rewrite form4.
  pose proof (sin_le_abs ((p - q) / 2) ltac:(lra)) as S.
  pose proof (COS_bound ((p + q) / 2)) as C.
  set (s := sin ((p - q) / 2)) in *. set (c := cos ((p + q) / 2)) in *.
  split; nra.
Qed.

(** The width the constructor stores, between two multiples of the face
    spacing. *)
Lemma ctor_cell_width_between A K NGHOST pb i :
  in_block NGHOST pb i ->
  0 <= K ->
  dx1f pb i = x1f pb (i + 1) - x1f pb i ->
  0 <= dx1f pb i ->
  let W := cell_width1_i_ (Coordinates_ctor A K NGHOST pb) i in
  K * dx1f pb i / (1 + A * A * (K * K)) <= W <= K * dx1f pb i.
Proof.
  intros Hi HK Hdx Hpos W. subst W.
  rewrite (ctor_cell_width1 A K NGHOST pb i Hi), init_block_dx1f,
    init_block_x1f.
  unfold SQR. autorewrite with literals.
  assert (Hc : 0 <= A * A * (K * K)) by nra.
  set (c := A * A * (K * K)) in *.
  pose proof (sin_difference_bound (2 * K * x1f pb (i + 1))
                (2 * K * x1f pb i) ltac:(nra)) as S.
  replace (2 * K * x1f pb (i + 1) - 2 * K * x1f pb i)
    with (2 * K * dx1f pb i) in S by (rewrite Hdx; ring).
  set (sp := sin (2 * K * x1f pb (i + 1))) in *.
  set (sm := sin (2 * K * x1f pb i)) in *.
  set (dx := dx1f pb i) in *.
  assert (Hk : 0 <= K * dx) by nra.
  set (kd := K * dx) in *.
  replace (2 * K * (2 + c) * dx) with (2 * (2 + c) * kd)
    by (unfold kd; ring).
  replace (2 * K * dx) with (2 * kd) in S by (unfold kd; ring).
  assert (Hs : - (2 * c * kd) <= c * (sp - sm) <= 2 * c * kd) by nra.
  set (t := c * (sp - sm)) in *.
  replace (c * (sm - sp)) with (- t) by (unfold t; ring).
  split.
  - apply (Rmult_le_reg_r (4 * (1 + c))); [lra|].
    replace (kd / (1 + c) * (4 * (1 + c))) with (4 * kd) by (field; lra).
    replace (1 / (4 * (1 + c)) * (2 * (2 + c) * kd - - t) * (4 * (1 + c)))
      with (2 * (2 + c) * kd + t) by (field; lra).
    nra.
  - apply (Rmult_le_reg_r (4 * (1 + c))); [lra|].
    replace (1 / (4 * (1 + c)) * (2 * (2 + c) * kd - - t) * (4 * (1 + c)))
      with (2 * (2 + c) * kd + t) by (field; lra).
    nra.
Qed.

(** X7.  For a chart with wavenumber [K >= 0] and a cell whose spacing
    [dx1f(i) = x1f(i+1) - x1f(i)] is not negative, the width the constructor
    stores for the cell lies between [K dx1f(i) / (1 + A^2 K^2)] and
    [K dx1f(i)]; in particular it is not negative. *)
Theorem cell_width_bounds A K NGHOST pb i :
  in_block NGHOST pb i ->
  0 <= K ->
  dx1f pb i = x1f pb (i + 1) - x1f pb i ->
  0 <= dx1f pb i ->
  let W := cell_width1_i_ (Coordinates_ctor A K NGHOST pb) i in
  K * dx1f pb i / (1 + A * A * (K * K)) <= W /\ W <= K * dx1f pb i /\ 0 <= W.
Proof.
  intros Hi HK Hdx Hpos W.
  destruct (ctor_cell_width_between A K NGHOST pb i Hi HK Hdx Hpos)
    as [H1 H2].
  fold W in H1, H2. split; [exact H1|]. split; [exact H2|].
  apply Rle_trans with (2 := H1).
  apply Rdiv_nonneg_pos; nra.
Qed.

Lemma cell_width_bounds_witness :
  let W := cell_width1_i_ (Coordinates_new 2 third_block) 2 in
  globals.K * dx1f third_block 2
  / (1 + globals.A * globals.A * (globals.K * globals.K)) <= W /\
  W <= globals.K * dx1f third_block 2 /\ 0 <= W.
Proof.
  apply (cell_width_bounds globals.A globals.K 2%Z third_block 2%Z).
  - unfold in_block; simpl; lia.
  - unfold globals.K. lra.
  - simpl. lra.
  - simpl. pose proof PI_RGT_0. lra.
Defined.

(** X8.  The bound written at [CenterWidth1], Delta W <= sqrt(1 + a^2 k^2)
    Delta x, holds for the chart of the source: for every block and every
    cell the constructor fills whose spacing [dx1f(i) = x1f(i+1) - x1f(i)] is
    not negative, [CenterWidth1] returns a width between 0 and
    [sqrt (1 + A^2 K^2) dx1f(i)]. *)
Theorem CenterWidth1_documented_bound NGHOST pb k j i :
  in_block NGHOST pb i ->
  dx1f pb i = x1f pb (i + 1) - x1f pb i ->
  0 <= dx1f pb i ->
  0 <= CenterWidth1 (Coordinates_new NGHOST pb) k j i
  <= sqrt (1 + SQR globals.A * SQR globals.K) * dx1f pb i.
Proof.
  intros Hi Hdx Hpos. unfold CenterWidth1, Coordinates_new.
  assert (HK : 0 <= globals.K) by (unfold globals.K; lra).
  destruct (ctor_cell_width_between globals.A globals.K NGHOST pb i Hi HK Hdx
              Hpos) as [H1 H2].
  assert (H0 : 0 <= globals.K * dx1f pb i
                    / (1 + globals.A * globals.A * (globals.K * globals.K))).
  { apply Rdiv_nonneg_pos; [nra|].
    pose proof (Rle_0_sqr (globals.A * globals.K)) as S. unfold Rsqr in S.
    nra. }
  split; [lra|].
  apply Rle_trans with (1 := H2).
  assert (Hs : 1 <= sqrt (1 + SQR globals.A * SQR globals.K)).
  { rewrite <- sqrt_1 at 1. apply sqrt_le_1; unfold SQR; try lra.
    - pose proof (Rle_0_sqr (globals.A * globals.K)) as S. unfold Rsqr in S.
      nra.
    - pose proof (Rle_0_sqr (globals.A * globals.K)) as S. unfold Rsqr in S.
      nra. }
  unfold globals.K at 1. nra.
Qed.

Lemma CenterWidth1_documented_bound_witness :
  0 <= CenterWidth1 (Coordinates_new 2 third_block) 0 0 2
  <= sqrt (1 + SQR globals.A * SQR globals.K) * dx1f third_block 2.
Proof.
  apply (CenterWidth1_documented_bound 2%Z third_block 0%Z 0%Z 2%Z).
  - unfold in_block; simpl; lia.
  - simpl. lra.
  - simpl. pose proof PI_RGT_0. lra.
Defined.

(** ** Metric functions: what they write *)

Lemma metric_range_bounds NGHOST pb loc i :
  metric_range NGHOST pb loc i
  <-> (metric_lo NGHOST pb loc <= i <= metric_hi NGHOST pb loc)%Z.
Proof. destruct loc; reflexivity. Qed.

Lemma metric_at_loop NGHOST this loc k j g g_inv :
  metric_at NGHOST this loc k j g g_inv
  = for_loop (metric_lo NGHOST (pmy_block this) loc)
      (metric_hi NGHOST (pmy_block this) loc)
      (fun i gs => set_metric_terms (metric_pair_i1 this loc i)
                     (metric_pair_i2 this loc i) i gs)
      (g, g_inv).
Proof. destruct loc; reflexivity. Qed.

(** Every entry of the two arrays after a metric function. *)
Lemma metric_at_values NGHOST this loc k j g g_inv (inv : bool) n i :
  let out := metric_at NGHOST this loc k j g g_inv in
  (if inv then snd out else fst out) n i =
  if ((metric_lo NGHOST (pmy_block this) loc <=? i)
      && (i <=? metric_hi NGHOST (pmy_block this) loc))%Z
  then
    let s := set_metric_terms (metric_pair_i1 this loc i)
               (metric_pair_i2 this loc i) i (g, g_inv) in
    (if inv then snd s else fst s) n i
  else (if inv then g_inv else g) n i.
Proof.
  cbv zeta. rewrite metric_at_loop.
  pose proof (for_loop_pass
                (fun (gs : Array2 MetricIndex * Array2 MetricIndex)
                     (x : bool * MetricIndex) l =>
                   (if fst x then snd gs else fst gs) (snd x) l)
                (fun i gs => set_metric_terms (metric_pair_i1 this loc i)
                               (metric_pair_i2 this loc i) i gs)) as P.
  cbn [fst snd] in P.
  assert (H1 : forall (i0 : Z) (s : Array2 MetricIndex * Array2 MetricIndex)
                 (x : bool * MetricIndex) (j0 : Z),
             j0 <> i0 ->
             (if fst x
              then snd (set_metric_terms (metric_pair_i1 this loc i0)
                          (metric_pair_i2 this loc i0) i0 s)
              else fst (set_metric_terms (metric_pair_i1 this loc i0)
                          (metric_pair_i2 this loc i0) i0 s)) (snd x) j0
             = (if fst x then snd s else fst s) (snd x) j0).
  { intros l gs [v m] h Hh; cbn [fst snd].
    now apply set_metric_terms_other. }
  assert (H2 : forall (i0 : Z)
                 (s s' : Array2 MetricIndex * Array2 MetricIndex),
             (forall x : bool * MetricIndex,
                 (if fst x then snd s else fst s) (snd x) i0
                 = (if fst x then snd s' else fst s') (snd x) i0) ->
             forall x : bool * MetricIndex,
               (if fst x
                then snd (set_metric_terms (metric_pair_i1 this loc i0)
                            (metric_pair_i2 this loc i0) i0 s)
                else fst (set_metric_terms (metric_pair_i1 this loc i0)
                            (metric_pair_i2 this loc i0) i0 s)) (snd x) i0
               = (if fst x
                  then snd (set_metric_terms (metric_pair_i1 this loc i0)
                              (metric_pair_i2 this loc i0) i0 s')
                  else fst (set_metric_terms (metric_pair_i1 this loc i0)
                              (metric_pair_i2 this loc i0) i0 s')) (snd x) i0).
  { intros l [g0 g0_inv] [g1 g1_inv] Hgs [v m]; cbn [fst snd].
    pose proof (Hgs (v, m)) as Hn; cbn [fst snd] in Hn.
    destruct v, m; unfold set_metric_terms; cbv zeta; cbn [fst snd];
      unfold set2; rewrite Z.eqb_refl; cbn; try reflexivity; exact Hn. }
  pose proof (P H1 H2 (metric_lo NGHOST (pmy_block this) loc)
                (metric_hi NGHOST (pmy_block this) loc)
                (g, g_inv) (inv, n) i) as Q.
  cbn [fst snd] in Q. exact Q.
Qed.

(** X9.  A metric function writes the five components [I00], [I11], [I12],
    [I22], [I33] at the indices of its own range and nothing else: the five
    remaining components of both arrays, and every component at an index
    outside the range, are what the caller passed in. *)
Theorem metric_functions_frame NGHOST this loc k j g g_inv n i :
  written_component n = false
  \/ ~ metric_range NGHOST (pmy_block this) loc i ->
  let out := metric_at NGHOST this loc k j g g_inv in
  fst out n i = g n i /\ snd out n i = g_inv n i.
Proof.
  intros H out. subst out.
  pose proof (metric_at_values NGHOST this loc k j g g_inv false n i) as Hg.
  pose proof (metric_at_values NGHOST this loc k j g g_inv true n i) as Hi.
  cbv zeta in Hg, Hi. cbn [fst snd] in Hg, Hi. rewrite Hg, Hi.
  destruct H as [Hn | Hr].
  - destruct ((_ <=? i) && (i <=? _))%Z; [|split; reflexivity].
    unfold set_metric_terms; cbn [fst snd]; unfold set2.
    destruct n; try discriminate Hn; cbn; split; reflexivity.
  - rewrite metric_range_bounds in Hr.
    rewrite (range_test_false _ _ _ Hr). split; reflexivity.
Qed.

Lemma metric_functions_frame_witness :
  let this := Coordinates_new 2 third_block in
  let g : Array2 MetricIndex := fun _ _ => 5 in
  let out := metric_at 2 this AtFace2 0 0 g g in
  fst out I01 2%Z = g I01 2%Z /\ snd out I01 2%Z = g I01 2%Z.
Proof.
  intros this g.
  apply (metric_functions_frame 2%Z this AtFace2 0%Z 0%Z g g I01 2%Z).
  left. reflexivity.
Defined.

Lemma metrics_agree_where_pairs_agree
    NGHOST (this : Coordinates) k j g g_inv n i :
  (is_ (pmy_block this) - NGHOST <= i <= ie (pmy_block this) + NGHOST)%Z ->
  (is_ (pmy_block this) <= i <= ie (pmy_block this))%Z ->
  metric_face2_i1_ this i = metric_cell_i1_ this i ->
  metric_face2_i2_ this i = metric_cell_i2_ this i ->
  metric_face3_i1_ this i = metric_cell_i1_ this i ->
  metric_face3_i2_ this i = metric_cell_i2_ this i ->
  forall inv : bool,
    (if inv then snd (CellMetric NGHOST this k j g g_inv)
     else fst (CellMetric NGHOST this k j g g_inv)) n i
    = (if inv then snd (Face2Metric this k j g g_inv)
       else fst (Face2Metric this k j g g_inv)) n i /\
    (if inv then snd (CellMetric NGHOST this k j g g_inv)
     else fst (CellMetric NGHOST this k j g g_inv)) n i
    = (if inv then snd (Face3Metric this k j g g_inv)
       else fst (Face3Metric this k j g g_inv)) n i.
Proof.
  intros Rc Rf P1 P2 P3 P4 inv.
  pose proof (metric_at_values NGHOST this AtCell k j g g_inv inv n i) as Vc.
  pose proof (metric_at_values NGHOST this AtFace2 k j g g_inv inv n i)
    as V2.
  pose proof (metric_at_values NGHOST this AtFace3 k j g g_inv inv n i)
    as V3.
  cbv zeta in Vc, V2, V3.
  cbn [metric_at metric_lo metric_hi metric_pair_i1 metric_pair_i2]
    in Vc, V2, V3.
  rewrite (range_test_true _ _ _ Rc) in Vc.
  rewrite (range_test_true _ _ _ Rf) in V2, V3.
  rewrite P1, P2 in V2. rewrite P3, P4 in V3.
  rewrite Vc, V2, V3. split; reflexivity.
Qed.

(** X10.  For coordinates made by the constructor with [NGHOST >= 0], the
    cell-centered metric function and the metric functions of the faces of
    the y- and of the z-direction, given the same arrays, write the same
    components at every index [is <= i <= ie]. *)
Theorem cell_and_transverse_face_metrics_agree
    A K NGHOST pb k j g g_inv n i :
  (0 <= NGHOST)%Z ->
  (is_ pb <= i <= ie pb)%Z ->
  let this := Coordinates_ctor A K NGHOST pb in
  let cell := CellMetric NGHOST this k j g g_inv in
  let face2 := Face2Metric this k j g g_inv in
  let face3 := Face3Metric this k j g g_inv in
  (fst cell n i = fst face2 n i /\ fst cell n i = fst face3 n i) /\
  (snd cell n i = snd face2 n i /\ snd cell n i = snd face3 n i).
Proof.
  intros HN Hr. cbv zeta.
  assert (Hi : in_block NGHOST pb i) by (unfold in_block; lia).
  destruct (ctor_bounds A K NGHOST pb) as (E1 & E2 & _).
  assert (V : forall inv : bool, _)
    by (apply (metrics_agree_where_pairs_agree NGHOST
                 (Coordinates_ctor A K NGHOST pb) k j g g_inv n i);
        [ rewrite E1, E2; lia
        | rewrite E1, E2; exact Hr
        | rewrite (ctor_metric_face2_i1 A K NGHOST pb i Hi),
            (ctor_metric_cell_i1 A K NGHOST pb i Hi); reflexivity
        | rewrite (ctor_metric_face2_i2 A K NGHOST pb i Hi),
            (ctor_metric_cell_i2 A K NGHOST pb i Hi); reflexivity
        | rewrite (ctor_metric_face3_i1 A K NGHOST pb i Hi),
            (ctor_metric_cell_i1 A K NGHOST pb i Hi); reflexivity
        | rewrite (ctor_metric_face3_i2 A K NGHOST pb i Hi),
            (ctor_metric_cell_i2 A K NGHOST pb i Hi); reflexivity ]).
  split; [exact (V false) | exact (V true)].
Qed.

Lemma cell_and_transverse_face_metrics_agree_witness :
  let this := Coordinates_new 2 third_block in
  let g : Array2 MetricIndex := fun _ _ => 0 in
  let cell := CellMetric 2 this 0 0 g g in
  let face2 := Face2Metric this 0 0 g g in
  let face3 := Face3Metric this 0 0 g g in
  (fst cell I12 2%Z = fst face2 I12 2%Z /\
   fst cell I12 2%Z = fst face3 I12 2%Z) /\
  (snd cell I12 2%Z = snd face2 I12 2%Z /\
   snd cell I12 2%Z = snd face3 I12 2%Z).
Proof.
  intros this g.
  apply (cell_and_transverse_face_metrics_agree globals.A globals.K 2%Z
           third_block 0%Z 0%Z g g I12 2%Z).
  - lia.
  - simpl; lia.
Defined.

(** ** Transformations to the locally flat frame: further properties *)

Lemma third_block_faces :
  (metric_face1_i1_ (Coordinates_ctor globals.A globals.K 2 third_block) 2 = 2
   /\ metric_face1_i2_ (Coordinates_ctor globals.A globals.K 2 third_block) 2
      = 1) /\
  (metric_face2_i1_ (Coordinates_ctor globals.A globals.K 2 third_block) 2
   = 5/4
   /\ metric_face2_i2_ (Coordinates_ctor globals.A globals.K 2 third_block) 2
      = 1/2).
Proof.
  assert (Hi : in_block 2 third_block 2) by (unfold in_block; simpl; lia).
  destruct third_block_positions as (Pm & Pp & Pc & Pd).
  rewrite (ctor_metric_face1_i1 globals.A globals.K _ _ _ Hi),
    (ctor_metric_face1_i2 globals.A globals.K _ _ _ Hi),
    (ctor_metric_face2_i1 globals.A globals.K _ _ _ Hi),
    (ctor_metric_face2_i2 globals.A globals.K _ _ _ Hi).
  rewrite Pm, Pc, cos_0, cos_PI3.
  unfold globals.A, globals.K, SQR. autorewrite with literals.
  repeat split; field.
Qed.

Lemma flat_norm_x1 u0 b v1 v2 v3 :
  0 < u0 ->
  norm_bracket (1 + b * b) b v1 v2 v3 < 0 ->
  norm_bracket 1 0 (u0 * v1 / u0) ((- b * (u0 * v1) + u0 * v2) / u0)
    (u0 * v3 / u0)
  = norm_bracket (1 + b * b) b v1 v2 v3
  /\ u0 * v1 / u0 * (u0 * v1 / u0)
     + (- b * (u0 * v1) + u0 * v2) / u0 * ((- b * (u0 * v1) + u0 * v2) / u0)
     + u0 * v3 / u0 * (u0 * v3 / u0) < 1.
Proof.
  intros Hu Hn.
  replace (u0 * v1 / u0) with v1 by (field; lra).
  replace ((- b * (u0 * v1) + u0 * v2) / u0) with (v2 - b * v1)
    by (field; lra).
  replace (u0 * v3 / u0) with v3 by (field; lra).
  unfold norm_bracket in *. split; [ring | lra].
Qed.

Lemma flat_norm_x2 u0 a b v1 v2 v3 :
  0 < u0 -> 0 < a -> a * a = 1 + b * b ->
  norm_bracket (1 + b * b) b v1 v2 v3 < 0 ->
  norm_bracket 1 0 (1 / a * (u0 * v2) / u0) (u0 * v3 / u0)
    ((a * (u0 * v1) + - b / a * (u0 * v2)) / u0)
  = norm_bracket (1 + b * b) b v1 v2 v3
  /\ (a * (u0 * v1) + - b / a * (u0 * v2)) / u0
     * ((a * (u0 * v1) + - b / a * (u0 * v2)) / u0)
     + 1 / a * (u0 * v2) / u0 * (1 / a * (u0 * v2) / u0)
     + u0 * v3 / u0 * (u0 * v3 / u0) < 1.
Proof.
  intros Hu Ha Haa Hn.
  replace (1 / a * (u0 * v2) / u0) with (v2 / a) by (field; lra).
  replace ((a * (u0 * v1) + - b / a * (u0 * v2)) / u0)
    with (a * v1 - b / a * v2) by (field; lra).
  replace (u0 * v3 / u0) with v3 by (field; lra).
  assert (E : norm_bracket 1 0 (v2 / a) v3 (a * v1 - b / a * v2)
              = norm_bracket (1 + b * b) b v1 v2 v3).
  { unfold norm_bracket. clear Hn Hu.
    field_simplify_eq; [cbn [pow]; nsatz | lra]. }
  split; [exact E|].
  rewrite <- E in Hn. unfold norm_bracket in Hn. lra.
Qed.

(** X11.  For coordinates made by the constructor, [PrimToLocal1] keeps the
    norm of a subluminal velocity: the bracket of the normalization taken
    with the flat metric on the velocities it writes equals the bracket taken
    with the metric of the interface on the velocities it read, for the left
    and for the right state; so the local velocity is subluminal too. *)
Theorem PrimToLocal1_preserves_norm
    A K NGHOST mag pb k j b1_vals (prim_left prim_right : Array2 VarIndex)
    bx i (side : bool) :
  in_block NGHOST pb i ->
  (is_ pb <= i <= ie pb + 1)%Z ->
  let this := Coordinates_ctor A K NGHOST pb in
  let out := PrimToLocal1 mag this k j b1_vals prim_left prim_right bx in
  let p := if side then prim_left else prim_right in
  let q := if side then fst (fst out) else snd (fst out) in
  norm_bracket (metric_face1_i1_ this i) (metric_face1_i2_ this i)
    (p IVX i) (p IVY i) (p IVZ i) < 0 ->
  norm_bracket 1 0 (q IVX i) (q IVY i) (q IVZ i)
  = norm_bracket (metric_face1_i1_ this i) (metric_face1_i2_ this i)
      (p IVX i) (p IVY i) (p IVZ i)
  /\ q IVX i * q IVX i + q IVY i * q IVY i + q IVZ i * q IVZ i < 1.
Proof.
  intros Hi Hr. cbv zeta.
  destruct (ctor_bounds A K NGHOST pb) as (E1 & E2 & _).
  pose proof (ctor_pairs A K NGHOST pb i Hi) as (_ & Hg & _).
  assert (Ht : trans_face1_i2_ (Coordinates_ctor A K NGHOST pb) i
               = metric_face1_i2_ (Coordinates_ctor A K NGHOST pb) i).
  { rewrite (ctor_trans_face1_i2 A K NGHOST pb i Hi),
      (ctor_metric_face1_i2 A K NGHOST pb i Hi). reflexivity. }
  assert (Hr' : (is_ (pmy_block (Coordinates_ctor A K NGHOST pb)) <= i
                 <= ie (pmy_block (Coordinates_ctor A K NGHOST pb)) + 1)%Z)
    by (rewrite E1, E2; exact Hr).
  pose proof (PrimToLocal1_velocities mag (Coordinates_ctor A K NGHOST pb)
                k j b1_vals prim_left prim_right bx i Hr' side) as V.
  cbv zeta in V. destruct V as (V1 & V2 & V3).
  intros Hn. pose proof (four_velocity0_pos _ _ _ _ _ Hn) as Hu.
  rewrite V1, V2, V3, Ht. rewrite Hg in *.
  now apply flat_norm_x1.
Qed.

Lemma PrimToLocal1_preserves_norm_witness :
  let prim := uniform_row 1 1 (2/5) 0 (4/5) 0 0 in
  let this := Coordinates_new 2 third_block in
  let out := PrimToLocal1 false this 0 0 (fun _ _ _ => 0) prim prim
               (fun _ => 0) in
  let q := fst (fst out) in
  norm_bracket 1 0 (q IVX 2%Z) (q IVY 2%Z) (q IVZ 2%Z)
  = norm_bracket (metric_face1_i1_ this 2) (metric_face1_i2_ this 2)
      (prim IVX 2%Z) (prim IVY 2%Z) (prim IVZ 2%Z)
  /\ q IVX 2%Z * q IVX 2%Z + q IVY 2%Z * q IVY 2%Z + q IVZ 2%Z * q IVZ 2%Z
     < 1.
Proof.
  intros prim this.
  refine (PrimToLocal1_preserves_norm globals.A globals.K 2%Z false
            third_block 0%Z 0%Z (fun _ _ _ => 0) prim prim (fun _ => 0) 2%Z
            true _ _ _).
  - unfold in_block; simpl; lia.
  - simpl; lia.
  - destruct third_block_faces as ((G1 & G2) & _).
    rewrite G1, G2. unfold prim, uniform_row, IVX, IVY, IVZ, norm_bracket.
    lra.
Defined.

(** X12.  For coordinates made by the constructor, [PrimToLocal2] keeps the
    norm of a subluminal velocity in the same sense; its local x, y and z
    components are in the slots [IVY], [IVZ] and [IVX]. *)
Theorem PrimToLocal2_preserves_norm
    A K NGHOST mag pb k j b2_vals (prim_left prim_right : Array2 VarIndex)
    by_ i (side : bool) :
  in_block NGHOST pb i ->
  (is_ pb <= i <= ie pb)%Z ->
  let this := Coordinates_ctor A K NGHOST pb in
  let out := PrimToLocal2 mag this k j b2_vals prim_left prim_right by_ in
  let p := if side then prim_left else prim_right in
  let q := if side then fst (fst out) else snd (fst out) in
  norm_bracket (metric_face2_i1_ this i) (metric_face2_i2_ this i)
    (p IVX i) (p IVY i) (p IVZ i) < 0 ->
  norm_bracket 1 0 (q IVY i) (q IVZ i) (q IVX i)
  = norm_bracket (metric_face2_i1_ this i) (metric_face2_i2_ this i)
      (p IVX i) (p IVY i) (p IVZ i)
  /\ q IVX i * q IVX i + q IVY i * q IVY i + q IVZ i * q IVZ i < 1.
Proof.
  intros Hi Hr. cbv zeta.
  destruct (ctor_bounds A K NGHOST pb) as (E1 & E2 & _).
  pose proof (ctor_pairs A K NGHOST pb i Hi) as (_ & _ & Hg & _).
  assert (Ht : trans_face2_i2_ (Coordinates_ctor A K NGHOST pb) i
               = metric_face2_i2_ (Coordinates_ctor A K NGHOST pb) i).
  { rewrite (ctor_trans_face2_i2 A K NGHOST pb i Hi),
      (ctor_metric_face2_i2 A K NGHOST pb i Hi). reflexivity. }
  assert (Hs : trans_face2_i1_ (Coordinates_ctor A K NGHOST pb) i
               = sqrt (metric_face2_i1_ (Coordinates_ctor A K NGHOST pb) i)).
  { rewrite (ctor_trans_face2_i1 A K NGHOST pb i Hi),
      (ctor_metric_face2_i1 A K NGHOST pb i Hi). reflexivity. }
  assert (Hr' : (is_ (pmy_block (Coordinates_ctor A K NGHOST pb)) <= i
                 <= ie (pmy_block (Coordinates_ctor A K NGHOST pb)))%Z)
    by (rewrite E1, E2; exact Hr).
  pose proof (PrimToLocal2_velocities mag (Coordinates_ctor A K NGHOST pb)
                k j b2_vals prim_left prim_right by_ i Hr' side) as V.
  cbv zeta in V. destruct V as (V2 & V3 & V1).
  intros Hn. pose proof (four_velocity0_pos _ _ _ _ _ Hn) as Hu.
  rewrite V1, V2, V3, Ht. rewrite Hg in *.
  assert (Hge : 0 <= 1 + metric_face2_i2_ (Coordinates_ctor A K NGHOST pb) i
                         * metric_face2_i2_ (Coordinates_ctor A K NGHOST pb) i)
    by nra.
  apply flat_norm_x2; try assumption.
  - rewrite Hs. apply sqrt_lt_R0. nra.
  - rewrite Hs. now apply sqrt_sqrt.
Qed.

Lemma PrimToLocal2_preserves_norm_witness :
  let prim := uniform_row 1 1 (2/5) 0 (4/5) 0 0 in
  let this := Coordinates_new 2 third_block in
  let out := PrimToLocal2 false this 0 0 (fun _ _ _ => 0) prim prim
               (fun _ => 0) in
  let q := fst (fst out) in
  norm_bracket 1 0 (q IVY 2%Z) (q IVZ 2%Z) (q IVX 2%Z)
  = norm_bracket (metric_face2_i1_ this 2) (metric_face2_i2_ this 2)
      (prim IVX 2%Z) (prim IVY 2%Z) (prim IVZ 2%Z)
  /\ q IVX 2%Z * q IVX 2%Z + q IVY 2%Z * q IVY 2%Z + q IVZ 2%Z * q IVZ 2%Z
     < 1.
Proof.
  intros prim this.
  refine (PrimToLocal2_preserves_norm globals.A globals.K 2%Z false
            third_block 0%Z 0%Z (fun _ _ _ => 0) prim prim (fun _ => 0) 2%Z
            true _ _ _).
  - unfold in_block; simpl; lia.
  - simpl; lia.
  - destruct third_block_faces as (_ & (G1 & G2)).
    rewrite G1, G2. unfold prim, uniform_row, IVX, IVY, IVZ, norm_bracket.
    lra.
Defined.

(** ** Fluxes to the global frame: frame, linearity, closed forms *)

Section FluxValues.

Variable mag : bool.
Variable this : Coordinates.
Variables k j : Z.

Lemma FluxToGlobal1_at flux n i :
  FluxToGlobal1 mag this k j flux n i
  = if ((is_ (pmy_block this) <=? i) && (i <=? ie (pmy_block this) + 1))%Z
    then FluxToGlobal1_body mag this k j i flux n i else flux n i.
Proof.
  unfold FluxToGlobal1.
  apply (for_loop_pass (fun (f : Array2 VarIndex) n l => f n l)
           (FluxToGlobal1_body mag this k j)).
  - intros; now apply FluxToGlobal1_other.
  - intros; now apply FluxToGlobal1_own.
Qed.

Lemma FluxToGlobal2_at flux n i :
  FluxToGlobal2 mag this k j flux n i
  = if ((is_ (pmy_block this) <=? i) && (i <=? ie (pmy_block this)))%Z
    then FluxToGlobal2_body mag this k j i flux n i else flux n i.
Proof.
  unfold FluxToGlobal2.
  apply (for_loop_pass (fun (f : Array2 VarIndex) n l => f n l)
           (FluxToGlobal2_body mag this k j)).
  - intros; now apply FluxToGlobal2_other.
  - intros; now apply FluxToGlobal2_own.
Qed.

Lemma FluxToGlobal3_at flux n i :
  FluxToGlobal3 mag this k j flux n i
  = if ((is_ (pmy_block this) <=? i) && (i <=? ie (pmy_block this)))%Z
    then FluxToGlobal3_body mag this k j i flux n i else flux n i.
Proof.
  unfold FluxToGlobal3.
  apply (for_loop_pass (fun (f : Array2 VarIndex) n l => f n l)
           (FluxToGlobal3_body mag this k j)).
  - intros; now apply FluxToGlobal3_other.
  - intros; now apply FluxToGlobal3_own.
Qed.

End FluxValues.

(** The value a pass of a [FluxToGlobal] function leaves in a variable. *)
Ltac flux_slot :=
  cbv beta iota zeta delta
    [FluxToGlobal1_body FluxToGlobal2_body FluxToGlobal3_body];
  try match goal with |- context [if ?m then _ else _] => destruct m end;
  unfold set2; rewrite ?Z.eqb_refl; cbn [VarIndex_eqb andb];
  autorewrite with literals.

Lemma range_test_iff lo hi i :
  ((lo <=? i) && (i <=? hi))%Z = true <-> (lo <= i <= hi)%Z.
Proof. rewrite andb_true_iff, !Z.leb_le. tauto. Qed.

(** X13.  A [FluxToGlobal] function changes the fluxes only at the
    interfaces of its loop, and without magnetic fields it leaves the two
    magnetic fluxes as they are at every interface. *)
Theorem flux_to_global_frame d mag this k j (flux : Array2 VarIndex) n i :
  ~ interface_range (pmy_block this) d i
  \/ (mag = false /\ (n = IBY \/ n = IBZ)) ->
  flux_to_global d mag this k j flux n i = flux n i.
Proof.
  intros H.
  destruct d; cbn [flux_to_global interface_range] in *;
    rewrite ?FluxToGlobal1_at, ?FluxToGlobal2_at, ?FluxToGlobal3_at;
    match goal with |- context [if ?c then _ else _] =>
      destruct c eqn:Hc end; try reflexivity;
    apply range_test_iff in Hc;
    (destruct H as [H|[-> [->| ->]]]; [contradiction| |]);
    flux_slot; reflexivity.
Qed.

Lemma flux_to_global_frame_witness :
  let this := Coordinates_new 2 third_block in
  let flux := uniform_row 1 2 3 4 5 6 7 in
  flux_to_global X2 false this 0 0 flux IBY 2%Z = flux IBY 2%Z.
Proof.
  intros this flux.
  apply (flux_to_global_frame X2 false this 0%Z 0%Z flux IBY 2%Z).
  right. split; [reflexivity | left; reflexivity].
Defined.

(** X14.  A [FluxToGlobal] function is linear in the fluxes: the fluxes it
    makes of a linear combination of two arrays of local fluxes are the same
    combination of the fluxes it makes of each, at every interface and for
    every variable. *)
Theorem flux_to_global_linear d mag this k j (f g : Array2 VarIndex)
    (a b : Real) n i :
  flux_to_global d mag this k j (fun m l => a * f m l + b * g m l) n i
  = a * flux_to_global d mag this k j f n i
    + b * flux_to_global d mag this k j g n i.
Proof.
  destruct d; cbn [flux_to_global];
    rewrite ?FluxToGlobal1_at, ?FluxToGlobal2_at, ?FluxToGlobal3_at;
    match goal with |- context [if ?c then _ else _] =>
      destruct c end; try reflexivity;
    destruct n, mag;
    cbv beta iota zeta delta
      [FluxToGlobal1_body FluxToGlobal2_body FluxToGlobal3_body];
    unfold set2; rewrite ?Z.eqb_refl; cbn [VarIndex_eqb andb];
    autorewrite with literals; unfold Rdiv; ring.
Qed.

Lemma FluxToGlobal1_closed mag this k j (flux : Array2 VarIndex) i b :
  (is_ (pmy_block this) <= i <= ie (pmy_block this) + 1)%Z ->
  metric_face1_i1_ this i = 1 + b * b ->
  metric_face1_i2_ this i = b ->
  trans_face1_i2_ this i = b ->
  FluxToGlobal1 mag this k j flux IDN i = flux IDN i /\
  FluxToGlobal1 mag this k j flux IEN i = - flux IEN i /\
  FluxToGlobal1 mag this k j flux IM1 i = flux IM1 i - b * flux IM2 i /\
  FluxToGlobal1 mag this k j flux IM2 i = flux IM2 i /\
  FluxToGlobal1 mag this k j flux IM3 i = flux IM3 i /\
  FluxToGlobal1 mag this k j flux IBY i = flux IBY i /\
  FluxToGlobal1 mag this k j flux IBZ i = flux IBZ i.
Proof.
  intros Hr Ha Hb Ht.
  repeat split; rewrite FluxToGlobal1_pass by exact Hr; flux_slot;
    rewrite ?Ha, ?Hb, ?Ht; ring.
Qed.

Lemma FluxToGlobal2_closed mag this k j (flux : Array2 VarIndex) i a a2 b :
  (is_ (pmy_block this) <= i <= ie (pmy_block this))%Z ->
  0 < a ->
  a * a = a2 ->
  metric_face2_i1_ this i = a2 ->
  a2 = 1 + b * b ->
  metric_face2_i2_ this i = b ->
  trans_face2_i1_ this i = a ->
  trans_face2_i2_ this i = b ->
  FluxToGlobal2 mag this k j flux IDN i = a * flux IDN i /\
  FluxToGlobal2 mag this k j flux IEN i = - (a * flux IEN i) /\
  FluxToGlobal2 mag this k j flux IM1 i = a2 * flux IM1 i /\
  FluxToGlobal2 mag this k j flux IM2 i = flux IM2 i - b * flux IM1 i /\
  FluxToGlobal2 mag this k j flux IM3 i = a * flux IM3 i.
Proof.
  intros Hr Ha Hsq Hg Haa Hb Ht1 Ht2.
  repeat split; rewrite FluxToGlobal2_pass by exact Hr; flux_slot;
    rewrite ?Hg, ?Hb, ?Ht1, ?Ht2; subst a2.
  all: try (field_simplify_eq; [cbn [pow]; nsatz | lra]).
  all: try ring.
Qed.

(** X15.  For coordinates made by the constructor, [FluxToGlobal1] changes
    two of the seven fluxes of an interface of its range: the energy flux
    changes sign and the x1-momentum flux loses [beta] times the
    x2-momentum flux, [beta] taken at the face; density, x2- and
    x3-momentum and both magnetic fluxes are as they were, with and without
    magnetic fields. *)
Theorem FluxToGlobal1_constructed A K NGHOST mag pb k j
    (flux : Array2 VarIndex) i :
  in_block NGHOST pb i ->
  (is_ pb <= i <= ie pb + 1)%Z ->
  let this := Coordinates_ctor A K NGHOST pb in
  let out := FluxToGlobal1 mag this k j flux in
  let b := beta A K (x1f pb i) in
  out IDN i = flux IDN i /\
  out IEN i = - flux IEN i /\
  out IM1 i = flux IM1 i - b * flux IM2 i /\
  out IM2 i = flux IM2 i /\
  out IM3 i = flux IM3 i /\
  out IBY i = flux IBY i /\
  out IBZ i = flux IBZ i.
Proof.
  intros Hi Hr. cbv zeta.
  destruct (ctor_bounds A K NGHOST pb) as (E1 & E2 & _).
  apply FluxToGlobal1_closed.
  - rewrite E1, E2. exact Hr.
  - rewrite (ctor_metric_face1_i1 A K NGHOST pb i Hi), init_block_x1f.
    unfold beta, SQR. autorewrite with literals. ring.
  - rewrite (ctor_metric_face1_i2 A K NGHOST pb i Hi), init_block_x1f.
    reflexivity.
  - rewrite (ctor_trans_face1_i2 A K NGHOST pb i Hi), init_block_x1f.
    reflexivity.
Qed.

Lemma FluxToGlobal1_constructed_witness :
  let flux := uniform_row 1 2 3 4 5 6 7 in
  let this := Coordinates_ctor globals.A globals.K 2 third_block in
  let out := FluxToGlobal1 true this 0 0 flux in
  let b := beta globals.A globals.K (x1f third_block 2) in
  out IDN 2%Z = flux IDN 2%Z /\
  out IEN 2%Z = - flux IEN 2%Z /\
  out IM1 2%Z = flux IM1 2%Z - b * flux IM2 2%Z /\
  out IM2 2%Z = flux IM2 2%Z /\
  out IM3 2%Z = flux IM3 2%Z /\
  out IBY 2%Z = flux IBY 2%Z /\
  out IBZ 2%Z = flux IBZ 2%Z.
Proof.
  intros flux.
  apply (FluxToGlobal1_constructed globals.A globals.K 2%Z true third_block
           0%Z 0%Z flux 2%Z).
  - unfold in_block; simpl; lia.
  - simpl; lia.
Defined.

(** X16.  For coordinates made by the constructor, [FluxToGlobal2] at an
    interface of its range, with [alpha] the square root of [alphaSquared]
    and with [beta] at the cell center: density and x3-momentum flux are
    multiplied by [alpha], the energy flux by [- alpha], the x1-momentum
    flux by [alphaSquared], and the x2-momentum flux loses [beta] times the
    x1-momentum flux. *)
Theorem FluxToGlobal2_constructed A K NGHOST mag pb k j
    (flux : Array2 VarIndex) i :
  in_block NGHOST pb i ->
  (is_ pb <= i <= ie pb)%Z ->
  let this := Coordinates_ctor A K NGHOST pb in
  let out := FluxToGlobal2 mag this k j flux in
  let xv := 0.5 * (x1f pb i + x1f pb (i + 1)) in
  let a := sqrt (alphaSquared A K xv) in
  let b := beta A K xv in
  out IDN i = a * flux IDN i /\
  out IEN i = - (a * flux IEN i) /\
  out IM1 i = alphaSquared A K xv * flux IM1 i /\
  out IM2 i = flux IM2 i - b * flux IM1 i /\
  out IM3 i = a * flux IM3 i.
Proof.
  intros Hi Hr. cbv zeta.
  destruct (ctor_bounds A K NGHOST pb) as (E1 & E2 & _).
  pose proof (alphaSquared_ge_1 A K (0.5 * (x1f pb i + x1f pb (i + 1)))) as G.
  assert (S : sqrt (alphaSquared A K (0.5 * (x1f pb i + x1f pb (i + 1))))
              * sqrt (alphaSquared A K (0.5 * (x1f pb i + x1f pb (i + 1))))
              = alphaSquared A K (0.5 * (x1f pb i + x1f pb (i + 1))))
    by (apply sqrt_sqrt; lra).
  apply FluxToGlobal2_closed.
  - rewrite E1, E2. exact Hr.
  - apply sqrt_lt_R0. lra.
  - exact S.
  - rewrite (ctor_metric_face2_i1 A K NGHOST pb i Hi),
      (init_block_x1v NGHOST pb i Hi).
    unfold alphaSquared, SQR. autorewrite with literals. ring.
  - unfold alphaSquared, beta. ring.
  - rewrite (ctor_metric_face2_i2 A K NGHOST pb i Hi),
      (init_block_x1v NGHOST pb i Hi). reflexivity.
  - rewrite (ctor_trans_face2_i1 A K NGHOST pb i Hi),
      (init_block_x1v NGHOST pb i Hi). f_equal.
    unfold alphaSquared, SQR. autorewrite with literals. ring.
  - rewrite (ctor_trans_face2_i2 A K NGHOST pb i Hi),
      (init_block_x1v NGHOST pb i Hi). reflexivity.
Qed.

Lemma FluxToGlobal2_constructed_witness :
  let flux := uniform_row 1 2 3 4 5 6 7 in
  let this := Coordinates_ctor globals.A globals.K 2 third_block in
  let out := FluxToGlobal2 true this 0 0 flux in
  let xv := 0.5 * (x1f third_block 2 + x1f third_block (2 + 1)) in
  let a := sqrt (alphaSquared globals.A globals.K xv) in
  let b := beta globals.A globals.K xv in
  out IDN 2%Z = a * flux IDN 2%Z /\
  out IEN 2%Z = - (a * flux IEN 2%Z) /\
  out IM1 2%Z = alphaSquared globals.A globals.K xv * flux IM1 2%Z /\
  out IM2 2%Z = flux IM2 2%Z - b * flux IM1 2%Z /\
  out IM3 2%Z = a * flux IM3 2%Z.
Proof.
  intros flux.
  apply (FluxToGlobal2_constructed globals.A globals.K 2%Z true third_block
           0%Z 0%Z flux 2%Z).
  - unfold in_block; simpl; lia.
  - simpl; lia.
Defined.

(** ** Primitives to the local frame: frame, rest, normal field *)

Section LocalValues.

Variable mag : bool.
Variable this : Coordinates.
Variables k j : Z.
Variable b_vals : Array3.

Lemma PrimToLocal1_at (s : LocalArrays) x i :
  local_get (for_loop (is_ (pmy_block this)) (ie (pmy_block this) + 1)
               (PrimToLocal1_body mag this k j b_vals) s) x i
  = if ((is_ (pmy_block this) <=? i) && (i <=? ie (pmy_block this) + 1))%Z
    then local_get (PrimToLocal1_body mag this k j b_vals i s) x i
    else local_get s x i.
Proof.
  apply (for_loop_pass local_get (PrimToLocal1_body mag this k j b_vals)).
  - intros; now apply PrimToLocal1_other.
  - intros; now apply PrimToLocal1_own.
Qed.

Lemma PrimToLocal2_at (s : LocalArrays) x i :
  local_get (for_loop (is_ (pmy_block this)) (ie (pmy_block this))
               (PrimToLocal2_body mag this k j b_vals) s) x i
  = if ((is_ (pmy_block this) <=? i) && (i <=? ie (pmy_block this)))%Z
    then local_get (PrimToLocal2_body mag this k j b_vals i s) x i
    else local_get s x i.
Proof.
  apply (for_loop_pass local_get (PrimToLocal2_body mag this k j b_vals)).
  - intros; now apply PrimToLocal2_other.
  - intros; now apply PrimToLocal2_own.
Qed.

Lemma PrimToLocal3_at (s : LocalArrays) x i :
  local_get (for_loop (is_ (pmy_block this)) (ie (pmy_block this))
               (PrimToLocal3_body mag this k j b_vals) s) x i
  = if ((is_ (pmy_block this) <=? i) && (i <=? ie (pmy_block this)))%Z
    then local_get (PrimToLocal3_body mag this k j b_vals i s) x i
    else local_get s x i.
Proof.
  apply (for_loop_pass local_get (PrimToLocal3_body mag this k j b_vals)).
  - intros; now apply PrimToLocal3_other.
  - intros; now apply PrimToLocal3_own.
Qed.

End LocalValues.

(** X17.  A [PrimToLocal] function changes its three arrays only at the
    interfaces of its loop, and there only the velocities of the two states
    and, with magnetic fields, their transverse fields and the normal field:
    density and pressure of both states are never changed, and without
    magnetic fields neither are the field slots nor the array of the normal
    field. *)
Theorem prim_to_local_frame d mag this k j b_vals
    (prim_left prim_right : Array2 VarIndex) (bn : Array1) x i :
  ~ interface_range (pmy_block this) d i
  \/ local_slot_written mag x = false ->
  local_get (prim_to_local d mag this k j b_vals prim_left prim_right bn) x i
  = local_get (prim_left, prim_right, bn) x i.
Proof.
  intros H.
  destruct d; cbn [prim_to_local interface_range] in *;
    unfold PrimToLocal1, PrimToLocal2, PrimToLocal3;
    rewrite ?PrimToLocal1_at, ?PrimToLocal2_at, ?PrimToLocal3_at;
    match goal with |- context [if ?c then _ else _] =>
      destruct c eqn:Hc end; try reflexivity;
    apply range_test_iff in Hc;
    (destruct H as [H|H]; [contradiction|]);
    destruct x as [[]|[]|], mag; try discriminate H;
    cbv beta iota zeta delta
      [PrimToLocal1_body PrimToLocal2_body PrimToLocal3_body];
    cbn [local_get fst snd]; unfold set2, set1, IVX, IVY, IVZ;
    rewrite ?Z.eqb_refl; cbn [VarIndex_eqb andb]; reflexivity.
Qed.

Lemma prim_to_local_frame_witness :
  let this := Coordinates_new 2 third_block in
  let prim := uniform_row 1 2 (1/2) 0 0 3 4 in
  let bn : Array1 := fun _ => 5 in
  local_get (prim_to_local X3 true this 0 0 (fun _ _ _ => 6) prim prim bn)
    (LeftSlot IEN) 2
  = local_get (prim, prim, bn) (LeftSlot IEN) 2.
Proof.
  intros this prim bn.
  apply (prim_to_local_frame X3 true this 0%Z 0%Z (fun _ _ _ => 6) prim prim
           bn (LeftSlot IEN) 2%Z).
  right. reflexivity.
Defined.

(** X18.  A [PrimToLocal] function keeps a fluid at rest at rest: where the
    three velocities of a state vanish at an interface of the loop, the three
    velocities it writes for that state vanish, whatever the geometric
    quantities of the interface. *)
Theorem prim_to_local_at_rest d mag this k j b_vals
    (prim_left prim_right : Array2 VarIndex) (bn : Array1) i (side : bool) :
  interface_range (pmy_block this) d i ->
  let out := prim_to_local d mag this k j b_vals prim_left prim_right bn in
  let p := if side then prim_left else prim_right in
  let q := if side then fst (fst out) else snd (fst out) in
  p IVX i = 0 -> p IVY i = 0 -> p IVZ i = 0 ->
  q IVX i = 0 /\ q IVY i = 0 /\ q IVZ i = 0.
Proof.
  intros Hr. cbv zeta.
  destruct d; cbn [prim_to_local interface_range] in *.
  - pose proof (PrimToLocal1_velocities mag this k j b_vals prim_left
                  prim_right bn i Hr side) as V.
    cbv zeta in V. destruct V as (V1 & V2 & V3). intros H1 H2 H3.
    rewrite V1, V2, V3, H1, H2, H3. unfold Rdiv. repeat split; ring.
  - pose proof (PrimToLocal2_velocities mag this k j b_vals prim_left
                  prim_right bn i Hr side) as V.
    cbv zeta in V. destruct V as (V2 & V3 & V1). intros H1 H2 H3.
    rewrite V1, V2, V3, H1, H2, H3. unfold Rdiv. repeat split; ring.
  - pose proof (PrimToLocal3_velocities mag this k j b_vals prim_left
                  prim_right bn i Hr side) as V.
    cbv zeta in V. destruct V as (V3 & V1 & V2). intros H1 H2 H3.
    rewrite V1, V2, V3, H1, H2, H3. unfold Rdiv. repeat split; ring.
Qed.

Lemma prim_to_local_at_rest_witness :
  let this := Coordinates_new 2 third_block in
  let prim := uniform_row 1 2 0 0 0 3 4 in
  let out := prim_to_local X2 true this 0 0 (fun _ _ _ => 6) prim prim
               (fun _ => 5) in
  fst (fst out) IVX 2%Z = 0 /\ fst (fst out) IVY 2%Z = 0
  /\ fst (fst out) IVZ 2%Z = 0.
Proof.
  intros this prim.
  refine (prim_to_local_at_rest X2 true this 0%Z 0%Z (fun _ _ _ => 6) prim
            prim (fun _ => 5) 2%Z true _ _ _ _); try reflexivity.
  destruct third_block_bounds as (E1 & E2 & _). fold this in E1, E2.
  cbn [interface_range]. rewrite E1, E2. lia.
Defined.

Lemma normal_field_average u0l u0r b u1l u1r cl cr :
  0 < u0l -> 0 < u0r ->
  / 2 * (u0l * ((b + cl * u1l) / u0l) - u1l * cl
         + (u0r * ((b + cr * u1r) / u0r) - u1r * cr)) = b.
Proof. intros Hl Hr. field. lra. Qed.

(** X19.  With magnetic fields, [PrimToLocal1] writes, at an interface of
    its loop where the left and the right state are subluminal, the normal
    field it was given: [bx(i)] is [b1_vals(k,j,i)], whatever the velocities
    and the transverse fields of the two states. *)
Theorem PrimToLocal1_normal_field this k j b1_vals
    (prim_left prim_right : Array2 VarIndex) (bx : Array1) i :
  (is_ (pmy_block this) <= i <= ie (pmy_block this) + 1)%Z ->
  norm_bracket (metric_face1_i1_ this i) (metric_face1_i2_ this i)
    (prim_left IVX i) (prim_left IVY i) (prim_left IVZ i) < 0 ->
  norm_bracket (metric_face1_i1_ this i) (metric_face1_i2_ this i)
    (prim_right IVX i) (prim_right IVY i) (prim_right IVZ i) < 0 ->
  snd (PrimToLocal1 true this k j b1_vals prim_left prim_right bx) i
  = b1_vals k j i.
Proof.
  intros Hr Hl Hrt.
  apply four_velocity0_pos in Hl, Hrt.
  change (snd ?o i) with (local_get o NormalSlot i).
  local_slot PrimToLocal1_pass PrimToLocal1_body.
  apply normal_field_average; assumption.
Qed.

Lemma PrimToLocal1_normal_field_witness :
  let prim := uniform_row 1 1 (2/5) 0 (4/5) 5 6 in
  snd (PrimToLocal1 true (Coordinates_ctor globals.A globals.K 2 third_block)
         0 0 (fun _ _ _ => 7) prim prim (fun _ => 0)) 2%Z
  = 7.
Proof.
  intros prim.
  assert (B : norm_bracket
                (metric_face1_i1_
                   (Coordinates_ctor globals.A globals.K 2 third_block) 2)
                (metric_face1_i2_
                   (Coordinates_ctor globals.A globals.K 2 third_block) 2)
                (prim IVX 2%Z) (prim IVY 2%Z) (prim IVZ 2%Z) < 0).
  { destruct third_block_faces as ((G1 & G2) & _). rewrite G1, G2.
    unfold prim, uniform_row, IVX, IVY, IVZ, norm_bracket. lra. }
  refine (PrimToLocal1_normal_field
            (Coordinates_ctor globals.A globals.K 2 third_block) 0%Z 0%Z
            (fun _ _ _ => 7) prim prim (fun _ => 0) 2%Z _ B B).
  destruct (ctor_bounds globals.A globals.K 2 third_block) as (E1 & E2 & _).
  rewrite E1, E2. simpl. lia.
Defined.

(** ** Source terms: time steps, fluid without x1-velocity, flat chart *)


(** Without a source coefficient there is no increment. *)
Lemma source_increment_zero_coeff this dt prim k j i :
  src_terms_i1_ this i = 0 -> source_increment this dt prim k j i = 0.
Proof.
  intros H. unfold source_increment, source_terms_body; cbv zeta.
  unfold set4. rewrite !Z.eqb_refl. cbn [VarIndex_eqb andb].
  rewrite H. ring.
Qed.






(** X22.  For coordinates made by the constructor, [CoordinateSourceTerms]
    leaves the conserved variables of a cell as they are when [beta] has the
    same value at the two faces of the cell, as in a cell that is one period
    of the chart wide; the face spacing of the cell is not 0 and the
    arithmetic of the function is defined at the cell. *)
Theorem CoordinateSourceTerms_equal_face_betas
    A K NGHOST pb dt prim cons n k j i :
  (0 <= NGHOST)%Z ->
  dx1f pb i <> 0 ->
  beta A K (x1f pb i) = beta A K (x1f pb (i + 1)) ->
  source_defined (Coordinates_ctor A K NGHOST pb) prim k j i ->
  snd (CoordinateSourceTerms (Coordinates_ctor A K NGHOST pb) dt prim cons)
    n k j i
  = cons n k j i.
Proof.
  intros Hg _ Hb _. rewrite CoordinateSourceTerms_values.
  destruct (VarIndex_eqb n IM1) eqn:En; cbn [andb]; [|reflexivity].
  destruct (interiorb (pmy_block (Coordinates_ctor A K NGHOST pb)) k j i)
    eqn:Ei; [|reflexivity].
  apply interiorb_spec in Ei. destruct Ei as (_ & _ & Ei).
  destruct (ctor_bounds A K NGHOST pb) as (E1 & E2 & _).
  rewrite E1, E2 in Ei.
  assert (Hi : in_block NGHOST pb i) by (unfold in_block; lia).
  rewrite source_increment_zero_coeff; [apply Rplus_0_r|].
  rewrite (ctor_src_terms A K NGHOST pb i Hi), init_block_x1f.
  unfold beta in Hb. rewrite (Rminus_diag_eq _ _ Hb).
  unfold Rdiv. apply Rmult_0_l.
Qed.

Lemma period_block_source_defined :
  source_defined (Coordinates_ctor globals.A globals.K 2 period_block)
    (uniform_state 1 1 (1/2) 0 (1/2)) 0 0 2.
Proof.
  assert (Hi : in_block 2 period_block 2) by (unfold in_block; simpl; lia).
  split.
  - rewrite ctor_pmy_block.
    pose proof (init_block_same_grid 2 period_block) as G.
    unfold same_grid in G.
    destruct G as (_ & _ & _ & _ & _ & _ & _ & _ & _ & _ & _ & _ & _ & G).
    rewrite G. unfold period_block, uniform_block, GetGamma; cbn. lra.
  - unfold source_norm; cbv zeta.
    rewrite (ctor_metric_cell_i1 globals.A globals.K 2 period_block 2 Hi).
    pose proof (COS_bound (globals.K * x1v (init_block 2 period_block) 2))
      as Hc.
    revert Hc.
    generalize (metric_cell_i2_
                  (Coordinates_ctor globals.A globals.K 2 period_block) 2).
    generalize (cos (globals.K * x1v (init_block 2 period_block) 2)).
    intros c g12 [Hc1 Hc2].
    cbv beta iota delta [uniform_state IVX IVY IVZ].
    unfold globals.A, globals.K, SQR. autorewrite with literals.
    assert (c * c <= 1) by nra.
    nra.
Qed.

Lemma CoordinateSourceTerms_equal_face_betas_witness :
  let prim := uniform_state 1 1 (1/2) 0 (1/2) in
  let cons := uniform_state 1 2 3 4 5 in
  snd (CoordinateSourceTerms
         (Coordinates_ctor globals.A globals.K 2 period_block) 1 prim cons)
    IM1 0%Z 0%Z 2%Z
  = cons IM1 0%Z 0%Z 2%Z.
Proof.
  intros prim cons.
  apply (CoordinateSourceTerms_equal_face_betas globals.A globals.K 2%Z
           period_block 1 prim cons IM1 0%Z 0%Z 2%Z).
  - lia.
  - unfold period_block, uniform_block; cbn. pose proof PI_RGT_0. lra.
  - unfold beta, globals.K, period_block, uniform_block; cbn.
    replace (0.1 * (0 + 0 * (20 * PI))) with 0 by lra.
    replace (0.1 * (0 + 1 * (20 * PI))) with (2 * PI) by lra.
    rewrite cos_0, cos_2PI. reflexivity.
  - exact period_block_source_defined.
Defined.

(** ** Distance between points *)

Lemma sum_of_squares_nonneg x y z : 0 <= x * x + y * y + z * z.
Proof.
  pose proof (Rle_0_sqr x) as Hx. pose proof (Rle_0_sqr y) as Hy.
  pose proof (Rle_0_sqr z) as Hz. unfold Rsqr in *. lra.
Qed.

Lemma sum_of_squares_zero x y z :
  x * x + y * y + z * z = 0 -> x = 0 /\ y = 0 /\ z = 0.
Proof.
  intros H.
  pose proof (Rle_0_sqr x) as Hx. pose proof (Rle_0_sqr y) as Hy.
  pose proof (Rle_0_sqr z) as Hz. unfold Rsqr in *.
  repeat split; apply Rsqr_0_uniq; unfold Rsqr; lra.
Qed.

(** X23.  [DistanceBetweenPoints] is never negative, and it is 0 exactly
    when the second point is the image of the first in Minkowski
    coordinates: [x = x1], [y = x2 - A sin (K x1)], [z = x3]. *)
Theorem DistanceBetweenPoints_zero A K a1 a2 a3 bx by_ bz :
  0 <= DistanceBetweenPoints A K a1 a2 a3 bx by_ bz /\
  (DistanceBetweenPoints A K a1 a2 a3 bx by_ bz = 0 <->
   bx = a1 /\ by_ = a2 - A * sin (K * a1) /\ bz = a3).
Proof.
  unfold DistanceBetweenPoints; cbv zeta. unfold SQR.
  set (y := a2 - A * sin (K * a1)).
  split; [apply sqrt_pos|]. split.
  - intros H. apply sqrt_eq_0 in H; [|apply sum_of_squares_nonneg].
    apply sum_of_squares_zero in H. destruct H as (H1 & H2 & H3).
    repeat split; lra.
  - intros (-> & -> & ->).
    replace ((a1 - a1) * (a1 - a1) + (y - y) * (y - y)
             + (a3 - a3) * (a3 - a3)) with 0 by ring.
    apply sqrt_0.
Qed.
